(** * web-llm low-level window.ai extension: sessions, token metadata and
      probability utilities

    A shallow embedding of [src/window_ai_ll.ts] (classes [MlcAIModel] and
    [MlcAiSequence], function [isAllowed]), of the bulk token-metadata
    encoder [AIModel.tokenInfo] of the earlier revision of that file, and
    of the example [genText] of [src/window_ai_ll_iface.ts].

    Conventions.
    - A JavaScript [number] that holds an integer (token ids, lengths,
      [backtrack], [_promptSize]) is a [Z].
    - A JavaScript [number] that holds a logit or a probability is an element
      of a type with the arithmetic the code uses ([JsNum]); the generic
      theorems hold for every such arithmetic, IEEE doubles included.  The
      instance [xreal] is the real line extended with [+Infinity],
      [-Infinity] and [NaN]: special values follow IEEE 754, finite values
      are exact (no rounding, no overflow, no signed zero).
    - An [async] method is run to completion: each call is one atomic step
      on the world, and a [throw] keeps the mutations made before it.
    - Objects live in a store.  A sequence is identified by its index among
      the sequences created so far, a JavaScript array of tokens by its
      index among the arrays allocated so far; [_tokens] holds such a
      reference, so that aliasing can be told from copying.
    - The engine, its pipeline and the tokenizer are parameters ([Engine],
      [Tokenizer]); [TextEncoder], [parseInt] and the string methods are
      written out from the platform's definitions. *)

From Stdlib Require Import ZArith List Bool Ascii String Reals Lra Lia.
From stdpp Require Import base list.
Import ListNotations.

Local Open Scope Z_scope.

(** ** 32-bit integer operators of JavaScript *)

Module Int32.

(** [ToInt32]: reduce modulo 2^32 into [-2^31, 2^31). *)
Definition toInt32 (z : Z) : Z := (z + 2 ^ 31) mod 2 ^ 32 - 2 ^ 31.

(** [ToUint32]. *)
Definition toUint32 (z : Z) : Z := z mod 2 ^ 32.

(** [a & b]. *)
Definition and (a b : Z) : Z := toInt32 (Z.land (toInt32 a) (toInt32 b)).

(** [a << b]: the shift count is taken modulo 32. *)
Definition shl (a b : Z) : Z := toInt32 (Z.shiftl (toInt32 a) (toUint32 b mod 32)).

(** [a >>> b]. *)
Definition shru (a b : Z) : Z := Z.shiftr (toUint32 a) (toUint32 b mod 32).

End Int32.

(** ** Sampling masks

    A [Uint32Array]: a list of words in [0, 2^32).  Reading past the end gives
    [undefined], which [&] turns into 0. *)

Definition Uint32Array := list Z.

Definition word_at (mask : Uint32Array) (k : Z) : Z :=
  if k <? 0 then 0 else nth (Z.to_nat k) mask 0.

(** [function isAllowed(mask, i) { return mask[i >>> 5] & (1 << (i & 31)) ? true : false; }] *)
Definition isAllowed (mask : Uint32Array) (i : Z) : bool :=
  negb (Int32.and (word_at mask (Int32.shru i 5)) (Int32.shl 1 (Int32.and i 31)) =? 0).

(** [mask && !isAllowed(mask, i)]: an absent mask masks nothing out. *)
Definition masked_out (mask : option Uint32Array) (i : nat) : bool :=
  match mask with
  | None => false
  | Some m => negb (isAllowed m (Z.of_nat i))
  end.

(** ** Arithmetic of logits *)

Class JsNum (F : Type) := {
  num_zero : F;                 (* the literal [0] *)
  num_ninf : F;                 (* [-Infinity] *)
  num_add : F -> F -> F;
  num_sub : F -> F -> F;
  num_div : F -> F -> F;
  num_exp : F -> F;             (* [Math.exp] *)
  num_log : F -> F;             (* [Math.log] *)
  num_gtb : F -> F -> bool      (* [a > b] *)
}.

(** ** Probability utilities: the loops of [logProbs] and [surprise] *)

Section Probability.

Context {F : Type} `{JsNum F}.

(** First loop of [logProbs]: overwrite masked-out entries with
    [-Infinity] and track the running maximum. *)
Fixpoint logProbs_max (mask : option Uint32Array) (i : nat) (l : list F) (max : F)
  : list F * F :=
  match l with
  | [] => ([], max)
  | x :: rest =>
      let x' := if masked_out mask i then num_ninf else x in
      let max' := if num_gtb x' max then x' else max in
      let '(rest', m) := logProbs_max mask (S i) rest max' in
      (x' :: rest', m)
  end.

(** [sum += Math.exp(l[i] - max)] *)
Definition sum_exp (l : list F) (max : F) : F :=
  fold_left (fun sum x => num_add sum (num_exp (num_sub x max))) l num_zero.

(** [logProbs] on the array returned by [logits()]. *)
Definition logProbs (l : list F) (mask : option Uint32Array) : list F :=
  let '(l1, max) := logProbs_max mask 0%nat l num_ninf in
  let sum := sum_exp l1 max in
  let logSum := num_add max (num_log sum) in
  map (fun x => num_sub x logSum) l1.

(** First loop of [surprise]: the maximum, no masking. *)
Definition surprise_max (l : list F) : F :=
  fold_left (fun max x => if num_gtb x max then x else max) l num_ninf.

(** Second loop of [surprise]: [sum] and [sumMasked] side by side. *)
Fixpoint surprise_sums (mask : option Uint32Array) (i : nat) (l : list F) (max : F)
         (sum sumMasked : F) : F * F :=
  match l with
  | [] => (sum, sumMasked)
  | x :: rest =>
      let sum' := num_add sum (num_exp (num_sub x max)) in
      let sumMasked' :=
        if masked_out mask i then num_add sumMasked (num_exp (num_sub x max))
        else sumMasked in
      surprise_sums mask (S i) rest max sum' sumMasked'
  end.

(** [surprise] on the array returned by [logits()]. *)
Definition surprise (l : list F) (mask : option Uint32Array) : F :=
  let max := surprise_max l in
  let '(sum, sumMasked) := surprise_sums mask 0%nat l max num_zero num_zero in
  num_div sum sumMasked.

End Probability.

(** ** Extended reals *)

Inductive xreal : Type :=
| Fin (r : R)
| PInf
| NInf
| NaN.

Module XReal.

Definition add (a b : xreal) : xreal :=
  match a, b with
  | NaN, _ | _, NaN => NaN
  | Fin x, Fin y => Fin (x + y)%R
  | PInf, NInf | NInf, PInf => NaN
  | PInf, _ | _, PInf => PInf
  | NInf, _ | _, NInf => NInf
  end.

Definition neg (a : xreal) : xreal :=
  match a with
  | Fin x => Fin (- x)%R
  | PInf => NInf
  | NInf => PInf
  | NaN => NaN
  end.

Definition sub (a b : xreal) : xreal := add a (neg b).

Definition gtb (a b : xreal) : bool :=
  match a, b with
  | NaN, _ | _, NaN => false
  | Fin x, Fin y => if Rlt_dec y x then true else false
  | PInf, PInf => false
  | PInf, _ => true
  | _, PInf => false
  | NInf, _ => false
  | Fin _, NInf => true
  end.

Definition exp (a : xreal) : xreal :=
  match a with
  | Fin x => Fin (Rtrigo_def.exp x)
  | PInf => PInf
  | NInf => Fin 0
  | NaN => NaN
  end.

Definition log (a : xreal) : xreal :=
  match a with
  | Fin x =>
      if Rlt_dec 0 x then Fin (ln x)
      else if Req_dec_T x 0 then NInf else NaN
  | PInf => PInf
  | NInf | NaN => NaN
  end.

(** Division; a zero divisor is [+0]. *)
Definition div (a b : xreal) : xreal :=
  match a, b with
  | NaN, _ | _, NaN => NaN
  | Fin x, Fin y =>
      if Req_dec_T y 0 then
        if Rlt_dec 0 x then PInf else if Rlt_dec x 0 then NInf else NaN
      else Fin (x / y)%R
  | Fin _, _ => Fin 0
  | PInf, Fin y => if Rlt_dec y 0 then NInf else PInf
  | NInf, Fin y => if Rlt_dec y 0 then PInf else NInf
  | _, _ => NaN
  end.

End XReal.

#[export] Instance xreal_JsNum : JsNum xreal := {
  num_zero := Fin 0;
  num_ninf := NInf;
  num_add := XReal.add;
  num_sub := XReal.sub;
  num_div := XReal.div;
  num_exp := XReal.exp;
  num_log := XReal.log;
  num_gtb := XReal.gtb
}.

(** ** Sessions: the object model *)

(** [AIAssistantPrompt] *)
Inductive AIAssistantPromptRole := system | user | assistant.

Record AIAssistantPrompt := {
  role : AIAssistantPromptRole;
  content : list Z                  (* UTF-16 code units *)
}.

(** What [NDArray.toArray()] hands back. *)
Inductive HostArray (F : Type) :=
| Float32Array (l : list F)
| OtherArray.
Arguments Float32Array {F} l.
Arguments OtherArray {F}.

(** The errors the session layer throws, by message, and a rejection that
    comes out of the engine. *)
Inductive Error :=
| PromptSizeNotInitialized      (* "Prompt size not initialized yet" *)
| CantGetLogits                 (* "Can't get logits" *)
| CannotAdvanceDifferent        (* "Cannot advance a different AISequence" *)
| BacktrackingNotImplemented    (* "Backtracking not implemented" *)
| NotImplemented                (* "Not implemented" *)
| NoLogits                      (* "No logits" *)
| NotAFloat32Array              (* "Not a Float32Array" *)
| InvalidToken (i : Z)          (* "Invalid token: ... at i" *)
| TokenTooLong (i : Z)          (* "Token too long: ... at i" *)
| EngineRejected                (* an awaited engine call rejected *)
| DanglingReference.            (* a reference no constructor returned *)

Inductive result (A : Type) :=
| Ok (a : A)
| Throw (e : Error).
Arguments Ok {A} a.
Arguments Throw {A} e.

(** The collaborators the session layer calls: the engine ([prefill],
    [config]), its pipeline ([forwardTokens], [sampleTokenFromLogits],
    [filledKVCacheLength]) and tvmjs ([toArray]).  An awaited call returns
    [None] when its promise rejects. *)
Class Engine (F NDArray Pipeline : Type) := {
  context_window_size : Z;
  toArray : NDArray -> HostArray F;
  filledKVCacheLength : Pipeline -> Z;
  (* resolves to the logits or to [undefined] *)
  prefill : list AIAssistantPrompt -> Pipeline -> option (option NDArray) * Pipeline;
  forwardTokens : list Z -> Pipeline -> option NDArray * Pipeline;
  (* called on a copy of the logits *)
  sampleTokenFromLogits :
    HostArray F -> option F -> option Uint32Array -> Pipeline -> option Z * Pipeline
}.

(** [Array.prototype.splice(start, deleteCount)] on integer arguments,
    nothing inserted. *)
Definition splice {A} (start deleteCount : Z) (l : list A) : list A :=
  let len := Z.of_nat (length l) in
  let actualStart := if start <? 0 then Z.max (len + start) 0 else Z.min start len in
  let actualDeleteCount := Z.min (Z.max deleteCount 0) (len - actualStart) in
  firstn (Z.to_nat actualStart) l ++ skipn (Z.to_nat (actualStart + actualDeleteCount)) l.

Section Session.

Context {F NDArray Pipeline : Type} `{JsNum F} `{Engine F NDArray Pipeline}.

(** An [MlcAiSequence] object.  [_tokens] is a reference to a JavaScript
    array in the store. *)
Record MlcAiSequence := {
  _tokens : nat;
  _promptSize : Z;
  _logits : option NDArray;
  _options : list AIAssistantPrompt
}.

(** The engine object with everything reachable from it, and the store:
    sequences and arrays are identified by their index. *)
Record World := {
  seqs : list MlcAiSequence;
  arrays : list (list Z);
  _window_ai_seq : option nat;       (* [_engine._window_ai_seq] *)
  pipeline : Pipeline;               (* [_engine.pipeline] *)
  lowLevel : bool;                   (* [_engine.pipeline.lowLevel] *)
  disposed : list NDArray            (* every [dispose()] so far, oldest first *)
}.

Definition with_seqs (f : list MlcAiSequence -> list MlcAiSequence) (w : World) : World :=
  {| seqs := f (seqs w); arrays := arrays w; _window_ai_seq := _window_ai_seq w;
     pipeline := pipeline w; lowLevel := lowLevel w; disposed := disposed w |}.

Definition with_arrays (f : list (list Z) -> list (list Z)) (w : World) : World :=
  {| seqs := seqs w; arrays := f (arrays w); _window_ai_seq := _window_ai_seq w;
     pipeline := pipeline w; lowLevel := lowLevel w; disposed := disposed w |}.

Definition with_window_ai_seq (c : option nat) (w : World) : World :=
  {| seqs := seqs w; arrays := arrays w; _window_ai_seq := c;
     pipeline := pipeline w; lowLevel := lowLevel w; disposed := disposed w |}.

Definition with_pipeline (p : Pipeline) (w : World) : World :=
  {| seqs := seqs w; arrays := arrays w; _window_ai_seq := _window_ai_seq w;
     pipeline := p; lowLevel := lowLevel w; disposed := disposed w |}.

Definition with_lowLevel (b : bool) (w : World) : World :=
  {| seqs := seqs w; arrays := arrays w; _window_ai_seq := _window_ai_seq w;
     pipeline := pipeline w; lowLevel := b; disposed := disposed w |}.

Definition with_disposed (f : list NDArray -> list NDArray) (w : World) : World :=
  {| seqs := seqs w; arrays := arrays w; _window_ai_seq := _window_ai_seq w;
     pipeline := pipeline w; lowLevel := lowLevel w; disposed := f (disposed w) |}.

Definition set_promptSize (n : Z) (s : MlcAiSequence) : MlcAiSequence :=
  {| _tokens := _tokens s; _promptSize := n; _logits := _logits s; _options := _options s |}.

Definition set_logits (l : option NDArray) (s : MlcAiSequence) : MlcAiSequence :=
  {| _tokens := _tokens s; _promptSize := _promptSize s; _logits := l; _options := _options s |}.

(** *** Computations: a world goes in, a value or a thrown error and the
    world as it then is come out. *)
Definition M (A : Type) : Type := World -> result A * World.

#[export] Instance M_ret : MRet M := fun A a w => (Ok a, w).

#[export] Instance M_bind : MBind M := fun A B f m w =>
  match m w with
  | (Ok a, w') => f a w'
  | (Throw e, w') => (Throw e, w')
  end.

Definition throw {A} (e : Error) : M A := fun w => (Throw e, w).
Definition get : M World := fun w => (Ok w, w).
Definition modify (f : World -> World) : M () := fun w => (Ok (), f w).

(** Dereference [this]. *)
Definition getSeq (this : nat) : M MlcAiSequence := fun w =>
  match seqs w !! this with
  | Some s => (Ok s, w)
  | None => (Throw DanglingReference, w)
  end.

(** Assign fields of [this]. *)
Definition updSeq (this : nat) (f : MlcAiSequence -> MlcAiSequence) : M () :=
  s ← getSeq this;
  modify (with_seqs (fun l => <[this := f s]> l)).

(** Dereference an array. *)
Definition getArray (a : nat) : M (list Z) := fun w =>
  match arrays w !! a with
  | Some v => (Ok v, w)
  | None => (Throw DanglingReference, w)
  end.

(** Mutate an array in place. *)
Definition updArray (a : nat) (f : list Z -> list Z) : M () :=
  v ← getArray a;
  modify (with_arrays (fun l => <[a := f v]> l)).

(** Allocate a new array. *)
Definition newArray (v : list Z) : M nat := fun w =>
  (Ok (length (arrays w)), with_arrays (fun l => l ++ [v]) w).

(** [this._logits?.dispose()] *)
Definition disposeLogits (this : nat) : M () :=
  s ← getSeq this;
  match _logits s with
  | Some nd => modify (with_disposed (fun d => d ++ [nd]))
  | None => mret ()
  end.

(** Await a call into the pipeline. *)
Definition await {A} (call : Pipeline -> option A * Pipeline) : M A := fun w =>
  match call (pipeline w) with
  | (Some a, p) => (Ok a, with_pipeline p w)
  | (None, p) => (Throw EngineRejected, with_pipeline p w)
  end.

(** *** [MlcAIModel.createSequence] and the constructor *)
Definition createSequence (options : list AIAssistantPrompt) : M nat :=
  t ← newArray [];
  w ← get;
  modify (with_seqs (fun l =>
    l ++ [{| _tokens := t; _promptSize := 0; _logits := None; _options := options |}]));;
  mret (length (seqs w)).

(** *** Accessors *)

Definition promptSize (this : nat) : M Z :=
  s ← getSeq this;
  if _promptSize s =? 0 then throw PromptSizeNotInitialized
  else mret (_promptSize s).

Definition maxTokens (this : nat) : M Z :=
  s ← getSeq this;
  mret (context_window_size - _promptSize s).

Definition tokensSoFar (this : nat) : M Z :=
  s ← getSeq this;
  v ← getArray (_tokens s);
  mret (Z.of_nat (length v)).

Definition tokensLeft (this : nat) : M Z :=
  m ← maxTokens this;
  n ← tokensSoFar this;
  mret (m - n).

(** [return this._tokens.slice();] the result is a reference to a new array. *)
Definition tokens (this : nat) : M nat :=
  s ← getSeq this;
  v ← getArray (_tokens s);
  newArray v.

(** *** [advance]

    The three statements of its body, in order. *)

(** [if (!this._promptSize) { ...prefill... } else { ...check the claim... }] *)
Definition advance_prefill (this : nat) (s : MlcAiSequence) : M () :=
  if _promptSize s =? 0 then
    modify (with_window_ai_seq (Some this));;
    updSeq this (set_promptSize (-1));;
    modify (with_lowLevel true);;
    logits ← await (prefill (_options s));
    match logits with
    | None => throw CantGetLogits
    | Some nd =>
        w ← get;
        updSeq this (set_promptSize (filledKVCacheLength (pipeline w)));;
        disposeLogits this;;
        updSeq this (set_logits (Some nd))
    end
  else
    w ← get;
    if decide (_window_ai_seq w = Some this) then mret ()
    else throw CannotAdvanceDifferent.

(** [if (backtrack > 0) { this._tokens.splice(-backtrack, backtrack); throw ... }] *)
Definition advance_backtrack (s : MlcAiSequence) (backtrack : Z) : M () :=
  if 0 <? backtrack then
    updArray (_tokens s) (splice (- backtrack) backtrack);;
    throw BacktrackingNotImplemented
  else mret ().

(** [if (appendTokens.length > 0) { push; dispose; forwardTokens }] *)
Definition advance_append (this : nat) (s : MlcAiSequence) (appendTokens : list Z) : M () :=
  if (0 <? length appendTokens)%nat then
    updArray (_tokens s) (fun v => v ++ appendTokens);;
    disposeLogits this;;
    nd ← await (forwardTokens appendTokens);
    updSeq this (set_logits (Some nd))
  else mret ().

Definition advance (this : nat) (appendTokens : list Z) (backtrack : Z) : M () :=
  s ← getSeq this;
  advance_prefill this s;;
  advance_backtrack s backtrack;;
  advance_append this s appendTokens.

(** *** [clone] *)
Definition clone (this : nat) : M nat := throw NotImplemented.

(** *** [sample]

    [options] is the temperature and the sampling mask.  The device
    synchronisation, the tvm scope and the copy of [_logits] into [clone] are
    the engine's: the sampler is handed the contents of the logits. *)
Definition sample (this : nat) (temperature : option F) (samplingMask : option Uint32Array)
  : M Z :=
  s ← getSeq this;
  match _logits s with
  | None => throw NoLogits
  | Some nd => await (sampleTokenFromLogits (toArray nd) temperature samplingMask)
  end.

(** *** [logits] *)
Definition logits (this : nat) : M (list F) :=
  s ← getSeq this;
  match _logits s with
  | None => throw NoLogits
  | Some nd =>
      match toArray nd with
      | Float32Array r => mret r
      | OtherArray => throw NotAFloat32Array
      end
  end.

(** *** [logProbs] and [surprise], the methods *)
Definition logProbs_method (this : nat) (mask : option Uint32Array) : M (list F) :=
  l ← logits this;
  mret (logProbs l mask).

Definition surprise_method (this : nat) (mask : option Uint32Array) : M F :=
  l ← logits this;
  mret (surprise l mask).

(** *** [destroy] *)
Definition destroy (this : nat) : M () :=
  disposeLogits this;;
  updSeq this (set_logits None);;
  w ← get;
  if decide (_window_ai_seq w = Some this)
  then modify (with_window_ai_seq None)
  else mret ().

(** *** The interface as its callers drive it *)

(** Read the [tokens] property and look at what the returned array holds. *)
Definition read_tokens (this : nat) : M (list Z) :=
  a ← tokens this;
  getArray a.

(** The engine before any sequence exists. *)
Definition init_world (p : Pipeline) : World :=
  {| seqs := []; arrays := []; _window_ai_seq := None;
     pipeline := p; lowLevel := false; disposed := [] |}.

(** [a] is the [_tokens] array of some sequence.  The field is private and
    no method hands it out, so a caller holds no reference to it. *)
Definition is_private (w : World) (a : nat) : bool :=
  existsb (fun s => Nat.eqb (_tokens s) a) (seqs w).

(** One thing a caller can do: call a method of the model or of a sequence,
    or write to an array it holds. *)
Inductive Call :=
| CreateSequence (options : list AIAssistantPrompt)
| GetPromptSize (this : nat)
| GetTokensLeft (this : nat)
| GetTokens (this : nat)
| Advance (this : nat) (appendTokens : list Z) (backtrack : Z)
| Clone (this : nat)
| Sample (this : nat) (temperature : option F) (samplingMask : option Uint32Array)
| LogProbs (this : nat) (mask : option Uint32Array)
| Surprise (this : nat) (mask : option Uint32Array)
| Logits (this : nat)
| Destroy (this : nat)
| WriteArray (a : nat) (v : list Z).

(** The world after a call, whether it returned or threw. *)
Definition exec (c : Call) (w : World) : World :=
  match c with
  | CreateSequence options => snd (createSequence options w)
  | GetPromptSize this => snd (promptSize this w)
  | GetTokensLeft this => snd (tokensLeft this w)
  | GetTokens this => snd (tokens this w)
  | Advance this appendTokens backtrack => snd (advance this appendTokens backtrack w)
  | Clone this => snd (clone this w)
  | Sample this temperature samplingMask => snd (sample this temperature samplingMask w)
  | LogProbs this mask => snd (logProbs_method this mask w)
  | Surprise this mask => snd (surprise_method this mask w)
  | Logits this => snd (logits this w)
  | Destroy this => snd (destroy this w)
  | WriteArray a v =>
      if is_private w a then w else with_arrays (fun l => <[a := v]> l) w
  end.

Definition execs (cs : list Call) (w : World) : World := fold_left (fun w c => exec c w) cs w.

(** Every sequence has its own [_tokens] array. *)
Definition wf (w : World) : Prop :=
  (forall i s, seqs w !! i = Some s -> (_tokens s < length (arrays w))%nat)
  /\ (forall i j si sj, seqs w !! i = Some si -> seqs w !! j = Some sj ->
        _tokens si = _tokens sj -> i = j).

(** *** Worlds after a step, footprints and invariants *)

Definition dispose_opt (o : option NDArray) (w : World) : World :=
  match o with
  | Some nd => with_disposed (fun d => d ++ [nd]) w
  | None => w
  end.

(** The world after a successful append. *)
Definition appended (this : nat) (s : MlcAiSequence) (v appendTokens : list Z)
    (nd : NDArray) (p : Pipeline) (w : World) : World :=
  {| seqs := <[this := set_logits (Some nd) s]> (seqs w);
     arrays := <[_tokens s := v ++ appendTokens]> (arrays w);
     _window_ai_seq := _window_ai_seq w;
     pipeline := p;
     lowLevel := lowLevel w;
     disposed := disposed (dispose_opt (_logits s) w) |}.

Definition respects {A} (R : World -> World -> Prop) (m : M A) : Prop :=
  forall w, R w (snd (m w)).

(** [frame this t w w']: from [w] to [w'] nothing was allocated; of the
    sequences only [this] may differ, and it kept its [_tokens] reference; of
    the arrays only [t] may differ; and no sequence other than [this] has
    gained the claim. *)
Definition frame (this t : nat) (w w' : World) : Prop :=
  length (seqs w') = length (seqs w)
  /\ length (arrays w') = length (arrays w)
  /\ (forall i, i <> this -> seqs w' !! i = seqs w !! i)
  /\ (forall s, seqs w !! this = Some s ->
        exists s', seqs w' !! this = Some s' /\ _tokens s' = _tokens s)
  /\ (forall a, a <> t -> arrays w' !! a = arrays w !! a)
  /\ (forall i, i <> this -> _window_ai_seq w' = Some i -> _window_ai_seq w = Some i).

(** [benign w w']: the sequences and the claim are as they were, and the
    arrays there were are untouched. *)
Definition benign (w w' : World) : Prop :=
  seqs w' = seqs w
  /\ _window_ai_seq w' = _window_ai_seq w
  /\ exists l, arrays w' = arrays w ++ l.

Definition keeps_claim (this : nat) (w w' : World) : Prop :=
  _window_ai_seq w = Some this -> _window_ai_seq w' = Some this.

Definition never_throws {A} (e : Error) (m : M A) : Prop :=
  forall w, fst (m w) <> Throw e.

(** The world after a prefill that returned the logits [nd] and left the
    pipeline in [p]. *)
Definition primed (this : nat) (s : MlcAiSequence) (nd : NDArray) (p : Pipeline)
    (w : World) : World :=
  {| seqs :=
       <[this := {| _tokens := _tokens s; _promptSize := filledKVCacheLength p;
                    _logits := Some nd; _options := _options s |}]> (seqs w);
     arrays := arrays w;
     _window_ai_seq := Some this;
     pipeline := p;
     lowLevel := true;
     disposed := disposed (dispose_opt (_logits s) w) |}.

Definition created (options : list AIAssistantPrompt) (w : World) : World :=
  {| seqs := seqs w ++ [{| _tokens := length (arrays w); _promptSize := 0;
                           _logits := None; _options := options |}];
     arrays := arrays w ++ [[]];
     _window_ai_seq := _window_ai_seq w;
     pipeline := pipeline w;
     lowLevel := lowLevel w;
     disposed := disposed w |}.

Definition destroyed (this : nat) (s : MlcAiSequence) (w : World) : World :=
  {| seqs := <[this := set_logits None s]> (seqs w);
     arrays := arrays w;
     _window_ai_seq :=
       if decide (_window_ai_seq w = Some this) then None else _window_ai_seq w;
     pipeline := pipeline w;
     lowLevel := lowLevel w;
     disposed := disposed (dispose_opt (_logits s) w) |}.

(** [displaced A s ts w]: in the well-formed world [w] the sequence [A] is
    [s], its token history is [ts], it has been primed and it does not hold
    the claim. *)
Definition displaced (A : nat) (s : MlcAiSequence) (ts : list Z) (w : World) : Prop :=
  wf w
  /\ seqs w !! A = Some s
  /\ arrays w !! _tokens s = Some ts
  /\ _promptSize s <> 0
  /\ _window_ai_seq w <> Some A.

(** What a call does to the fields of [A]: only [A.destroy()] writes one. *)
Definition after_call (A : nat) (c : Call) (s : MlcAiSequence)
  : MlcAiSequence :=
  match c with
  | Destroy this => if decide (this = A) then set_logits None s else s
  | _ => s
  end.

Definition after_calls (A : nat) (cs : list Call) (s : MlcAiSequence)
  : MlcAiSequence :=
  fold_left (fun s c => after_call A c s) cs s.

Definition has_logits (this : nat) (w : World) : Prop :=
  exists s, seqs w !! this = Some s /\ is_Some (_logits s).

Definition keeps_logits (this : nat) (w w' : World) : Prop :=
  has_logits this w -> has_logits this w'.

(** *** More footprints and classes of calls *)

(** [keeps_fields i w w']: the sequence [i] is still there with the same
    [_tokens], [_promptSize] and [_options]. *)
Definition keeps_fields (i : nat) (w w' : World) : Prop :=
  forall s, seqs w !! i = Some s ->
    exists s', seqs w' !! i = Some s'
      /\ _tokens s' = _tokens s /\ _promptSize s' = _promptSize s
      /\ _options s' = _options s.

(** The call is [i.advance(...)]. *)
Definition is_advance_of (i : nat) (c : Call) : bool :=
  match c with
  | Advance this _ _ => Nat.eqb this i
  | _ => false
  end.

(** The call is an accessor, [clone], [sample], [logProbs], [surprise] or
    [logits]. *)
Definition is_observer (c : Call) : bool :=
  match c with
  | GetPromptSize _ | GetTokensLeft _ | GetTokens _ | Clone _
  | Sample _ _ _ | LogProbs _ _ | Surprise _ _ | Logits _ => true
  | CreateSequence _ | Advance _ _ _ | Destroy _ | WriteArray _ _ => false
  end.

(** [holds sequence t ps v w]: the sequence has the prompt size [ps], holds
    the claim, and its history, in the array [t], is [v]. *)
Definition holds (sequence t : nat) (ps : Z) (v : list Z) (w : World) : Prop :=
  exists s, seqs w !! sequence = Some s
    /\ _tokens s = t /\ _promptSize s = ps
    /\ _window_ai_seq w = Some sequence
    /\ arrays w !! t = Some v.

End Session.

Arguments MlcAiSequence : clear implicits.
Arguments World : clear implicits.
Arguments M : clear implicits.
Arguments Call : clear implicits.

(** ** Strings and bytes of the platform *)

(** A JavaScript string: its UTF-16 code units. *)
Definition jsstring := list Z.

(** A string literal of the source (ASCII only). *)
Definition lit (s : string) : jsstring :=
  map (fun a => Z.of_N (N_of_ascii a)) (list_ascii_of_string s).

Module JsString.

(** [s == t] on strings. *)
Fixpoint eqb (s t : jsstring) : bool :=
  match s, t with
  | [], [] => true
  | c :: s', d :: t' => (c =? d) && eqb s' t'
  | _, _ => false
  end.

(** [s.startsWith(p)] *)
Fixpoint startsWith (s p : jsstring) : bool :=
  match p, s with
  | [], _ => true
  | d :: p', c :: s' => (c =? d) && startsWith s' p'
  | _ :: _, [] => false
  end.

(** [s.endsWith(p)] *)
Definition endsWith (s p : jsstring) : bool := startsWith (rev s) (rev p).

(** [s.includes(p)] *)
Fixpoint includes (s p : jsstring) : bool :=
  startsWith s p ||
  match s with
  | [] => false
  | _ :: s' => includes s' p
  end.

(** [s.slice(k)] for [k >= 0]. *)
Definition slice (k : nat) (s : jsstring) : jsstring := skipn k s.

End JsString.

(** [new TextEncoder().encode(s)]: UTF-8, a lone surrogate becomes U+FFFD. *)
Module TextEncoder.

Definition is_high (c : Z) : bool := (0xD800 <=? c) && (c <=? 0xDBFF).
Definition is_low (c : Z) : bool := (0xDC00 <=? c) && (c <=? 0xDFFF).

Definition replacement : list Z := [0xEF; 0xBF; 0xBD].

Definition three (c : Z) : list Z :=
  [Z.lor 0xE0 (Z.shiftr c 12);
   Z.lor 0x80 (Z.land (Z.shiftr c 6) 0x3F);
   Z.lor 0x80 (Z.land c 0x3F)].

Definition four (hi lo : Z) : list Z :=
  let cp := 0x10000 + Z.shiftl (hi - 0xD800) 10 + (lo - 0xDC00) in
  [Z.lor 0xF0 (Z.shiftr cp 18);
   Z.lor 0x80 (Z.land (Z.shiftr cp 12) 0x3F);
   Z.lor 0x80 (Z.land (Z.shiftr cp 6) 0x3F);
   Z.lor 0x80 (Z.land cp 0x3F)].

Fixpoint encode (s : jsstring) : list Z :=
  match s with
  | [] => []
  | c :: rest =>
      if c <? 0x80 then c :: encode rest
      else if c <? 0x800 then
        Z.lor 0xC0 (Z.shiftr c 6) :: Z.lor 0x80 (Z.land c 0x3F) :: encode rest
      else if is_high c then
        match rest with
        | d :: rest' =>
            if is_low d then four c d ++ encode rest'
            else replacement ++ encode rest
        | [] => replacement
        end
      else if is_low c then replacement ++ encode rest
      else three c ++ encode rest
  end.

End TextEncoder.

(** [parseInt(s, 16)]; [None] is [NaN].  The value is exact (a double is,
    below 2^53). *)
Module ParseInt.

Definition is_space (c : Z) : bool :=
  ((9 <=? c) && (c <=? 13)) || (c =? 32) || (c =? 0xA0) || (c =? 0x1680) ||
  ((0x2000 <=? c) && (c <=? 0x200A)) || (c =? 0x2028) || (c =? 0x2029) ||
  (c =? 0x202F) || (c =? 0x205F) || (c =? 0x3000) || (c =? 0xFEFF).

Fixpoint trim (s : jsstring) : jsstring :=
  match s with
  | c :: s' => if is_space c then trim s' else s
  | [] => []
  end.

Definition hex_digit (c : Z) : option Z :=
  if (48 <=? c) && (c <=? 57) then Some (c - 48)
  else if (65 <=? c) && (c <=? 70) then Some (c - 55)
  else if (97 <=? c) && (c <=? 102) then Some (c - 87)
  else None.

(** The longest run of digits, most significant first. *)
Fixpoint digits (s : jsstring) (acc : option Z) : option Z :=
  match s with
  | c :: s' =>
      match hex_digit c with
      | Some d => digits s' (Some (16 * default 0 acc + d))
      | None => acc
      end
  | [] => acc
  end.

Definition strip_0x (s : jsstring) : jsstring :=
  match s with
  | 48 :: (120 | 88) :: s' => s'
  | _ => s
  end.

Definition hex (s : jsstring) : option Z :=
  match trim s with
  | 45 :: s' => Z.opp <$> digits (strip_0x s') None
  | 43 :: s' => digits (strip_0x s') None
  | s' => digits (strip_0x s') None
  end.

End ParseInt.

(** Storing a number into a [Uint8Array]: [NaN] becomes 0, an integer is
    reduced modulo 256. *)
Definition toUint8 (v : option Z) : Z := default 0 v mod 256.

(** ** Bulk token metadata: [AIModel.tokenInfo] *)

(** The tokenizer of the pipeline. *)
Record Tokenizer := {
  getVocabSize : Z;
  tok_encode : jsstring -> list Z;
  tok_decode : list Z -> jsstring;
  idToToken : Z -> jsstring
}.

(** [const TOKENIZER_PREFIX = "\x02";] *)
Definition TOKENIZER_PREFIX : jsstring := [2].

Definition REPLACEMENT_CHARACTER : jsstring := [0xFFFD].

Section TokenInfo.

Variable tok : Tokenizer.

Definition isSpecialToken (s : jsstring) : bool :=
  JsString.eqb s (lit "<s>") ||
  JsString.eqb s (lit "</s>") ||
  JsString.eqb s (lit "<pad>") ||
  JsString.eqb s (lit "<unk>") ||
  (JsString.startsWith s (lit "<|") && JsString.endsWith s (lit "|>")).

(** [pref[pref.length - 1]], as [Int32Array.from] will read it
    ([undefined] becomes 0). *)
Definition tokPref : Z := List.last (tok_encode tok TOKENIZER_PREFIX) 0.

(** [tok.decode(Int32Array.from([tokPref, i])).slice(1)] *)
Definition decoded (i : Z) : jsstring :=
  JsString.slice 1 (tok_decode tok [Int32.toInt32 tokPref; Int32.toInt32 i]).

(** The body of the loop up to the length test: [isSpecial] and [bytes]. *)
Definition token_entry (i : Z) : result (bool * list Z) :=
  let s := decoded i in
  if JsString.includes s REPLACEMENT_CHARACTER then
    let id := idToToken tok i in
    if JsString.startsWith id (lit "<0x") then
      Ok (false, [toUint8 (ParseInt.hex (JsString.slice 3 id))])
    else if JsString.eqb id s then
      Ok (false, TextEncoder.encode s)
    else Throw (InvalidToken i)
  else
    Ok (isSpecialToken s, TextEncoder.encode s).

(** The loop, from the ids still to visit and [encodedTokenizer] so far. *)
Fixpoint tokenInfo_loop (ids : list Z) (encodedTokenizer : list Z) : result (list Z) :=
  match ids with
  | [] => Ok encodedTokenizer
  | i :: rest =>
      match token_entry i with
      | Throw e => Throw e
      | Ok (isSpecial, bytes) =>
          if (0xff <? length bytes)%nat then Throw (TokenTooLong i)
          else
            tokenInfo_loop rest
              (encodedTokenizer ++
                 (if isSpecial then 0x40 else 0) :: Z.of_nat (length bytes) :: bytes)
      end
  end.

(** The values [i] takes in [for (let i = 0; i < nVocab; i++)]. *)
Definition vocab_ids : list Z := map Z.of_nat (seq 0 (Z.to_nat (getVocabSize tok))).

Definition tokenInfo : result (list Z) :=
  match tokenInfo_loop vocab_ids [] with
  | Ok encodedTokenizer => Ok (map (fun b => toUint8 (Some b)) encodedTokenizer)
  | Throw e => Throw e
  end.

End TokenInfo.

(** ** Views of the probability loops over the reals *)

(** What the mask leaves and what it takes away, by index. *)
Fixpoint allowed_vals (mask : option Uint32Array) (i : nat) (rs : list R) : list R :=
  match rs with
  | [] => []
  | r :: rest =>
      if masked_out mask i then allowed_vals mask (S i) rest
      else r :: allowed_vals mask (S i) rest
  end.


Definition Rsum (l : list R) : R := fold_right Rplus 0%R l.

Definition list_max (a : R) (vs : list R) : R := fold_left Rmax vs a.




(** ** A small engine to run the definitions on

    Logits buffers are lists of integers, the pipeline state is the filled
    length of the KV cache; a prefill leaves 3 positions filled. *)
Definition demo_engine : Engine xreal (list Z) Z := {|
  context_window_size := 2048;
  toArray nd := Float32Array (map (fun z => Fin (IZR z)) nd);
  filledKVCacheLength p := p;
  prefill _ _ := (Some (Some [0; 0; 0; 0; 0]), 3);
  forwardTokens ts p := (Some (ts ++ [0; 0; 0; 0; 0]), p + Z.of_nat (length ts));
  sampleTokenFromLogits _ _ _ p := (Some 4, p)
|}.

(** The world after the calls [cs] on a new engine. *)
Definition demo_run (cs : list (Call xreal)) : World (list Z) Z :=
  @execs xreal (list Z) Z xreal_JsNum demo_engine cs (init_world 0).

(** ** The token-metadata format, read back *)




(** One id is written well: its entry is computed and fits a length byte. *)
Definition written (tok : Tokenizer) (i : Z) (e : bool * list Z) : Prop :=
  token_entry tok i = Ok e /\ (length (snd e) <= 255)%nat.



(** ** A small tokenizer: a letter, a special token, a raw byte, and a token
    whose text is [<|], U+FFFD, [|>] *)
Definition demo_text (i : Z) : jsstring :=
  match i with
  | 0 => lit "a"
  | 1 => lit "<|eot|>"
  | 2 => [0xFFFD]
  | 3 => lit "<|" ++ [0xFFFD] ++ lit "|>"
  | _ => []
  end.

Definition demo_name (i : Z) : jsstring :=
  match i with
  | 2 => lit "<0x80>"
  | _ => demo_text i
  end.

Definition demo_tokenizer (nVocab : Z) : Tokenizer := {|
  getVocabSize := nVocab;
  tok_encode s := 7 :: s;
  tok_decode ids := match ids with [_; i] => 2 :: demo_text i | _ => [] end;
  idToToken := demo_name
|}.

(** A tokenizer whose only token is 256 letters long. *)
Definition long_tokenizer : Tokenizer := {|
  getVocabSize := 1;
  tok_encode s := 7 :: s;
  tok_decode ids := 2 :: repeat 97 256;
  idToToken _ := repeat 97 256
|}.

(** ** The tokenizer methods of [MlcAIModel] *)

(** The fields of an [MlcAIModel]; [None] is [undefined]. *)
Record MlcAIModel := {
  tokPrefix : option (list Z);
  tokPrefix0 : option Z
}.

(** [new MlcAIModel(engine)]: [tokPrefix] is not set, [tokPrefix0 = 0]. *)
Definition createAIModel : MlcAIModel := {| tokPrefix := None; tokPrefix0 := Some 0 |}.

(** [allowSpecial] of [AITokenizationOptions]; [None] is a missing field
    or missing options. *)
Definition AITokenizationOptions := option bool.

Section ModelTokenizer.

Variable tok : Tokenizer.

(** [getTokPrefix]: what it returns and the model as it then is.  An
    [Int32Array] is an object, so [!this.tokPrefix] tests for [undefined];
    the last element of an empty array is [undefined]. *)
Definition getTokPrefix (this : MlcAIModel) : list Z * MlcAIModel :=
  match tokPrefix this with
  | None =>
      let p := tok_encode tok TOKENIZER_PREFIX in
      (p, {| tokPrefix := Some p; tokPrefix0 := last p |})
  | Some p => (p, this)
  end.

(** The body of [tokenBytes] from the decoded text [s] on. *)
Definition bytes_of_text (s : jsstring) (tokenId : Z) : result (list Z) :=
  if isSpecialToken s then Ok []
  else if JsString.includes s REPLACEMENT_CHARACTER then
    let id := idToToken tok tokenId in
    if JsString.startsWith id (lit "<0x") then
      Ok [toUint8 (ParseInt.hex (JsString.slice 3 id))]
    else if JsString.eqb id s then Ok (TextEncoder.encode s)
    else Throw (InvalidToken tokenId)
  else Ok (TextEncoder.encode s).

(** [tok.decode(Int32Array.from([this.tokPrefix0, tokenId])).slice(1)];
    [Int32Array.from] reads [undefined] as 0. *)
Definition decoded_with (tokPrefix0 : option Z) (tokenId : Z) : jsstring :=
  JsString.slice 1
    (tok_decode tok [Int32.toInt32 (default 0 tokPrefix0); Int32.toInt32 tokenId]).

Definition tokenBytes (this : MlcAIModel) (tokenId : Z) : result (list Z) * MlcAIModel :=
  let this' := snd (getTokPrefix this) in
  (bytes_of_text (decoded_with (tokPrefix0 this') tokenId) tokenId, this').

(** [r[i] != this.tokPrefix[i]], either side [undefined] past the end. *)
Definition differ (x y : option Z) : bool :=
  match x, y with
  | Some a, Some b => negb (a =? b)
  | None, None => false
  | _, _ => true
  end.

(** The loop of [tokenizeExact] from [i] on, [n] indices to go: [true]
    when it runs through without throwing. *)
Fixpoint prefix_loop (r p : list Z) (i n : nat) : bool :=
  match n with
  | O => true
  | S n' => if differ (r !! i) (p !! i) then false else prefix_loop r p (S i) n'
  end.

(** [tokenizeExact]; [None]: it throws "Tokenizer prefix mismatch". *)
Definition tokenizeExact (this : MlcAIModel) (text : jsstring)
    (options : AITokenizationOptions) : option (list Z) * MlcAIModel :=
  let this' :=
    match tokPrefix this with
    | None => {| tokPrefix := Some (tok_encode tok TOKENIZER_PREFIX);
                 tokPrefix0 := tokPrefix0 this |}
    | Some _ => this
    end in
  let p := default [] (tokPrefix this') in
  let r := tok_encode tok (TOKENIZER_PREFIX ++ text) in
  (if prefix_loop r p 0 (length p) then Some (drop (length p) r) else None, this').

End ModelTokenizer.

(** ** The example [genText] of the interface file *)

Section GenText.

Context {F NDArray Pipeline : Type} `{JsNum F} `{Engine F NDArray Pipeline}.

(** The tokenizer of the pipeline and its [stopTokens]. *)
Variable tok : Tokenizer.
Variable stopTokens : Pipeline -> list Z.

(** [new TextDecoder()], [decoder.decode(bytes, {stream: true})] and
    [decoder.decode()]: a string comes out and the decoder is in a new
    state. *)
Context {TextDecoder : Type}.
Variable new_TextDecoder : TextDecoder.
Variable decode_stream : list Z -> TextDecoder -> jsstring * TextDecoder.
Variable decode_end : TextDecoder -> jsstring * TextDecoder.

(** [MlcAIModel.eosToken]: [pipeline.stopTokens[0]], [undefined] for an
    empty array. *)
Definition eosToken (w : World NDArray Pipeline) : option Z :=
  stopTokens (pipeline w) !! 0%nat.

(** [token === tokenizer.eosToken] *)
Definition is_eos (token : Z) (w : World NDArray Pipeline) : bool :=
  match eosToken w with
  | Some e => token =? e
  | None => false
  end.

(** The loop [for (let i = 0; i < maxTokens; i++)], [n] rounds to go.  The
    tokenizer is an [MlcAIModel], the sequence an [MlcAiSequence]; what
    comes out is [output] and the decoder, or what was thrown, and the
    model and the world as they then are. *)
Fixpoint genText_loop (n : nat) (sequence : nat) (decoder : TextDecoder)
    (output : jsstring) (tokenizer : MlcAIModel) (w : World NDArray Pipeline)
  : result (jsstring * TextDecoder) * MlcAIModel * World NDArray Pipeline :=
  match n with
  | O => (Ok (output, decoder), tokenizer, w)
  | S n' =>
      match sample sequence None None w with
      | (Throw e, w1) => (Throw e, tokenizer, w1)
      | (Ok token, w1) =>
          if is_eos token w1 then (Ok (output, decoder), tokenizer, w1)
          else
            match advance sequence [token] 0 w1 with
            | (Throw e, w2) => (Throw e, tokenizer, w2)
            | (Ok _, w2) =>
                match tokenBytes tok tokenizer token with
                | (Throw e, tokenizer') => (Throw e, tokenizer', w2)
                | (Ok bytes, tokenizer') =>
                    let (s, decoder') := decode_stream bytes decoder in
                    genText_loop n' sequence decoder' (output ++ s) tokenizer' w2
                end
            end
      end
  end.

(** [genText(tokenizer, sequence, maxTokens)], [maxTokens] a natural
    number. *)
Definition genText (tokenizer : MlcAIModel) (sequence : nat) (maxTokens : nat)
    (w : World NDArray Pipeline)
  : result jsstring * MlcAIModel * World NDArray Pipeline :=
  match genText_loop maxTokens sequence new_TextDecoder [] tokenizer w with
  | (Throw e, tokenizer', w1) => (Throw e, tokenizer', w1)
  | (Ok (output, decoder), tokenizer', w1) =>
      let (s, _) := decode_end decoder in
      match destroy sequence w1 with
      | (Throw e, w2) => (Throw e, tokenizer', w2)
      | (Ok _, w2) => (Ok (output ++ s), tokenizer', w2)
      end
  end.

(** What a decoder makes of chunks of bytes streamed one after the other. *)
Fixpoint decode_chunks (chunks : list (list Z)) (decoder : TextDecoder)
  : jsstring * TextDecoder :=
  match chunks with
  | [] => ([], decoder)
  | bytes :: rest =>
      let (s, decoder') := decode_stream bytes decoder in
      let (s', decoder'') := decode_chunks rest decoder' in
      (s ++ s', decoder'')
  end.

End GenText.

(** A tokenizer whose decoding depends on the token in front: the
    character [\x02] is token 2, and a text follows [\x02] after token 2
    and [<unk>] after any other token. *)
Definition prefix_tokenizer : Tokenizer := {|
  getVocabSize := 4;
  tok_encode s := 7 :: s;
  tok_decode ids :=
    match ids with
    | [p; i] => (if p =? 2 then [2] else lit "<unk>") ++ demo_text i
    | _ => []
    end;
  idToToken := demo_name
|}.

(** The small tokenizer with the name of token 3 changed: its text holds
    U+FFFD and differs from its name. *)
Definition misnamed_tokenizer : Tokenizer := {|
  getVocabSize := 4;
  tok_encode s := 7 :: s;
  tok_decode := tok_decode (demo_tokenizer 4);
  idToToken i := if i =? 3 then lit "x" else demo_name i
|}.

(** [tokenInfo] stops at the id [i], the ids before it written, with [e]:
    the loop body throws "Invalid token" there, or the bytes of [i] are
    more than 255. *)
Definition fails_at (tok : Tokenizer) (ids : list Z) (i : Z) (e : Error) : Prop :=
  exists done rest entries,
    ids = done ++ i :: rest
    /\ Forall2 (written tok) done entries
    /\ ((e = InvalidToken i /\ token_entry tok i = Throw (InvalidToken i))
        \/ (e = TokenTooLong i
            /\ exists isSpecial bytes,
                 token_entry tok i = Ok (isSpecial, bytes) /\ (255 < length bytes)%nat)).

(** An engine whose answers are set by hand: the prompt length it reports,
    what its prefill resolves to, and whether its forward pass resolves. *)
Definition scripted_engine (kv : Z) (pre : option (option (list Z))) (fwd : bool)
  : Engine xreal (list Z) Z := {|
  context_window_size := 8;
  toArray nd := Float32Array (map (fun z => Fin (IZR z)) nd);
  filledKVCacheLength p := kv;
  prefill _ p := (pre, p + 1);
  forwardTokens ts p := (if fwd then Some ts else None, p + 1);
  sampleTokenFromLogits _ _ _ p := (Some 0, p)
|}.

(** The pipeline reports a prompt length of 0. *)
Definition zero_prompt_engine : Engine xreal (list Z) Z :=
  scripted_engine 0 (Some (Some [5])) true.

(** The prefill resolves to [undefined]. *)
Definition no_logits_engine : Engine xreal (list Z) Z :=
  scripted_engine 3 (Some None) true.

(** The forward pass rejects. *)
Definition rejecting_engine : Engine xreal (list Z) Z :=
  scripted_engine 3 (Some (Some [5])) false.

(** Nothing fails. *)
Definition steady_engine : Engine xreal (list Z) Z :=
  scripted_engine 3 (Some (Some [5])) true.

(** Stop tokens that make token 0 the end once the pipeline has run three
    times. *)
Definition late_stopTokens (p : Z) : list Z := if 3 <=? p then [0] else [].

(** A decoder without state: every byte is a code unit. *)
Definition bytes_as_text (bytes : list Z) (d : unit) : jsstring * unit := (bytes, d).

Definition no_flush (d : unit) : jsstring * unit := ([], d).

(** * Properties *)

(** ** Sampling masks *)

Section Masks.

Lemma toInt32_mod z : Int32.toInt32 z mod 2 ^ 32 = z mod 2 ^ 32.
Proof. unfold Int32.toInt32. change (2 ^ 32) with 4294967296. change (2 ^ 31) with 2147483648.
  Z.div_mod_to_equations. lia. Qed.

Lemma toInt32_zero z : Int32.toInt32 z = 0 <-> z mod 2 ^ 32 = 0.
Proof. unfold Int32.toInt32. change (2 ^ 32) with 4294967296. change (2 ^ 31) with 2147483648.
  Z.div_mod_to_equations. lia. Qed.

Lemma toInt32_small z : - 2 ^ 31 <= z < 2 ^ 31 -> Int32.toInt32 z = z.
Proof. unfold Int32.toInt32. change (2 ^ 32) with 4294967296. change (2 ^ 31) with 2147483648.
  intros Hz. Z.div_mod_to_equations. lia. Qed.

Lemma toInt32_testbit z k : 0 <= k < 32 -> Z.testbit (Int32.toInt32 z) k = Z.testbit z k.
Proof.
  intros Hk. rewrite <- (Z.mod_pow2_bits_low (Int32.toInt32 z) 32 k) by lia.
  rewrite toInt32_mod. apply Z.mod_pow2_bits_low. lia.
Qed.

(** [x & (1 << k)] is non-zero exactly when bit [k] of [x] is set. *)
Lemma and_shl_testbit x k :
  0 <= k < 32 -> negb (Int32.and x (Int32.shl 1 k) =? 0) = Z.testbit x k.
Proof.
  intros Hk. unfold Int32.and, Int32.shl, Int32.toUint32.
  rewrite (toInt32_small 1) by (change (2 ^ 31) with 2147483648; lia).
  rewrite (Z.mod_small k (2 ^ 32)) by (change (2 ^ 32) with 4294967296; lia).
  rewrite (Z.mod_small k 32) by lia.
  rewrite Z.shiftl_1_l.
  set (A := Int32.toInt32 x). set (B := Int32.toInt32 (Int32.toInt32 (2 ^ k))).
  assert (HB : forall j, 0 <= j < 32 -> Z.testbit B j = (j =? k)).
  { intros j Hj. subst B. rewrite !toInt32_testbit by exact Hj.
    rewrite Z.pow2_bits_eqb by lia. apply Z.eqb_sym. }
  assert (HA : Z.testbit A k = Z.testbit x k) by (apply toInt32_testbit; exact Hk).
  destruct (Z.testbit x k) eqn:Hx.
  - apply negb_true_iff, Z.eqb_neq. intros E. apply toInt32_zero in E.
    assert (Hbit : Z.testbit (Z.land A B mod 2 ^ 32) k = true).
    { rewrite Z.mod_pow2_bits_low by lia. rewrite Z.land_spec, HA, HB by lia.
      rewrite Z.eqb_refl. reflexivity. }
    rewrite E, Z.bits_0 in Hbit. discriminate.
  - apply negb_false_iff, Z.eqb_eq, toInt32_zero.
    apply Z.bits_inj'. intros j Hj. rewrite Z.bits_0.
    destruct (Z.lt_ge_cases j 32) as [Hlt|Hge].
    + rewrite Z.mod_pow2_bits_low by lia. rewrite Z.land_spec, HB by lia.
      destruct (j =? k) eqn:Ejk; [|apply andb_false_r].
      apply Z.eqb_eq in Ejk. subst j. rewrite HA. reflexivity.
    + apply Z.mod_pow2_bits_high. lia.
Qed.

(** [isAllowed] reads bit [i mod 32] of word [i / 32], as the interface
    documents ([samplingMask[N >> 5] & (1 << (N & 31)) != 0]); a word past
    the end of the mask counts as 0. *)
Lemma isAllowed_testbit (mask : Uint32Array) (i : Z) :
  0 <= i < 2 ^ 32 ->
  isAllowed mask i = Z.testbit (nth (Z.to_nat (i / 32)) mask 0) (i mod 32).
Proof.
  intros Hi. change (2 ^ 32) with 4294967296 in Hi. unfold isAllowed.
  assert (Hk : Int32.and i 31 = i mod 32).
  { unfold Int32.and. rewrite (toInt32_small 31) by (change (2 ^ 31) with 2147483648; lia).
    change 31 with (Z.ones 5). rewrite Z.land_ones by lia.
    assert (E : Int32.toInt32 i mod 2 ^ 5 = i mod 32).
    { pose proof (toInt32_mod i) as E. change (2 ^ 32) with 4294967296 in E.
      change (2 ^ 5) with 32. Z.div_mod_to_equations. lia. }
    rewrite E. apply toInt32_small. change (2 ^ 31) with 2147483648.
    pose proof (Z.mod_pos_bound i 32 ltac:(lia)). lia. }
  assert (Hw : Int32.shru i 5 = i / 32).
  { unfold Int32.shru, Int32.toUint32. change (2 ^ 32) with 4294967296.
    rewrite (Z.mod_small i) by lia. rewrite (Z.mod_small 5 4294967296) by lia.
    change (5 mod 32) with 5. rewrite Z.shiftr_div_pow2 by lia. reflexivity. }
  rewrite Hk, Hw. rewrite and_shl_testbit by (apply Z.mod_pos_bound; lia).
  unfold word_at. destruct (i / 32 <? 0) eqn:E; [|reflexivity].
  apply Z.ltb_lt in E. pose proof (Z.div_pos i 32 ltac:(lia) ltac:(lia)). lia.
Qed.

End Masks.

(** ** Probability utilities *)

Section GenericProbability.

Context {F : Type} `{JsNum F}.

Lemma surprise_sums_fst mask i l max s sm :
  fst (surprise_sums mask i l max s sm) =
  fold_left (fun sum x => num_add sum (num_exp (num_sub x max))) l s.
Proof.
  revert i s sm. induction l as [|x l IH]; intros i s sm; simpl; [reflexivity|].
  apply IH.
Qed.

Lemma surprise_sums_unmasked mask i l max s sm :
  (forall j, (j < length l)%nat -> masked_out mask (i + j) = false) ->
  snd (surprise_sums mask i l max s sm) = sm.
Proof.
  revert i s sm. induction l as [|x l IH]; intros i s sm Hall; simpl; [reflexivity|].
  pose proof (Hall 0%nat ltac:(simpl; lia)) as H0.
  rewrite Nat.add_0_r in H0. rewrite H0.
  apply IH. intros j Hj. replace (S i + j)%nat with (i + S j)%nat by lia.
  apply Hall. simpl. lia.
Qed.

(** Whatever the arithmetic: when the mask excludes nothing, [surprise]
    divides by the [0] that [sumMasked] was initialised with. *)
Lemma surprise_nothing_excluded (l : list F) (mask : option Uint32Array) :
  (forall j, (j < length l)%nat -> masked_out mask j = false) ->
  surprise l mask = num_div (sum_exp l (surprise_max l)) num_zero.
Proof.
  intros Hall. unfold surprise.
  pose proof (surprise_sums_fst mask 0 l (surprise_max l) num_zero num_zero) as Hf.
  pose proof (surprise_sums_unmasked mask 0 l (surprise_max l) num_zero num_zero Hall) as Hs.
  destruct (surprise_sums mask 0 l (surprise_max l) num_zero num_zero) as [a b].
  simpl in Hf, Hs. subst. reflexivity.
Qed.

End GenericProbability.

Section RealProbability.

Local Open Scope R_scope.


Lemma Rsum_app l1 l2 : Rsum (l1 ++ l2) = Rsum l1 + Rsum l2.
Proof. induction l1 as [|x l1 IH]; simpl; [lra|]. rewrite IH. lra. Qed.





Lemma list_max_ge a vs : a <= list_max a vs.
Proof.
  unfold list_max. revert a. induction vs as [|v vs IH]; intros a; simpl; [lra|].
  eapply Rle_trans; [apply (Rmax_l a v)|apply IH].
Qed.

(** [list_max a vs] is the greatest element of [a :: vs]. *)
Lemma list_max_spec a vs :
  In (list_max a vs) (a :: vs) /\ forall v, In v (a :: vs) -> v <= list_max a vs.
Proof.
  unfold list_max. revert a. induction vs as [|v vs IH]; intros a.
  - simpl. split; [auto|]. intros v' [->|[]]. lra.
  - cbn [fold_left]. destruct (IH (Rmax a v)) as [Hin Hub]. split.
    + destruct Hin as [Hin|Hin]; [|right; right; exact Hin].
      rewrite <- Hin. unfold Rmax. destruct (Rle_dec a v); [right; left|left]; reflexivity.
    + intros v' [->|[->|Hv]].
      * eapply Rle_trans; [apply (Rmax_l v' v)|]. apply Hub. left. reflexivity.
      * eapply Rle_trans; [apply (Rmax_r a v')|]. apply Hub. left. reflexivity.
      * apply Hub. right. exact Hv.
Qed.

(** *** [surprise] over the extended reals *)





End RealProbability.

Section RealProbabilityTheorems.

Local Open Scope R_scope.



(** *** [logProbs] over the extended reals *)

(** Without a mask every logit is allowed. *)
Lemma allowed_vals_None i rs : allowed_vals None i rs = rs.
Proof.
  revert i. induction rs as [|r rs IH]; intros i; [reflexivity|].
  cbn [allowed_vals masked_out]. rewrite IH. reflexivity.
Qed.









End RealProbabilityTheorems.

Section RealProbabilityClaims.

Local Open Scope R_scope.






End RealProbabilityClaims.

(** ** Sessions *)

(** *** [splice(-backtrack, backtrack)] removes the last [backtrack] elements *)

Lemma splice_backtrack {A} (backtrack : Z) (v : list A) :
  0 < backtrack ->
  splice (- backtrack) backtrack v = firstn (length v - Z.to_nat backtrack) v.
Proof.
  intros Hb. unfold splice.
  assert (En : (- backtrack <? 0) = true) by (apply Z.ltb_lt; lia). rewrite En.
  destruct (Z.le_gt_cases (Z.of_nat (length v)) backtrack) as [Hge|Hlt].
  - rewrite Z.max_r by lia. rewrite Z.sub_0_r.
    rewrite (Z.max_l backtrack 0) by lia. rewrite Z.min_r by lia.
    replace (Z.to_nat (0 + Z.of_nat (length v))) with (length v) by lia.
    replace (length v - Z.to_nat backtrack)%nat with 0%nat by lia.
    change (Z.to_nat 0) with 0%nat. cbn [firstn app]. apply skipn_all.
  - rewrite Z.max_l by lia. rewrite (Z.max_l backtrack 0) by lia.
    rewrite Z.min_l by lia.
    replace (Z.to_nat (Z.of_nat (length v) + - backtrack + backtrack)) with (length v) by lia.
    rewrite skipn_all, app_nil_r. f_equal. lia.
Qed.

Section SessionProperties.

Context {F NDArray Pipeline : Type} `{JsNum F} `{Engine F NDArray Pipeline}.

Local Abbreviation World := (World NDArray Pipeline).
Local Abbreviation M := (M NDArray Pipeline).
Local Abbreviation frame := (@frame NDArray Pipeline).
Local Abbreviation benign := (@benign NDArray Pipeline).
Local Abbreviation keeps_claim := (@keeps_claim NDArray Pipeline).
Local Abbreviation keeps_logits := (@keeps_logits NDArray Pipeline).

(** Unfold the monad down to functions on worlds. *)
Ltac unmonad :=
  unfold mbind, M_bind, mret, M_ret, throw, get, modify in *.

Lemma bind_Ok {A B} (m : M A) (f : A -> M B) w a w' :
  m w = (Ok a, w') -> (m ≫= f) w = f a w'.
Proof. intros E. unmonad. rewrite E. reflexivity. Qed.

Lemma bind_Throw {A B} (m : M A) (f : A -> M B) w e w' :
  m w = (Throw e, w') -> (m ≫= f) w = (Throw e, w').
Proof. intros E. unmonad. rewrite E. reflexivity. Qed.

Lemma getSeq_Some this s (w : World) :
  seqs w !! this = Some s -> getSeq this w = (Ok s, w).
Proof. intros E. unfold getSeq. rewrite E. reflexivity. Qed.

Lemma getSeq_None this (w : World) :
  seqs w !! this = None -> getSeq this w = (Throw DanglingReference, w).
Proof. intros E. unfold getSeq. rewrite E. reflexivity. Qed.

(** *** Running the pieces *)

Lemma updSeq_Some this s f (w : World) :
  seqs w !! this = Some s ->
  updSeq this f w = (Ok (), with_seqs (fun l => <[this := f s]> l) w).
Proof. intros E. unfold updSeq. rewrite (bind_Ok _ _ _ _ _ (getSeq_Some _ _ _ E)). reflexivity. Qed.

Lemma updArray_Some a v f (w : World) :
  arrays w !! a = Some v ->
  updArray a f w = (Ok (), with_arrays (fun l => <[a := f v]> l) w).
Proof. intros E. unfold updArray, getArray. unmonad. rewrite E. reflexivity. Qed.

Lemma updArray_None a f (w : World) :
  arrays w !! a = None -> updArray a f w = (Throw DanglingReference, w).
Proof. intros E. unfold updArray, getArray. unmonad. rewrite E. reflexivity. Qed.

Lemma disposeLogits_Some this s (w : World) :
  seqs w !! this = Some s ->
  disposeLogits this w = (Ok (), dispose_opt (_logits s) w).
Proof.
  intros E. unfold disposeLogits. rewrite (bind_Ok _ _ _ _ _ (getSeq_Some _ _ _ E)).
  destruct (_logits s); reflexivity.
Qed.

Lemma advance_prefill_active this s (w : World) :
  _promptSize s <> 0 -> _window_ai_seq w = Some this ->
  advance_prefill this s w = (Ok (), w).
Proof.
  intros Hp Hc. unfold advance_prefill. apply Z.eqb_neq in Hp. rewrite Hp.
  unmonad. destruct (decide (_window_ai_seq w = Some this)); [reflexivity|contradiction].
Qed.

Lemma advance_prefill_displaced this s (w : World) :
  _promptSize s <> 0 -> _window_ai_seq w <> Some this ->
  advance_prefill this s w = (Throw CannotAdvanceDifferent, w).
Proof.
  intros Hp Hc. unfold advance_prefill. apply Z.eqb_neq in Hp. rewrite Hp.
  unmonad. destruct (decide (_window_ai_seq w = Some this)); [contradiction|reflexivity].
Qed.

Lemma advance_backtrack_none s backtrack (w : World) :
  backtrack <= 0 -> advance_backtrack s backtrack w = (Ok (), w).
Proof.
  intros Hb. unfold advance_backtrack.
  destruct (0 <? backtrack) eqn:E; [apply Z.ltb_lt in E; lia|reflexivity].
Qed.

Lemma advance_backtrack_some s backtrack v (w : World) :
  0 < backtrack -> arrays w !! _tokens s = Some v ->
  advance_backtrack s backtrack w =
  (Throw BacktrackingNotImplemented,
   with_arrays (fun l => <[_tokens s := splice (- backtrack) backtrack v]> l) w).
Proof.
  intros Hb Hv. unfold advance_backtrack. apply Z.ltb_lt in Hb. rewrite Hb.
  rewrite (bind_Ok _ _ _ _ _ (updArray_Some _ _ _ _ Hv)). reflexivity.
Qed.

Lemma advance_append_nil this s (w : World) : advance_append this s [] w = (Ok (), w).
Proof. reflexivity. Qed.

Lemma advance_append_cons this s0 s v appendTokens nd p (w : World) :
  appendTokens <> [] ->
  seqs w !! this = Some s -> _tokens s0 = _tokens s ->
  arrays w !! _tokens s = Some v ->
  forwardTokens appendTokens (pipeline w) = (Some nd, p) ->
  advance_append this s0 appendTokens w = (Ok (), appended this s v appendTokens nd p w).
Proof.
  intros Hne Hs Ht Hv Hf. unfold advance_append.
  destruct appendTokens as [|t ts]; [congruence|]. cbn [length Nat.ltb Nat.leb].
  rewrite Ht.
  rewrite (bind_Ok _ _ _ _ _ (updArray_Some _ _ _ _ Hv)).
  erewrite bind_Ok; [|apply disposeLogits_Some; exact Hs].
  unfold await at 1, appended. unmonad.
  destruct (_logits s) as [old|]; cbn [dispose_opt with_disposed with_arrays pipeline];
    rewrite Hf; cbn; unfold updSeq, getSeq; unmonad; cbn; rewrite Hs; reflexivity.
Qed.

(** An active sequence that holds the claim: [advance([], 0)] changes nothing. *)
Lemma advance_noop this s (w : World) :
  seqs w !! this = Some s -> _promptSize s <> 0 -> _window_ai_seq w = Some this ->
  advance this [] 0 w = (Ok (), w).
Proof.
  intros Hs Hp Hc. unfold advance.
  rewrite (bind_Ok _ _ _ _ _ (getSeq_Some _ _ _ Hs)).
  rewrite (bind_Ok _ _ _ _ _ (advance_prefill_active _ _ _ Hp Hc)).
  reflexivity.
Qed.

(** A primed sequence that does not hold the claim: [advance] throws before
    it touches anything. *)
Lemma advance_displaced this s (w : World) appendTokens backtrack :
  seqs w !! this = Some s -> _promptSize s <> 0 -> _window_ai_seq w <> Some this ->
  advance this appendTokens backtrack w = (Throw CannotAdvanceDifferent, w).
Proof.
  intros Hs Hp Hc. unfold advance.
  rewrite (bind_Ok _ _ _ _ _ (getSeq_Some _ _ _ Hs)).
  rewrite (bind_Throw _ _ _ _ _ (advance_prefill_displaced _ _ _ Hp Hc)).
  reflexivity.
Qed.

(** An active sequence that holds the claim, [backtrack > 0]. *)
Lemma advance_backtrack_active this s v (w : World) appendTokens backtrack :
  seqs w !! this = Some s -> _promptSize s <> 0 -> _window_ai_seq w = Some this ->
  arrays w !! _tokens s = Some v -> 0 < backtrack ->
  advance this appendTokens backtrack w =
  (Throw BacktrackingNotImplemented,
   with_arrays (fun l => <[_tokens s := splice (- backtrack) backtrack v]> l) w).
Proof.
  intros Hs Hp Hc Hv Hb. unfold advance.
  rewrite (bind_Ok _ _ _ _ _ (getSeq_Some _ _ _ Hs)).
  rewrite (bind_Ok _ _ _ _ _ (advance_prefill_active _ _ _ Hp Hc)).
  rewrite (bind_Throw _ _ _ _ _ (advance_backtrack_some _ _ _ _ Hb Hv)).
  reflexivity.
Qed.

(** An active sequence that holds the claim, tokens to append, no backtrack. *)
Lemma advance_append_active this s v nd p (w : World) appendTokens backtrack :
  seqs w !! this = Some s -> _promptSize s <> 0 -> _window_ai_seq w = Some this ->
  arrays w !! _tokens s = Some v -> backtrack <= 0 -> appendTokens <> [] ->
  forwardTokens appendTokens (pipeline w) = (Some nd, p) ->
  advance this appendTokens backtrack w = (Ok (), appended this s v appendTokens nd p w).
Proof.
  intros Hs Hp Hc Hv Hb Hne Hf. unfold advance.
  rewrite (bind_Ok _ _ _ _ _ (getSeq_Some _ _ _ Hs)).
  rewrite (bind_Ok _ _ _ _ _ (advance_prefill_active _ _ _ Hp Hc)).
  rewrite (bind_Ok _ _ _ _ _ (advance_backtrack_none _ _ _ Hb)).
  apply advance_append_cons; auto.
Qed.

(** *** What a computation may change *)

Section Respects.

Variable R : World -> World -> Prop.
Hypothesis R_refl : Reflexive R.
Hypothesis R_trans : Transitive R.

Lemma respects_ret {A} (a : A) : respects R (mret a).
Proof. intros w. apply R_refl. Qed.

Lemma respects_throw {A} e : respects R (@throw _ _ A e).
Proof. intros w. apply R_refl. Qed.

Lemma respects_get : respects R get.
Proof. intros w. apply R_refl. Qed.

Lemma respects_modify f : (forall w, R w (f w)) -> respects R (modify f).
Proof. intros Hf w. apply Hf. Qed.

Lemma respects_bind {A B} (m : M A) (f : A -> M B) :
  respects R m -> (forall a, respects R (f a)) -> respects R (m ≫= f).
Proof.
  intros Hm Hf w. unmonad. specialize (Hm w).
  destruct (m w) as [[a|e] w1]; simpl in *; [|exact Hm].
  eapply R_trans; [exact Hm|apply Hf].
Qed.

Lemma respects_getSeq this : respects R (getSeq this).
Proof. intros w. unfold getSeq. destruct (seqs w !! this); apply R_refl. Qed.

Lemma respects_getArray a : respects R (getArray a).
Proof. intros w. unfold getArray. destruct (arrays w !! a); apply R_refl. Qed.

Lemma respects_await {A} (call : Pipeline -> option A * Pipeline) :
  (forall w p, R w (with_pipeline p w)) -> respects R (await call).
Proof.
  intros HR w. unfold await. destruct (call (pipeline w)) as [[a|] p]; apply HR.
Qed.

Lemma respects_updSeq this f :
  (forall w s, seqs w !! this = Some s ->
     R w (with_seqs (fun l => <[this := f s]> l) w)) ->
  respects R (updSeq this f).
Proof.
  intros HR w. destruct (seqs w !! this) as [s|] eqn:Hs.
  - rewrite (updSeq_Some _ _ _ _ Hs). apply HR. exact Hs.
  - unfold updSeq. rewrite (bind_Throw _ _ _ _ _ (getSeq_None _ _ Hs)). apply R_refl.
Qed.

Lemma respects_updArray a f :
  (forall w v, arrays w !! a = Some v ->
     R w (with_arrays (fun l => <[a := f v]> l) w)) ->
  respects R (updArray a f).
Proof.
  intros HR w. destruct (arrays w !! a) as [v|] eqn:Hv.
  - rewrite (updArray_Some _ _ _ _ Hv). apply HR. exact Hv.
  - rewrite (updArray_None _ _ _ Hv). apply R_refl.
Qed.

Lemma respects_newArray v :
  (forall w, R w (with_arrays (fun l => l ++ [v]) w)) -> respects R (newArray v).
Proof. intros HR w. apply HR. Qed.

Lemma respects_disposeLogits this :
  (forall w nd, R w (with_disposed (fun d => d ++ [nd]) w)) ->
  respects R (disposeLogits this).
Proof.
  intros HR w. destruct (seqs w !! this) as [s|] eqn:Hs.
  - rewrite (disposeLogits_Some _ _ _ Hs). destruct (_logits s); [apply HR|apply R_refl].
  - unfold disposeLogits. rewrite (bind_Throw _ _ _ _ _ (getSeq_None _ _ Hs)). apply R_refl.
Qed.

End Respects.

(** Break a computation into its steps; what is left is about single
    assignments. *)
Ltac respects_step :=
  lazymatch goal with
  | |- respects _ (mret _) => apply respects_ret; typeclasses eauto
  | |- respects _ (throw _) => apply respects_throw; typeclasses eauto
  | |- respects _ get => apply respects_get; typeclasses eauto
  | |- respects _ (getSeq _) => apply respects_getSeq; typeclasses eauto
  | |- respects _ (getArray _) => apply respects_getArray; typeclasses eauto
  | |- respects _ (updSeq _ _) => apply respects_updSeq; [typeclasses eauto|intros ? ? ?]
  | |- respects _ (updArray _ _) => apply respects_updArray; [typeclasses eauto|intros ? ? ?]
  | |- respects _ (disposeLogits _) =>
      apply respects_disposeLogits; [typeclasses eauto|intros ? ?]
  | |- respects _ (newArray _) => apply respects_newArray; intros ?
  | |- respects _ (await _) => apply respects_await; intros ? ?
  | |- respects _ (modify _) => apply respects_modify; intros ?
  | |- respects _ (_ ≫= _) =>
      apply respects_bind; [typeclasses eauto| |intros ?]
  | |- respects _ (if ?c then _ else _) => destruct c
  | |- respects _ (match ?x with _ => _ end) => destruct x
  end.

Ltac respects_steps := repeat respects_step.

(** *** The footprint of the methods of one sequence *)

#[local] Instance frame_refl this t : Reflexive (frame this t).
Proof. intros w. unfold frame. repeat split; eauto. Qed.

#[local] Instance frame_trans this t : Transitive (frame this t).
Proof.
  intros w1 w2 w3 (L1 & A1 & O1 & T1 & R1 & C1) (L2 & A2 & O2 & T2 & R2 & C2).
  unfold frame. repeat split.
  - congruence.
  - congruence.
  - intros i Hi. rewrite O2, O1 by exact Hi. reflexivity.
  - intros s Hs. destruct (T1 s Hs) as (s1 & Hs1 & E1).
    destruct (T2 s1 Hs1) as (s2 & Hs2 & E2). exists s2. split; [exact Hs2|congruence].
  - intros a Ha. rewrite R2, R1 by exact Ha. reflexivity.
  - intros i Hi Hc. apply C1; [exact Hi|]. apply C2; assumption.
Qed.

Lemma frame_with_seqs this t s s' (w : World) :
  seqs w !! this = Some s -> _tokens s' = _tokens s ->
  frame this t w (with_seqs (fun l => <[this := s']> l) w).
Proof.
  intros Hs Ht. unfold frame; simpl. repeat split; try reflexivity; auto.
  - apply length_insert.
  - intros i Hi. apply list_lookup_insert_ne. congruence.
  - intros s0 Hs0. exists s'. split; [|congruence].
    apply list_lookup_insert_eq. eapply lookup_lt_Some. exact Hs.
Qed.

Lemma frame_with_arrays this t v (w : World) :
  frame this t w (with_arrays (fun l => <[t := v]> l) w).
Proof.
  unfold frame; simpl. repeat split; try reflexivity; eauto.
  - apply length_insert.
  - intros a Ha. apply list_lookup_insert_ne. congruence.
Qed.

Lemma frame_with_disposed this t f (w : World) : frame this t w (with_disposed f w).
Proof. unfold frame; simpl. repeat split; eauto. Qed.

Lemma frame_with_pipeline this t (w : World) p : frame this t w (with_pipeline p w).
Proof. unfold frame; simpl. repeat split; eauto. Qed.

Lemma frame_with_lowLevel this t (w : World) b : frame this t w (with_lowLevel b w).
Proof. unfold frame; simpl. repeat split; eauto. Qed.

Lemma frame_claim this t (w : World) : frame this t w (with_window_ai_seq (Some this) w).
Proof. unfold frame; simpl. repeat split; eauto. intros i Hi E. congruence. Qed.

Lemma frame_unclaim this t (w : World) : frame this t w (with_window_ai_seq None w).
Proof. unfold frame; simpl. repeat split; eauto. intros i Hi E. congruence. Qed.

Create HintDb footprint.
#[local] Hint Resolve frame_with_arrays frame_with_disposed frame_with_pipeline
  frame_with_lowLevel frame_claim frame_unclaim : footprint.
#[local] Hint Extern 1 (frame _ _ _ (with_seqs _ _)) =>
  eapply frame_with_seqs; [eassumption|reflexivity] : footprint.

Lemma frame_advance this t appendTokens backtrack (w : World) s :
  seqs w !! this = Some s -> _tokens s = t ->
  frame this t w (snd (advance this appendTokens backtrack w)).
Proof.
  intros Hs <-. unfold advance.
  rewrite (bind_Ok _ _ _ _ _ (getSeq_Some _ _ _ Hs)).
  unfold advance_prefill, advance_backtrack, advance_append.
  match goal with |- frame _ _ w (snd (?m w)) =>
    cut (respects (frame this (_tokens s)) m); [intros Hr; apply Hr|] end.
  respects_steps; auto with footprint.
Qed.

Lemma frame_destroy this t (w : World) : frame this t w (snd (destroy this w)).
Proof.
  cut (respects (frame this t) (destroy this)); [intros Hr; apply Hr|].
  unfold destroy. respects_steps; auto with footprint.
Qed.

(** *** Methods that only read, allocate or sample *)

#[local] Instance benign_refl : Reflexive benign.
Proof. intros w. unfold benign. repeat split. exists []. symmetry. apply app_nil_r. Qed.

#[local] Instance benign_trans : Transitive benign.
Proof.
  intros w1 w2 w3 (S1 & C1 & l1 & A1) (S2 & C2 & l2 & A2).
  unfold benign. repeat split; try congruence.
  exists (l1 ++ l2). rewrite A2, A1. symmetry. apply app_assoc.
Qed.

Lemma benign_with_pipeline (w : World) p : benign w (with_pipeline p w).
Proof. unfold benign; simpl. repeat split. exists []. symmetry. apply app_nil_r. Qed.

Lemma benign_alloc (w : World) v : benign w (with_arrays (fun l => l ++ [v]) w).
Proof. unfold benign; simpl. repeat split. exists [v]. reflexivity. Qed.

#[local] Hint Resolve benign_with_pipeline benign_alloc : footprint.

Lemma benign_promptSize this : respects benign (promptSize this).
Proof. unfold promptSize. respects_steps. Qed.

Lemma benign_tokensLeft this : respects benign (tokensLeft this).
Proof. unfold tokensLeft, maxTokens, tokensSoFar. respects_steps. Qed.

Lemma benign_tokens this : respects benign (tokens this).
Proof. unfold tokens. respects_steps; auto with footprint. Qed.

Lemma benign_clone this : respects benign (clone this).
Proof. unfold clone. respects_steps. Qed.

Lemma benign_sample this temperature samplingMask :
  respects benign (sample this temperature samplingMask).
Proof. unfold sample. respects_steps; auto with footprint. Qed.

Lemma benign_logits this : respects benign (logits this).
Proof. unfold logits. respects_steps. Qed.

Lemma benign_logProbs this mask : respects benign (logProbs_method this mask).
Proof.
  unfold logProbs_method. respects_steps. apply benign_logits.
Qed.

Lemma benign_surprise this mask : respects benign (surprise_method this mask).
Proof.
  unfold surprise_method. respects_steps. apply benign_logits.
Qed.

(** The accessors and [logits] change nothing at all. *)
Lemma promptSize_pure this (w : World) : snd (promptSize this w) = w.
Proof.
  symmetry. revert w. change (respects (@eq World) (promptSize this)).
  unfold promptSize. respects_steps.
Qed.

Lemma tokensLeft_pure this (w : World) : snd (tokensLeft this w) = w.
Proof.
  symmetry. revert w. change (respects (@eq World) (tokensLeft this)).
  unfold tokensLeft, maxTokens, tokensSoFar. respects_steps.
Qed.

Lemma logits_pure this (w : World) : snd (logits this w) = w.
Proof.
  symmetry. revert w. change (respects (@eq World) (logits this)).
  unfold logits. respects_steps.
Qed.

(** *** Keeping the claim *)

#[local] Instance keeps_claim_refl this : Reflexive (keeps_claim this).
Proof. intros w E. exact E. Qed.

#[local] Instance keeps_claim_trans this : Transitive (keeps_claim this).
Proof. intros w1 w2 w3 H1 H2 E. auto. Qed.

#[local] Hint Extern 1 (keeps_claim _ _ _) => (intros ?; simpl; assumption) : footprint.

Lemma keeps_claim_rest this s appendTokens backtrack :
  respects (keeps_claim this)
    (advance_backtrack s backtrack;; advance_append this s appendTokens).
Proof.
  unfold advance_backtrack, advance_append. respects_steps; auto with footprint.
Qed.

(** *** Errors a computation cannot end in *)

Lemma never_throws_bind {A B} e (m : M A) (f : A -> M B) :
  never_throws e m -> (forall a, never_throws e (f a)) -> never_throws e (m ≫= f).
Proof.
  intros Hm Hf w. unmonad. specialize (Hm w).
  destruct (m w) as [[a|e'] w1]; simpl in *; [apply Hf|].
  intros E. apply Hm. congruence.
Qed.

Lemma never_throws_ret {A} e (a : A) : never_throws e (mret a : M A).
Proof. intros w. discriminate. Qed.

Lemma never_throws_throw {A} e e' : e' <> e -> never_throws e (throw e' : M A).
Proof. intros Hne w. simpl. congruence. Qed.

Lemma never_throws_modify e (f : World -> World) : never_throws e (modify f).
Proof. intros w. discriminate. Qed.

Lemma never_throws_get e : never_throws e (get : M World).
Proof. intros w. discriminate. Qed.

Lemma never_throws_getSeq e this :
  e <> DanglingReference -> never_throws e (getSeq this : M (MlcAiSequence NDArray)).
Proof. intros Hne w. unfold getSeq. destruct (seqs w !! this); simpl; congruence. Qed.

Lemma never_throws_getArray e a :
  e <> DanglingReference -> never_throws e (getArray a : M (list Z)).
Proof. intros Hne w. unfold getArray. destruct (arrays w !! a); simpl; congruence. Qed.

Lemma never_throws_await {A} e (call : Pipeline -> option A * Pipeline) :
  e <> EngineRejected -> never_throws e (await call : M A).
Proof.
  intros Hne w. unfold await. destruct (call (pipeline w)) as [[a|] p]; simpl; congruence.
Qed.

Ltac never_throws_step :=
  lazymatch goal with
  | |- never_throws _ (mret _) => apply never_throws_ret
  | |- never_throws _ (throw _) => apply never_throws_throw; discriminate
  | |- never_throws _ get => apply never_throws_get
  | |- never_throws _ (modify _) => apply never_throws_modify
  | |- never_throws _ (getSeq _) => apply never_throws_getSeq; discriminate
  | |- never_throws _ (getArray _) => apply never_throws_getArray; discriminate
  | |- never_throws _ (await _) => apply never_throws_await; discriminate
  | |- never_throws _ (_ ≫= _) => apply never_throws_bind; [|intros ?]
  | |- never_throws _ (if ?c then _ else _) => destruct c
  | |- never_throws _ (match ?x with _ => _ end) => destruct x
  end.

Ltac never_throws_steps :=
  unfold updSeq, updArray, disposeLogits; repeat never_throws_step.

(** *** The first [advance] of a sequence *)

Lemma advance_prefill_unprimed this s nd p (w : World) :
  seqs w !! this = Some s -> _promptSize s = 0 ->
  prefill (_options s) (pipeline w) = (Some (Some nd), p) ->
  advance_prefill this s w = (Ok (), primed this s nd p w).
Proof.
  intros Hs Hp Hf. unfold advance_prefill, primed. rewrite Hp. cbn [Z.eqb].
  pose proof (lookup_lt_Some _ _ _ Hs) as Hlt.
  unfold updSeq, disposeLogits, await, getSeq. unmonad. cbn.
  rewrite Hs. cbn. rewrite Hf. cbn.
  rewrite list_lookup_insert_eq by exact Hlt. cbn.
  rewrite list_lookup_insert_eq by (rewrite length_insert; exact Hlt). cbn.
  destruct (_logits s) as [old|]; cbn;
    rewrite list_lookup_insert_eq by (rewrite !length_insert; exact Hlt); cbn;
    unfold with_seqs, with_disposed, with_pipeline, with_lowLevel, with_window_ai_seq,
      set_logits, set_promptSize; cbn;
    rewrite !list_insert_insert_eq; reflexivity.
Qed.

Lemma advance_prefill_no_logits this s p (w : World) :
  seqs w !! this = Some s -> _promptSize s = 0 ->
  prefill (_options s) (pipeline w) = (Some None, p) ->
  fst (advance_prefill this s w) = Throw CantGetLogits.
Proof.
  intros Hs Hp Hf. unfold advance_prefill. rewrite Hp. cbn [Z.eqb].
  unfold updSeq, await, getSeq. unmonad. cbn. rewrite Hs. cbn. rewrite Hf. reflexivity.
Qed.

(** Whatever the prefill does, the claim is taken and the conflict error
    does not arise. *)
Lemma advance_unprimed this s appendTokens backtrack (w : World) :
  seqs w !! this = Some s -> _promptSize s = 0 ->
  fst (advance this appendTokens backtrack w) <> Throw CannotAdvanceDifferent
  /\ _window_ai_seq (snd (advance this appendTokens backtrack w)) = Some this.
Proof.
  intros Hs Hp. unfold advance.
  rewrite (bind_Ok _ _ _ _ _ (getSeq_Some _ _ _ Hs)).
  unfold advance_prefill. rewrite Hp. cbn [Z.eqb].
  match goal with
  | |- context [((modify ?f ≫= ?k) ≫= ?k') w] =>
      assert (E : ((modify f ≫= k) ≫= k') w
                  = (k () ≫= k') (with_window_ai_seq (Some this) w))
  end.
  { reflexivity. }
  rewrite E. clear E.
  assert (Hc : _window_ai_seq (with_window_ai_seq (Some this) w) = Some this) by reflexivity.
  revert Hc. generalize (with_window_ai_seq (Some this) w). intros w0 Hc. split.
  - match goal with |- fst (?m w0) <> _ =>
      cut (never_throws CannotAdvanceDifferent m); [intros Hn; apply Hn|] end.
    unfold advance_backtrack, advance_append. never_throws_steps.
  - match goal with |- _window_ai_seq (snd (?m w0)) = _ =>
      cut (respects (keeps_claim this) m); [intros Hr; apply Hr; exact Hc|] end.
    unfold advance_backtrack, advance_append. respects_steps; auto with footprint.
Qed.

(** [advance] returns only to the holder of the claim. *)
Lemma advance_Ok_claim this appendTokens backtrack (w w' : World) :
  advance this appendTokens backtrack w = (Ok (), w') -> _window_ai_seq w' = Some this.
Proof.
  intros E. destruct (seqs w !! this) as [s|] eqn:Hs.
  - destruct (Z.eq_dec (_promptSize s) 0) as [Hp|Hp].
    + pose proof (advance_unprimed this s appendTokens backtrack w Hs Hp) as [_ Hc].
      rewrite E in Hc. exact Hc.
    + destruct (decide (_window_ai_seq w = Some this)) as [Hc|Hc].
      * unfold advance in E.
        rewrite (bind_Ok _ _ _ _ _ (getSeq_Some _ _ _ Hs)) in E.
        rewrite (bind_Ok _ _ _ _ _ (advance_prefill_active _ _ _ Hp Hc)) in E.
        pose proof (keeps_claim_rest this s appendTokens backtrack w Hc) as Hk.
        rewrite E in Hk. exact Hk.
      * rewrite (advance_displaced _ _ _ _ _ Hs Hp Hc) in E. discriminate.
  - unfold advance in E. rewrite (bind_Throw _ _ _ _ _ (getSeq_None _ _ Hs)) in E.
    discriminate.
Qed.

(** *** Allocation, [tokens] and [destroy], run *)

Lemma createSequence_eq options (w : World) :
  createSequence options w = (Ok (length (seqs w)), created options w).
Proof. reflexivity. Qed.

Lemma tokens_eq this s v (w : World) :
  seqs w !! this = Some s -> arrays w !! _tokens s = Some v ->
  tokens this w = (Ok (length (arrays w)), with_arrays (fun l => l ++ [v]) w).
Proof.
  intros Hs Hv. unfold tokens. rewrite (bind_Ok _ _ _ _ _ (getSeq_Some _ _ _ Hs)).
  unfold getArray. unmonad. rewrite Hv. reflexivity.
Qed.

Lemma destroy_eq this s (w : World) :
  seqs w !! this = Some s -> destroy this w = (Ok (), destroyed this s w).
Proof.
  intros Hs. unfold destroy, destroyed.
  rewrite (bind_Ok _ _ _ _ _ (disposeLogits_Some _ _ _ Hs)).
  assert (Hs' : seqs (dispose_opt (_logits s) w) !! this = Some s)
    by (destruct (_logits s); exact Hs).
  rewrite (bind_Ok _ _ _ _ _ (updSeq_Some _ _ _ _ Hs')).
  unmonad. destruct (_logits s); cbn;
    destruct (decide (_window_ai_seq w = Some this)); reflexivity.
Qed.

Lemma destroy_dangling this (w : World) :
  seqs w !! this = None -> destroy this w = (Throw DanglingReference, w).
Proof.
  intros Hs. unfold destroy, disposeLogits.
  erewrite bind_Throw; [reflexivity|].
  apply bind_Throw, getSeq_None, Hs.
Qed.

Lemma advance_dangling this appendTokens backtrack (w : World) :
  seqs w !! this = None ->
  advance this appendTokens backtrack w = (Throw DanglingReference, w).
Proof. intros Hs. unfold advance. apply bind_Throw, getSeq_None, Hs. Qed.

(** *** Well-formed worlds stay well-formed *)

Lemma frame_lookup this t (w w' : World) i s' :
  frame this t w w' -> seqs w' !! i = Some s' ->
  exists s, seqs w !! i = Some s /\ _tokens s = _tokens s'.
Proof.
  intros (L & _ & O & T & _ & _) Hs'. destruct (decide (i = this)) as [->|Hi].
  - pose proof (lookup_lt_Some _ _ _ Hs') as Hlt. rewrite L in Hlt.
    destruct (lookup_lt_is_Some_2 _ _ Hlt) as [s Hs].
    destruct (T s Hs) as (s'' & Hs'' & E). exists s. split; [exact Hs|congruence].
  - exists s'. split; [|reflexivity]. rewrite <- (O i Hi). exact Hs'.
Qed.

Lemma wf_frame this t (w w' : World) : wf w -> frame this t w w' -> wf w'.
Proof.
  intros [W1 W2] Hf. pose proof Hf as (_ & A & _). split.
  - intros i s' Hs'. destruct (frame_lookup _ _ _ _ _ _ Hf Hs') as (s & Hs & E).
    rewrite A, <- E. eapply W1. exact Hs.
  - intros i j si sj Hi Hj E.
    destruct (frame_lookup _ _ _ _ _ _ Hf Hi) as (si0 & Hi0 & Ei).
    destruct (frame_lookup _ _ _ _ _ _ Hf Hj) as (sj0 & Hj0 & Ej).
    eapply W2; [exact Hi0|exact Hj0|congruence].
Qed.

Lemma wf_benign (w w' : World) : wf w -> benign w w' -> wf w'.
Proof.
  intros [W1 W2] (S & _ & l & A). split.
  - intros i s Hs. rewrite S in Hs. rewrite A, length_app.
    specialize (W1 i s Hs). lia.
  - intros i j si sj Hi Hj. rewrite S in Hi, Hj. eapply W2; eassumption.
Qed.

Lemma wf_created options (w : World) : wf w -> wf (created options w).
Proof.
  intros [W1 W2]. split; cbn [created seqs arrays].
  - intros i s Hs. rewrite length_app. cbn [length].
    apply lookup_app_Some in Hs as [Hs|[_ Hs]].
    + specialize (W1 i s Hs). lia.
    + apply list_lookup_singleton_Some in Hs as [_ <-]. cbn. lia.
  - intros i j si sj Hi Hj E.
    apply lookup_app_Some in Hi as [Hi|[Hi1 Hi]];
      apply lookup_app_Some in Hj as [Hj|[Hj1 Hj]].
    + eapply W2; eassumption.
    + apply list_lookup_singleton_Some in Hj as [_ <-]. cbn in E.
      specialize (W1 i si Hi). lia.
    + apply list_lookup_singleton_Some in Hi as [_ <-]. cbn in E.
      specialize (W1 j sj Hj). lia.
    + apply list_lookup_singleton_Some in Hi as [Hi _].
      apply list_lookup_singleton_Some in Hj as [Hj _]. lia.
Qed.

Lemma wf_write a v (w : World) : wf w -> wf (with_arrays (fun l => <[a := v]> l) w).
Proof.
  intros [W1 W2]. split; cbn [with_arrays seqs arrays].
  - intros i s Hs. rewrite length_insert. eapply W1. exact Hs.
  - exact W2.
Qed.

Lemma wf_init (p : Pipeline) : wf (init_world p : World).
Proof. split; intros i; cbn; intros; discriminate. Qed.

Lemma wf_exec c (w : World) : wf w -> wf (exec c w).
Proof.
  intros W. destruct c; cbn [exec].
  - rewrite createSequence_eq. apply wf_created, W.
  - rewrite promptSize_pure. exact W.
  - rewrite tokensLeft_pure. exact W.
  - eapply wf_benign; [exact W|apply benign_tokens].
  - destruct (seqs w !! this) as [s|] eqn:Hs.
    + eapply wf_frame; [exact W|]. eapply frame_advance; [exact Hs|reflexivity].
    + rewrite advance_dangling by exact Hs. exact W.
  - exact W.
  - eapply wf_benign; [exact W|apply benign_sample].
  - eapply wf_benign; [exact W|apply benign_logProbs].
  - eapply wf_benign; [exact W|apply benign_surprise].
  - rewrite logits_pure. exact W.
  - eapply wf_frame; [exact W|apply (frame_destroy this 0)].
  - destruct (is_private w a); [exact W|apply wf_write, W].
Qed.

Lemma wf_execs cs (w : World) : wf w -> wf (execs cs w).
Proof.
  unfold execs. revert w. induction cs as [|c cs IH]; intros w W; [exact W|].
  cbn [fold_left]. apply IH, wf_exec, W.
Qed.

(** *** A primed sequence without the claim *)

Lemma is_private_lookup (w : World) i s :
  seqs w !! i = Some s -> is_private w (_tokens s) = true.
Proof.
  intros Hs. unfold is_private. apply existsb_exists. exists s. split.
  - apply list_elem_of_In. eapply list_elem_of_lookup_2. exact Hs.
  - apply Nat.eqb_refl.
Qed.

Lemma displaced_frame A s ts this t (w w' : World) :
  displaced A s ts w -> this <> A -> t <> _tokens s -> frame this t w w' ->
  displaced A s ts w'.
Proof.
  intros (W & Hs & Hv & Hp & Hc) Hne Ht Hf.
  pose proof Hf as (_ & _ & O & _ & R & C).
  repeat split.
  - eapply wf_frame; eassumption.
  - eapply wf_frame; eassumption.
  - rewrite O by congruence. exact Hs.
  - rewrite R by congruence. exact Hv.
  - exact Hp.
  - intros E. apply Hc. apply C; [congruence|exact E].
Qed.

Lemma displaced_benign A s ts (w w' : World) :
  displaced A s ts w -> benign w w' -> displaced A s ts w'.
Proof.
  intros (W & Hs & Hv & Hp & Hc) Hb.
  pose proof Hb as (S & C & l & E).
  repeat split.
  - eapply wf_benign; eassumption.
  - eapply wf_benign; eassumption.
  - rewrite S. exact Hs.
  - rewrite E. apply lookup_app_l_Some. exact Hv.
  - exact Hp.
  - rewrite C. exact Hc.
Qed.

(** One call, whatever it is, leaves a displaced sequence displaced, with
    the same history. *)
Lemma exec_displaced A s ts c (w : World) :
  displaced A s ts w -> displaced A (after_call A c s) ts (exec c w).
Proof.
  intros D. pose proof D as (W & Hs & Hv & Hp & Hc).
  destruct c; cbn [exec after_call].
  - rewrite createSequence_eq. repeat split; cbn [created seqs arrays _window_ai_seq].
    + apply (wf_created options w W).
    + apply (wf_created options w W).
    + apply lookup_app_l_Some. exact Hs.
    + apply lookup_app_l_Some. exact Hv.
    + exact Hp.
    + exact Hc.
  - rewrite promptSize_pure. exact D.
  - rewrite tokensLeft_pure. exact D.
  - eapply displaced_benign; [exact D|apply benign_tokens].
  - destruct (decide (this = A)) as [->|Hne].
    + rewrite (advance_displaced _ _ _ _ _ Hs Hp Hc). exact D.
    + destruct (seqs w !! this) as [st|] eqn:Hst.
      * eapply displaced_frame; [exact D|exact Hne| |eapply frame_advance; [exact Hst|reflexivity]].
        intros E. apply Hne. destruct W as [_ W2]. eapply W2; eassumption.
      * rewrite advance_dangling by exact Hst. exact D.
  - exact D.
  - eapply displaced_benign; [exact D|apply benign_sample].
  - eapply displaced_benign; [exact D|apply benign_logProbs].
  - eapply displaced_benign; [exact D|apply benign_surprise].
  - rewrite logits_pure. exact D.
  - destruct (decide (this = A)) as [->|Hne].
    + rewrite (destroy_eq _ _ _ Hs). cbn [snd].
      assert (Hf : frame A (S (_tokens s)) w (destroyed A s w)).
      { pose proof (frame_destroy A (S (_tokens s)) w) as Hf.
        rewrite (destroy_eq _ _ _ Hs) in Hf. exact Hf. }
      pose proof Hf as (_ & _ & _ & _ & R & _).
      repeat split.
      * eapply wf_frame; eassumption.
      * eapply wf_frame; eassumption.
      * cbn [destroyed seqs]. apply list_lookup_insert_eq. eapply lookup_lt_Some. exact Hs.
      * cbn [set_logits _tokens]. rewrite R by lia. exact Hv.
      * exact Hp.
      * cbn [destroyed _window_ai_seq].
        destruct (decide (_window_ai_seq w = Some A)); [congruence|exact Hc].
    + eapply displaced_frame; [exact D|exact Hne| |apply (frame_destroy this (S (_tokens s)))].
      lia.
  - destruct (is_private w a) eqn:Hpriv; [exact D|].
    repeat split; cbn [with_arrays seqs arrays _window_ai_seq]; try assumption.
    + apply (wf_write a v w W).
    + apply (wf_write a v w W).
    + rewrite list_lookup_insert_ne; [exact Hv|].
      intros ->. rewrite (is_private_lookup _ _ _ Hs) in Hpriv. discriminate.
Qed.

Lemma execs_displaced A s ts cs (w : World) :
  displaced A s ts w -> displaced A (after_calls A cs s) ts (execs cs w).
Proof.
  unfold execs, after_calls. revert s w.
  induction cs as [|c cs IH]; intros s w D; [exact D|].
  cbn [fold_left]. apply IH, exec_displaced, D.
Qed.

Lemma after_call_fields A (c : Call F) (s : MlcAiSequence NDArray) :
  _tokens (after_call A c s) = _tokens s
  /\ _promptSize (after_call A c s) = _promptSize s
  /\ (_logits s = None -> _logits (after_call A c s) = None).
Proof.
  destruct c; cbn [after_call]; try (repeat split; auto; fail).
  destruct (decide (this = A)); repeat split; auto.
Qed.

Lemma after_calls_fields A (cs : list (Call F)) (s : MlcAiSequence NDArray) :
  _tokens (after_calls A cs s) = _tokens s
  /\ _promptSize (after_calls A cs s) = _promptSize s
  /\ (_logits s = None -> _logits (after_calls A cs s) = None).
Proof.
  unfold after_calls. revert s. induction cs as [|c cs IH]; intros s; [auto|].
  cbn [fold_left]. destruct (IH (after_call A c s)) as (T & P & L).
  destruct (after_call_fields A c s) as (T' & P' & L').
  repeat split; [congruence|congruence|auto].
Qed.

(** Until [A] is destroyed, its fields do not change at all. *)
Lemma after_calls_undestroyed A (cs : list (Call F)) (s : MlcAiSequence NDArray) :
  Destroy A ∉ cs -> after_calls A cs s = s.
Proof.
  unfold after_calls. revert s. induction cs as [|c cs IH]; intros s Hn; [reflexivity|].
  cbn [fold_left]. rewrite not_elem_of_cons in Hn. destruct Hn as [Hc Hn].
  replace (after_call A c s) with s; [apply IH, Hn|].
  destruct c; try reflexivity. cbn [after_call].
  destruct (decide (this = A)) as [->|]; [congruence|reflexivity].
Qed.

(** *** Reading *)

Lemma read_tokens_eq this s v (w : World) :
  seqs w !! this = Some s -> arrays w !! _tokens s = Some v ->
  read_tokens this w = (Ok v, with_arrays (fun l => l ++ [v]) w).
Proof.
  intros Hs Hv. unfold read_tokens.
  rewrite (bind_Ok _ _ _ _ _ (tokens_eq _ _ _ _ Hs Hv)).
  unfold getArray. cbn [with_arrays arrays].
  rewrite lookup_app_r by lia. rewrite Nat.sub_diag. reflexivity.
Qed.

Lemma logits_None this s (w : World) :
  seqs w !! this = Some s -> _logits s = None -> logits this w = (Throw NoLogits, w).
Proof.
  intros Hs Hl. unfold logits. rewrite (bind_Ok _ _ _ _ _ (getSeq_Some _ _ _ Hs)).
  rewrite Hl. reflexivity.
Qed.

Lemma sample_None this s temperature samplingMask (w : World) :
  seqs w !! this = Some s -> _logits s = None ->
  sample this temperature samplingMask w = (Throw NoLogits, w).
Proof.
  intros Hs Hl. unfold sample. rewrite (bind_Ok _ _ _ _ _ (getSeq_Some _ _ _ Hs)).
  rewrite Hl. reflexivity.
Qed.

Lemma logits_Some this s nd (w : World) :
  seqs w !! this = Some s -> _logits s = Some nd ->
  logits this w =
  (match toArray nd with Float32Array r => Ok r | OtherArray => Throw NotAFloat32Array end, w).
Proof.
  intros Hs Hl. unfold logits. rewrite (bind_Ok _ _ _ _ _ (getSeq_Some _ _ _ Hs)).
  rewrite Hl. destruct (toArray nd); reflexivity.
Qed.

Lemma promptSize_eq this s (w : World) :
  seqs w !! this = Some s -> _promptSize s <> 0 ->
  promptSize this w = (Ok (_promptSize s), w).
Proof.
  intros Hs Hp. unfold promptSize. rewrite (bind_Ok _ _ _ _ _ (getSeq_Some _ _ _ Hs)).
  apply Z.eqb_neq in Hp. rewrite Hp. reflexivity.
Qed.

Lemma tokensLeft_eq this s v (w : World) :
  seqs w !! this = Some s -> arrays w !! _tokens s = Some v ->
  tokensLeft this w =
  (Ok (context_window_size - _promptSize s - Z.of_nat (length v)), w).
Proof.
  intros Hs Hv. unfold tokensLeft, maxTokens, tokensSoFar, getArray, getSeq. unmonad.
  rewrite Hs. cbn. rewrite Hs. cbn. rewrite Hv. reflexivity.
Qed.

(** *** Rejections of the engine *)

Lemma advance_prefill_rejected this s p (w : World) :
  seqs w !! this = Some s -> _promptSize s = 0 ->
  prefill (_options s) (pipeline w) = (None, p) ->
  fst (advance_prefill this s w) = Throw EngineRejected.
Proof.
  intros Hs Hp Hf. unfold advance_prefill. rewrite Hp. cbn [Z.eqb].
  unfold updSeq, await, getSeq. unmonad. cbn. rewrite Hs. cbn. rewrite Hf. reflexivity.
Qed.

Lemma advance_append_rejected this s0 s v appendTokens p (w : World) :
  appendTokens <> [] ->
  seqs w !! this = Some s -> _tokens s0 = _tokens s ->
  arrays w !! _tokens s = Some v ->
  forwardTokens appendTokens (pipeline w) = (None, p) ->
  fst (advance_append this s0 appendTokens w) = Throw EngineRejected.
Proof.
  intros Hne Hs Ht Hv Hf. unfold advance_append.
  destruct appendTokens as [|t ts]; [congruence|]. cbn [length Nat.ltb Nat.leb].
  rewrite Ht.
  rewrite (bind_Ok _ _ _ _ _ (updArray_Some _ _ _ _ Hv)).
  erewrite bind_Ok; [|apply disposeLogits_Some; exact Hs].
  unfold await at 1. unmonad.
  destruct (_logits s) as [old|]; cbn [dispose_opt with_disposed with_arrays pipeline];
    rewrite Hf; reflexivity.
Qed.

Lemma bind_fst_Throw {A B} (m : M A) (f : A -> M B) w e :
  fst (m w) = Throw e -> fst ((m ≫= f) w) = Throw e.
Proof. intros E. unmonad. destruct (m w) as [[a|e'] w']; simpl in *; congruence. Qed.

(** *** Having logits *)

#[local] Instance keeps_logits_refl this : Reflexive (keeps_logits this).
Proof. intros w E. exact E. Qed.

#[local] Instance keeps_logits_trans this : Transitive (keeps_logits this).
Proof. intros w1 w2 w3 H1 H2 E. auto. Qed.

Lemma keeps_logits_same this (w w' : World) :
  seqs w' = seqs w -> keeps_logits this w w'.
Proof. intros E (s & Hs & Hl). exists s. rewrite E. auto. Qed.

Lemma keeps_logits_set this s nd (w : World) :
  seqs w !! this = Some s ->
  keeps_logits this w (with_seqs (fun l => <[this := set_logits (Some nd) s]> l) w).
Proof.
  intros Hs _. exists (set_logits (Some nd) s). split; [|eexists; reflexivity].
  cbn. apply list_lookup_insert_eq. eapply lookup_lt_Some. exact Hs.
Qed.

#[local] Hint Extern 1 (keeps_logits _ _ (with_seqs _ _)) =>
  eapply keeps_logits_set; eassumption : footprint.
#[local] Hint Extern 2 (keeps_logits _ _ _) =>
  apply keeps_logits_same; reflexivity : footprint.

Lemma keeps_logits_rest this s appendTokens backtrack :
  respects (keeps_logits this)
    (advance_backtrack s backtrack;; advance_append this s appendTokens).
Proof.
  unfold advance_backtrack, advance_append. respects_steps; auto with footprint.
Qed.

(** A first [advance] that returns leaves the sequence with logits. *)
Lemma advance_unprimed_Ok this s appendTokens backtrack (w w' : World) :
  seqs w !! this = Some s -> _promptSize s = 0 ->
  advance this appendTokens backtrack w = (Ok (), w') ->
  has_logits this w'.
Proof.
  intros Hs Hp E. unfold advance in E.
  rewrite (bind_Ok _ _ _ _ _ (getSeq_Some _ _ _ Hs)) in E.
  destruct (prefill (_options s) (pipeline w)) as [[[nd|]|] p] eqn:Hf.
  - rewrite (bind_Ok _ _ _ _ _ (advance_prefill_unprimed _ _ _ _ _ Hs Hp Hf)) in E.
    pose proof (keeps_logits_rest this s appendTokens backtrack (primed this s nd p w)) as Hk.
    rewrite E in Hk. apply Hk. eexists. split.
    + cbn [primed seqs]. apply list_lookup_insert_eq. eapply lookup_lt_Some. exact Hs.
    + eexists. reflexivity.
  - pose proof (bind_fst_Throw _ (fun _ => advance_backtrack s backtrack;;
        advance_append this s appendTokens) _ _
        (advance_prefill_no_logits _ _ _ _ Hs Hp Hf)) as Ht.
    rewrite E in Ht. discriminate.
  - pose proof (bind_fst_Throw _ (fun _ => advance_backtrack s backtrack;;
        advance_append this s appendTokens) _ _
        (advance_prefill_rejected _ _ _ _ Hs Hp Hf)) as Ht.
    rewrite E in Ht. discriminate.
Qed.

(** The history after the backtracking error: cut by [backtrack] tokens,
    with the logits of the uncut history still in place. *)
Lemma advance_backtrack_cuts_history this s v appendTokens backtrack (w : World) :
  seqs w !! this = Some s -> _promptSize s <> 0 -> _window_ai_seq w = Some this ->
  arrays w !! _tokens s = Some v -> 0 < backtrack ->
  let w' := snd (advance this appendTokens backtrack w) in
  fst (read_tokens this w') = Ok (firstn (length v - Z.to_nat backtrack) v)
  /\ seqs w' !! this = Some s.
Proof.
  intros Hs Hp Hc Hv Hb w'. subst w'.
  rewrite (advance_backtrack_active _ _ _ _ _ _ Hs Hp Hc Hv Hb). cbn [snd].
  set (w' := with_arrays _ w).
  assert (Hs' : seqs w' !! this = Some s) by exact Hs.
  assert (Hv' : arrays w' !! _tokens s = Some (firstn (length v - Z.to_nat backtrack) v)).
  { subst w'. cbn [with_arrays arrays]. rewrite <- (splice_backtrack backtrack v Hb).
    apply list_lookup_insert_eq. eapply lookup_lt_Some. exact Hv. }
  rewrite (read_tokens_eq _ _ _ _ Hs' Hv'). split; [reflexivity|exact Hs'].
Qed.

(** *** The claims about sessions *)

(** C6.  For an active sequence that holds the claim, [advance([], 0)]
    returns and changes nothing; in particular after [advance([t1, t2])]
    and then [advance([], 0)] the [tokens] property holds the earlier history
    followed by [t1, t2] (that is [t1, t2] after an empty history) and
    [logits()] gives what it gave right after [advance([t1, t2])]. *)
Theorem advance_empty_is_noop this s ts t1 t2 (w w1 : World) :
  seqs w !! this = Some s -> _promptSize s <> 0 -> _window_ai_seq w = Some this ->
  arrays w !! _tokens s = Some ts ->
  advance this [t1; t2] 0 w = (Ok (), w1) ->
  advance this [] 0 w = (Ok (), w)
  /\ advance this [] 0 w1 = (Ok (), w1)
  /\ fst (read_tokens this (snd (advance this [] 0 w1))) = Ok (ts ++ [t1; t2])
  /\ logits this (snd (advance this [] 0 w1)) = logits this w1.
Proof.
  intros Hs Hp Hc Hv E.
  assert (Hnoop : advance this [] 0 w = (Ok (), w)) by (eapply advance_noop; eassumption).
  assert (Hne : [t1; t2] <> []) by discriminate.
  destruct (forwardTokens [t1; t2] (pipeline w)) as [[nd|] p] eqn:Hf.
  - rewrite (advance_append_active _ _ _ _ _ _ _ _ Hs Hp Hc Hv (Z.le_refl 0)
               Hne Hf) in E.
    injection E as <-.
    pose proof (lookup_lt_Some _ _ _ Hs) as Hlt.
    pose proof (lookup_lt_Some _ _ _ Hv) as Hlt'.
    assert (Hs1 : seqs (appended this s ts [t1; t2] nd p w) !! this
                  = Some (set_logits (Some nd) s))
      by (cbn [appended seqs]; apply list_lookup_insert_eq; exact Hlt).
    assert (Hv1 : arrays (appended this s ts [t1; t2] nd p w) !! _tokens s
                  = Some (ts ++ [t1; t2]))
      by (cbn [appended arrays]; apply list_lookup_insert_eq; exact Hlt').
    assert (E1 : advance this [] 0 (appended this s ts [t1; t2] nd p w)
                 = (Ok (), appended this s ts [t1; t2] nd p w))
      by (eapply advance_noop; [exact Hs1|exact Hp|exact Hc]).
    rewrite E1. cbn [snd]. repeat split; try assumption.
    rewrite (read_tokens_eq _ _ _ _ Hs1 Hv1). reflexivity.
  - exfalso. unfold advance in E.
    rewrite (bind_Ok _ _ _ _ _ (getSeq_Some _ _ _ Hs)) in E.
    rewrite (bind_Ok _ _ _ _ _ (advance_prefill_active _ _ _ Hp Hc)) in E.
    rewrite (bind_Ok _ _ _ _ _ (advance_backtrack_none _ _ _ (Z.le_refl 0))) in E.
    pose proof (advance_append_rejected this s s ts [t1; t2] p w
                  Hne Hs eq_refl Hv Hf) as Ht.
    rewrite E in Ht. discriminate.
Qed.


(** C3, at the failing input.  On a sequence fresh from [createSequence],
    [logits()] and [sample()] throw "No logits" and leave the world as it
    is: no prefill has run, the sequence is still unprimed and nobody has
    gained the claim. *)
Theorem logits_of_fresh_sequence_throws options temperature samplingMask (w0 : World) :
  let this := length (seqs w0) in
  let w := created options w0 in
  createSequence options w0 = (Ok this, w)
  /\ logits this w = (Throw NoLogits, w)
  /\ sample this temperature samplingMask w = (Throw NoLogits, w)
  /\ pipeline w = pipeline w0
  /\ _window_ai_seq w = _window_ai_seq w0
  /\ promptSize this w = (Throw PromptSizeNotInitialized, w).
Proof.
  intros this w.
  assert (Hs : seqs w !! this
               = Some {| _tokens := length (arrays w0); _promptSize := 0;
                         _logits := None; _options := options |}).
  { subst this w. cbn [created seqs]. rewrite lookup_app_r by lia.
    rewrite Nat.sub_diag. reflexivity. }
  split; [reflexivity|]. split; [|split; [|split; [|split]]].
  - eapply logits_None; [exact Hs|reflexivity].
  - eapply sample_None; [exact Hs|reflexivity].
  - reflexivity.
  - reflexivity.
  - unfold promptSize. rewrite (bind_Ok _ _ _ _ _ (getSeq_Some _ _ _ Hs)). reflexivity.
Qed.

Lemma displaced_destroyed this s ts (w : World) :
  wf w -> seqs w !! this = Some s -> arrays w !! _tokens s = Some ts ->
  _promptSize s <> 0 ->
  displaced this (set_logits None s) ts (destroyed this s w).
Proof.
  intros W Hs Hv Hp.
  assert (Hf : frame this (S (_tokens s)) w (destroyed this s w)).
  { pose proof (frame_destroy this (S (_tokens s)) w) as Hf.
    rewrite (destroy_eq _ _ _ Hs) in Hf. exact Hf. }
  pose proof Hf as (_ & _ & _ & _ & R & _).
  repeat split.
  - eapply wf_frame; eassumption.
  - eapply wf_frame; eassumption.
  - cbn [destroyed seqs]. apply list_lookup_insert_eq. eapply lookup_lt_Some. exact Hs.
  - cbn [set_logits _tokens]. rewrite R by lia. exact Hv.
  - exact Hp.
  - cbn [destroyed _window_ai_seq].
    destruct (decide (_window_ai_seq w = Some this)); [congruence|assumption].
Qed.

(** C5 (as amended).  After [destroy()] on a primed sequence, and whatever
    is called afterwards: [advance] throws "Cannot advance a different
    AISequence", [logits()] and [sample()] throw "No logits", all without
    effect; [tokens], [promptSize] and [tokensLeft] do not throw: they
    return the history, the prompt size and the tokens left as before the
    [destroy()]. *)
Theorem destroyed_sequence_operations this s ts (cs : list (Call F)) (w : World) :
  wf w -> seqs w !! this = Some s -> arrays w !! _tokens s = Some ts ->
  _promptSize s <> 0 ->
  let w1 := execs cs (snd (destroy this w)) in
  (forall appendTokens backtrack,
     advance this appendTokens backtrack w1 = (Throw CannotAdvanceDifferent, w1))
  /\ logits this w1 = (Throw NoLogits, w1)
  /\ (forall temperature samplingMask,
        sample this temperature samplingMask w1 = (Throw NoLogits, w1))
  /\ fst (read_tokens this w1) = Ok ts
  /\ promptSize this w1 = (Ok (_promptSize s), w1)
  /\ tokensLeft this w1 =
     (Ok (context_window_size - _promptSize s - Z.of_nat (length ts)), w1).
Proof.
  intros W Hs Hv Hp w1. subst w1. rewrite (destroy_eq _ _ _ Hs). cbn [snd].
  pose proof (execs_displaced this _ ts cs _ (displaced_destroyed _ _ _ _ W Hs Hv Hp))
    as (W1 & Hs1 & Hv1 & Hp1 & Hc1).
  destruct (after_calls_fields this cs (set_logits None s)) as (ET & EP & EL).
  specialize (EL eq_refl). cbn [set_logits _tokens _promptSize] in ET, EP.
  rewrite ET in Hv1. rewrite EP in Hp1.
  set (w1 := execs cs (destroyed this s w)) in *.
  set (s1 := after_calls this cs (set_logits None s)) in *.
  split; [|split; [|split; [|split; [|split]]]].
  - intros a b. eapply advance_displaced; [exact Hs1|congruence|exact Hc1].
  - eapply logits_None; eassumption.
  - intros t m. eapply sample_None; eassumption.
  - rewrite <- ET in Hv1. rewrite (read_tokens_eq _ _ _ _ Hs1 Hv1). reflexivity.
  - rewrite <- EP. apply promptSize_eq; [exact Hs1|congruence].
  - rewrite <- ET in Hv1. rewrite <- EP. apply tokensLeft_eq; assumption.
Qed.

(** C8.  [destroy()] does not throw; a second [destroy()] does not throw
    either and changes nothing.  The first one disposes of the logits buffer
    if there is one and forgets it, and clears the claim if this sequence
    holds it.  A sequence created afterwards takes the claim with its first
    [advance], which never throws "Cannot advance a different AISequence"
    and returns when the prefill returns logits. *)
Theorem destroy_idempotent this s (w : World) :
  seqs w !! this = Some s ->
  let w1 := snd (destroy this w) in
  fst (destroy this w) = Ok ()
  /\ destroy this w1 = (Ok (), w1)
  /\ seqs w1 !! this = Some (set_logits None s)
  /\ disposed w1 = disposed w ++ match _logits s with Some nd => [nd] | None => [] end
  /\ (_window_ai_seq w = Some this -> _window_ai_seq w1 = None)
  /\ (_window_ai_seq w <> Some this -> _window_ai_seq w1 = _window_ai_seq w)
  /\ forall options appendTokens backtrack,
       let n := length (seqs w1) in
       let w2 := created options w1 in
       createSequence options w1 = (Ok n, w2)
       /\ fst (advance n appendTokens backtrack w2) <> Throw CannotAdvanceDifferent
       /\ _window_ai_seq (snd (advance n appendTokens backtrack w2)) = Some n
       /\ forall nd p, prefill options (pipeline w1) = (Some (Some nd), p) ->
            fst (advance n [] 0 w2) = Ok ().
Proof.
  intros Hs w1. subst w1. rewrite (destroy_eq _ _ _ Hs). cbn [fst snd].
  pose proof (lookup_lt_Some _ _ _ Hs) as Hlt.
  assert (Hs1 : seqs (destroyed this s w) !! this = Some (set_logits None s))
    by (cbn [destroyed seqs]; apply list_lookup_insert_eq; exact Hlt).
  split; [reflexivity|]. split; [|split; [exact Hs1|split; [|split; [|split]]]].
  - rewrite (destroy_eq _ _ _ Hs1). f_equal. unfold destroyed at 1.
    cbn [set_logits _logits dispose_opt].
    destruct w as [sq ar cl pl ll dp]. unfold destroyed. cbn.
    rewrite list_insert_insert_eq.
    destruct (decide (cl = Some this)) as [->|Hc]; cbn.
    + destruct (decide (None = Some this)); [discriminate|reflexivity].
    + destruct (decide (cl = Some this)); [contradiction|reflexivity].
  - cbn [destroyed disposed]. destruct (_logits s); cbn; [reflexivity|].
    symmetry. apply app_nil_r.
  - intros Hc. cbn [destroyed _window_ai_seq].
    destruct (decide (_window_ai_seq w = Some this)); [reflexivity|contradiction].
  - intros Hc. cbn [destroyed _window_ai_seq].
    destruct (decide (_window_ai_seq w = Some this)); [contradiction|reflexivity].
  - intros options appendTokens backtrack.
    set (n := length (seqs (destroyed this s w))).
    set (w2 := created options (destroyed this s w)).
    assert (Hn : seqs w2 !! n
                 = Some {| _tokens := length (arrays (destroyed this s w));
                           _promptSize := 0; _logits := None; _options := options |}).
    { subst n w2. cbn [created seqs]. rewrite lookup_app_r by lia.
      rewrite Nat.sub_diag. reflexivity. }
    split; [reflexivity|].
    destruct (advance_unprimed n _ appendTokens backtrack w2 Hn eq_refl) as [Hne Hcl].
    split; [exact Hne|]. split; [exact Hcl|].
    intros nd p Hf. unfold advance.
    rewrite (bind_Ok _ _ _ _ _ (getSeq_Some _ _ _ Hn)).
    rewrite (bind_Ok _ _ _ _ _ (advance_prefill_unprimed _ _ _ _ _ Hn eq_refl Hf)).
    reflexivity.
Qed.

(** C10.  Reading [tokens] allocates a new array that holds the history.
    It is no array of any sequence, so a write to it does happen, and after
    any such write the sequences, the claim and every other array are as
    before; a second read returns an array with the same contents as the
    first had. *)
Theorem tokens_is_a_copy this s ts (w : World) :
  wf w -> seqs w !! this = Some s -> arrays w !! _tokens s = Some ts ->
  let a := length (arrays w) in
  let w1 := with_arrays (fun l => l ++ [ts]) w in
  tokens this w = (Ok a, w1)
  /\ arrays w !! a = None
  /\ arrays w1 !! a = Some ts
  /\ is_private w1 a = false
  /\ seqs w1 = seqs w
  /\ (forall v,
        let w2 := exec (WriteArray a v) w1 in
        w2 = with_arrays (fun l => <[a := v]> l) w1
        /\ seqs w2 = seqs w
        /\ _window_ai_seq w2 = _window_ai_seq w
        /\ (forall b, b <> a -> arrays w2 !! b = arrays w1 !! b)
        /\ arrays w2 !! _tokens s = Some ts
        /\ fst (read_tokens this w2) = Ok ts)
  /\ fst (read_tokens this w1) = Ok ts.
Proof.
  intros W Hs Hv a w1.
  pose proof (lookup_lt_Some _ _ _ Hv) as Hlt.
  assert (Hpriv : is_private w1 a = false).
  { subst a w1. unfold is_private. cbn [with_arrays seqs].
    apply not_true_iff_false. intros Hex. apply existsb_exists in Hex as (s' & Hin & E).
    apply Nat.eqb_eq in E. apply list_elem_of_In, list_elem_of_lookup in Hin as [i Hi].
    destruct W as [W1 _]. specialize (W1 i s' Hi). lia. }
  assert (Hv1 : arrays w1 !! _tokens s = Some ts)
    by (subst w1; cbn [with_arrays arrays]; apply lookup_app_l_Some; exact Hv).
  split; [apply (tokens_eq this s ts w Hs Hv)|].
  split; [apply lookup_ge_None; subst a; lia|].
  split; [subst a w1; cbn [with_arrays arrays]; rewrite lookup_app_r by lia;
          rewrite Nat.sub_diag; reflexivity|].
  split; [exact Hpriv|]. split; [reflexivity|]. split.
  - intros v w2. subst w2. cbn [exec]. rewrite Hpriv.
    assert (Hv2 : arrays (with_arrays (fun l => <[a := v]> l) w1) !! _tokens s = Some ts).
    { cbn [with_arrays arrays]. rewrite list_lookup_insert_ne by (subst a; lia). exact Hv1. }
    split; [reflexivity|]. split; [reflexivity|]. split; [reflexivity|]. split.
    + intros b Hb. cbn [with_arrays arrays]. apply list_lookup_insert_ne. congruence.
    + split; [exact Hv2|].
      assert (Hs2 : seqs (with_arrays (fun l => <[a := v]> l) w1) !! this = Some s) by exact Hs.
      rewrite (read_tokens_eq _ _ _ _ Hs2 Hv2). reflexivity.
  - assert (Hs1 : seqs w1 !! this = Some s) by exact Hs.
    rewrite (read_tokens_eq _ _ _ _ Hs1 Hv1). reflexivity.
Qed.

Lemma wf_advance this appendTokens backtrack (w : World) :
  wf w -> wf (snd (advance this appendTokens backtrack w)).
Proof. intros W. apply (wf_exec (Advance this appendTokens backtrack) w W). Qed.

(** C2.  [A] primes, then [B] primes, the engine reporting a prompt length
    each time.  From then on, whatever is called in between, every [advance]
    of [A] throws "Cannot advance a different AISequence" and changes
    nothing, while an [advance] of [B] with tokens returns as soon as the
    forward pass does; and until [A.destroy()] is called the fields of [A],
    the contents of its [tokens] and the result of its [logits()] are what
    they were when [A] had primed, and [logits()] does not lack logits. *)
Theorem displaced_session A B sA sB tsA tsB (cs : list (Call F)) (w0 w1 w2 : World) :
  wf w0 -> A <> B ->
  seqs w0 !! A = Some sA -> _promptSize sA = 0 ->
  advance A tsA 0 w0 = (Ok (), w1) ->
  (forall s, seqs w1 !! A = Some s -> _promptSize s <> 0) ->
  seqs w1 !! B = Some sB -> _promptSize sB = 0 ->
  advance B tsB 0 w1 = (Ok (), w2) ->
  (forall s, seqs w2 !! B = Some s -> _promptSize s <> 0) ->
  let w3 := execs cs w2 in
  (forall appendTokens backtrack,
     advance A appendTokens backtrack w3 = (Throw CannotAdvanceDifferent, w3))
  /\ (forall appendTokens nd p,
        appendTokens <> [] ->
        forwardTokens appendTokens (pipeline w2) = (Some nd, p) ->
        fst (advance B appendTokens 0 w2) = Ok ())
  /\ (Destroy A ∉ cs ->
        seqs w3 !! A = seqs w1 !! A
        /\ fst (read_tokens A w3) = fst (read_tokens A w1)
        /\ (exists ts, fst (read_tokens A w3) = Ok ts)
        /\ fst (logits A w3) = fst (logits A w1)
        /\ fst (logits A w3) <> Throw NoLogits).
Proof.
  intros W0 HAB HsA HpA EA HnzA HsB HpB EB HnzB w3.
  (* the world after A has primed *)
  assert (W1 : wf w1).
  { pose proof (wf_advance A tsA 0 w0 W0) as W1. rewrite EA in W1. exact W1. }
  destruct (advance_unprimed_Ok _ _ _ _ _ _ HsA HpA EA) as (sA1 & HsA1 & HlA1).
  destruct W1 as [W1a W1b].
  destruct (lookup_lt_is_Some_2 _ _ (W1a _ _ HsA1)) as [tsA1 HvA1].
  (* the world after B has primed *)
  assert (Hf : frame B (_tokens sB) w1 w2).
  { pose proof (frame_advance B (_tokens sB) tsB 0 w1 sB HsB eq_refl) as Hf.
    rewrite EB in Hf. exact Hf. }
  assert (W2 : wf w2) by (eapply wf_frame; [split; eassumption|exact Hf]).
  pose proof (advance_Ok_claim _ _ _ _ _ EB) as HcB.
  assert (D2 : displaced A sA1 tsA1 w2).
  { pose proof Hf as (_ & _ & O & _ & R & _). repeat split.
    - apply W2.
    - apply W2.
    - rewrite O by congruence. exact HsA1.
    - rewrite R; [exact HvA1|]. intros E. apply HAB. eapply W1b; eassumption.
    - apply HnzA, HsA1.
    - rewrite HcB. congruence. }
  pose proof (execs_displaced A sA1 tsA1 cs w2 D2) as (W3 & HsA3 & HvA3 & HpA3 & HcA3).
  fold w3 in W3, HsA3, HvA3, HcA3.
  split; [|split].
  - intros appendTokens backtrack. eapply advance_displaced; eassumption.
  - intros appendTokens nd p Hne Hfw.
    pose proof Hf as (_ & _ & _ & T & _ & _).
    destruct (T sB HsB) as (sB2 & HsB2 & ET).
    destruct W2 as [W2a W2b].
    destruct (lookup_lt_is_Some_2 _ _ (W2a _ _ HsB2)) as [tsB2 HvB2].
    rewrite (advance_append_active _ _ _ _ _ _ _ _ HsB2 (HnzB _ HsB2) HcB HvB2
               (Z.le_refl 0) Hne Hfw).
    reflexivity.
  - intros Hnd. rewrite (after_calls_undestroyed A cs sA1 Hnd) in HsA3, HvA3.
    assert (W1 : wf w1) by (split; assumption).
    destruct HlA1 as [ndA HlA1].
    split; [congruence|].
    rewrite (read_tokens_eq _ _ _ _ HsA3 HvA3), (read_tokens_eq _ _ _ _ HsA1 HvA1).
    split; [reflexivity|]. split; [exists tsA1; reflexivity|].
    rewrite (logits_Some _ _ _ _ HsA3 HlA1), (logits_Some _ _ _ _ HsA1 HlA1).
    split; [reflexivity|]. cbn [fst]. destruct (toArray ndA); discriminate.
Qed.

(** *** More on sessions *)

Local Abbreviation keeps_fields := (@keeps_fields NDArray Pipeline).

#[local] Instance keeps_fields_refl i : Reflexive (keeps_fields i).
Proof. intros w s Hs. exists s. auto. Qed.

#[local] Instance keeps_fields_trans i : Transitive (keeps_fields i).
Proof.
  intros w1 w2 w3 H1 H2 s Hs.
  destruct (H1 s Hs) as (s1 & Hs1 & T1 & P1 & O1).
  destruct (H2 s1 Hs1) as (s2 & Hs2 & T2 & P2 & O2).
  exists s2. repeat split; congruence.
Qed.

Lemma keeps_fields_same i (w w' : World) : seqs w' = seqs w -> keeps_fields i w w'.
Proof. intros E s Hs. exists s. rewrite E. auto. Qed.

Lemma keeps_fields_set_logits i this l s (w : World) :
  seqs w !! this = Some s ->
  keeps_fields i w (with_seqs (fun sq => <[this := set_logits l s]> sq) w).
Proof.
  intros Hs s0 Hs0. cbn [with_seqs seqs]. destruct (decide (this = i)) as [->|Hne].
  - exists (set_logits l s). rewrite list_lookup_insert_eq by (eapply lookup_lt_Some; exact Hs).
    assert (s0 = s) by congruence. subst s0. auto.
  - exists s0. rewrite list_lookup_insert_ne by exact Hne. auto.
Qed.

#[local] Hint Extern 1 (keeps_fields _ _ (with_seqs _ _)) =>
  eapply keeps_fields_set_logits; eassumption : footprint.
#[local] Hint Extern 2 (keeps_fields _ _ _) =>
  apply keeps_fields_same; reflexivity : footprint.

Lemma keeps_fields_rest i this s appendTokens backtrack :
  respects (keeps_fields i)
    (advance_backtrack s backtrack;; advance_append this s appendTokens).
Proof.
  unfold advance_backtrack, advance_append. respects_steps; auto with footprint.
Qed.

Lemma keeps_fields_frame i this t (w w' : World) :
  this <> i -> frame this t w w' -> keeps_fields i w w'.
Proof.
  intros Hne (_ & _ & O & _) s Hs. exists s. rewrite O by congruence. auto.
Qed.

Lemma exec_keeps_fields i s c (w : World) :
  seqs w !! i = Some s -> _promptSize s <> 0 -> keeps_fields i w (exec c w).
Proof.
  intros Hs Hp.
  destruct c as [opts|this|this|this|this ap bk|this|this tmp sm|this m|this m|this|this|a v];
    cbn [exec].
  - rewrite createSequence_eq. intros s0 Hs0. exists s0. cbn [snd created seqs].
    split; [apply lookup_app_l_Some; exact Hs0|auto].
  - rewrite promptSize_pure. reflexivity.
  - rewrite tokensLeft_pure. reflexivity.
  - apply keeps_fields_same. apply (benign_tokens this w).
  - destruct (decide (this = i)) as [->|Hne].
    + destruct (decide (_window_ai_seq w = Some i)) as [Hc|Hc].
      * unfold advance. rewrite (bind_Ok _ _ _ _ _ (getSeq_Some _ _ _ Hs)).
        rewrite (bind_Ok _ _ _ _ _ (advance_prefill_active _ _ _ Hp Hc)).
        apply keeps_fields_rest.
      * rewrite (advance_displaced _ _ _ _ _ Hs Hp Hc). reflexivity.
    + destruct (seqs w !! this) as [st|] eqn:Hst.
      * eapply keeps_fields_frame; [exact Hne|]. eapply frame_advance; [exact Hst|reflexivity].
      * rewrite advance_dangling by exact Hst. reflexivity.
  - reflexivity.
  - apply keeps_fields_same. apply (benign_sample this tmp sm w).
  - apply keeps_fields_same. apply (benign_logProbs this m w).
  - apply keeps_fields_same. apply (benign_surprise this m w).
  - rewrite logits_pure. reflexivity.
  - destruct (decide (this = i)) as [->|Hne].
    + rewrite (destroy_eq _ _ _ Hs). cbn [snd]. unfold destroyed.
      intros s0 Hs0. assert (s0 = s) by congruence. subst s0.
      exists (set_logits None s). cbn [seqs].
      rewrite list_lookup_insert_eq by (eapply lookup_lt_Some; exact Hs). auto.
    + eapply keeps_fields_frame; [exact Hne|apply (frame_destroy this 0)].
  - destruct (is_private w a); [reflexivity|]. apply keeps_fields_same. reflexivity.
Qed.

(** X1.  Once a sequence has a non-zero prompt size, no call of any method
    on any sequence, and no write of a caller to an array it holds, changes
    that prompt size, its [_tokens] reference or its prompt. *)
Theorem promptSize_is_set_once i s (cs : list (Call F)) (w : World) :
  seqs w !! i = Some s -> _promptSize s <> 0 ->
  exists s', seqs (execs cs w) !! i = Some s'
    /\ _promptSize s' = _promptSize s
    /\ _tokens s' = _tokens s
    /\ _options s' = _options s.
Proof.
  unfold execs. revert s w. induction cs as [|c cs IH]; intros s w Hs Hp.
  - exists s. auto.
  - cbn [fold_left].
    destruct (exec_keeps_fields i s c w Hs Hp s Hs) as (s1 & Hs1 & T1 & P1 & O1).
    destruct (IH s1 (exec c w) Hs1 ltac:(congruence)) as (s2 & Hs2 & P2 & T2 & O2).
    exists s2. repeat split; congruence.
Qed.

(** X2.  In every world that calls lead to from the new engine, each
    sequence's [_tokens] refers to an allocated array, and no two sequences
    refer to the same array. *)
Theorem reachable_worlds_are_well_formed (cs : list (Call F)) (p : Pipeline) :
  wf (execs cs (init_world p : World)).
Proof. apply wf_execs, wf_init. Qed.

(** *** What one [advance] does *)

Lemma appended_lookup this s v ts nd p (w : World) :
  seqs w !! this = Some s -> arrays w !! _tokens s = Some v ->
  seqs (appended this s v ts nd p w) !! this = Some (set_logits (Some nd) s)
  /\ arrays (appended this s v ts nd p w) !! _tokens s = Some (v ++ ts).
Proof.
  intros Hs Hv. cbn [appended seqs arrays]. split.
  - apply list_lookup_insert_eq. eapply lookup_lt_Some. exact Hs.
  - apply list_lookup_insert_eq. eapply lookup_lt_Some. exact Hv.
Qed.

Lemma disposed_dispose_opt (o : option NDArray) (w : World) :
  disposed (dispose_opt o w) = disposed w ++ match o with Some nd => [nd] | None => [] end.
Proof. destruct o; cbn; [reflexivity|symmetry; apply app_nil_r]. Qed.

(** X3.  On an active sequence that holds the claim, [advance(ts)] with
    tokens returns as soon as the forward pass does, whatever the size of
    the context window.  Afterwards the history is the earlier one followed
    by [ts], [tokensLeft] is smaller by the number of tokens (no bound is
    checked: it may be negative), the prompt size is unchanged, [logits()]
    reads the buffer the forward pass returned, the earlier buffer has been
    disposed of once, the sequence still holds the claim, and no other
    sequence and no other array has changed. *)
Theorem advance_appends this s v nd p appendTokens (w : World) :
  seqs w !! this = Some s -> _promptSize s <> 0 -> _window_ai_seq w = Some this ->
  arrays w !! _tokens s = Some v -> appendTokens <> [] ->
  forwardTokens appendTokens (pipeline w) = (Some nd, p) ->
  let w' := snd (advance this appendTokens 0 w) in
  fst (advance this appendTokens 0 w) = Ok ()
  /\ fst (read_tokens this w') = Ok (v ++ appendTokens)
  /\ fst (tokensLeft this w') =
     Ok (context_window_size - _promptSize s - Z.of_nat (length v)
         - Z.of_nat (length appendTokens))
  /\ fst (promptSize this w') = Ok (_promptSize s)
  /\ fst (logits this w') =
     match toArray nd with Float32Array r => Ok r | OtherArray => Throw NotAFloat32Array end
  /\ disposed w' = disposed w ++ match _logits s with Some old => [old] | None => [] end
  /\ pipeline w' = p
  /\ _window_ai_seq w' = Some this
  /\ (forall i, i <> this -> seqs w' !! i = seqs w !! i)
  /\ (forall a, a <> _tokens s -> arrays w' !! a = arrays w !! a).
Proof.
  intros Hs Hp Hc Hv Hne Hf w'. subst w'.
  rewrite (advance_append_active _ _ _ _ _ _ _ _ Hs Hp Hc Hv (Z.le_refl 0) Hne Hf).
  cbn [fst snd].
  destruct (appended_lookup this s v appendTokens nd p w Hs Hv) as [Hs1 Hv1].
  split; [reflexivity|].
  split; [rewrite (read_tokens_eq _ _ _ _ Hs1 Hv1); reflexivity|].
  split.
  { rewrite (tokensLeft_eq _ _ _ _ Hs1 Hv1). cbn [fst set_logits _promptSize].
    rewrite length_app. f_equal. lia. }
  split; [rewrite (promptSize_eq _ _ _ Hs1 Hp); reflexivity|].
  split; [rewrite (logits_Some _ _ nd _ Hs1 eq_refl); reflexivity|].
  split; [apply disposed_dispose_opt|].
  split; [reflexivity|]. split; [exact Hc|]. split.
  - intros i Hi. cbn [appended seqs]. apply list_lookup_insert_ne. congruence.
  - intros a Ha. cbn [appended arrays]. apply list_lookup_insert_ne. congruence.
Qed.

Lemma primed_lookup this s nd p (w : World) :
  seqs w !! this = Some s ->
  seqs (primed this s nd p w) !! this =
  Some {| _tokens := _tokens s; _promptSize := filledKVCacheLength p;
          _logits := Some nd; _options := _options s |}.
Proof.
  intros Hs. cbn [primed seqs]. apply list_lookup_insert_eq. eapply lookup_lt_Some. exact Hs.
Qed.

Lemma advance_primes this s nd p (w : World) :
  seqs w !! this = Some s -> _promptSize s = 0 ->
  prefill (_options s) (pipeline w) = (Some (Some nd), p) ->
  advance this [] 0 w = (Ok (), primed this s nd p w).
Proof.
  intros Hs Hp Hf. unfold advance.
  rewrite (bind_Ok _ _ _ _ _ (getSeq_Some _ _ _ Hs)).
  rewrite (bind_Ok _ _ _ _ _ (advance_prefill_unprimed _ _ _ _ _ Hs Hp Hf)).
  reflexivity.
Qed.

(** X4.  The first [advance([])] of a sequence, when the prefill returns
    logits: it returns, takes the claim from whichever sequence held it,
    sets [lowLevel], records as prompt size the filled length of the KV
    cache that the pipeline reports and keeps the logits; the histories are
    untouched.  Every other primed sequence is from then on refused by
    [advance]. *)
Theorem first_advance_primes this s nd p (w : World) :
  seqs w !! this = Some s -> _promptSize s = 0 ->
  prefill (_options s) (pipeline w) = (Some (Some nd), p) ->
  let w' := snd (advance this [] 0 w) in
  fst (advance this [] 0 w) = Ok ()
  /\ _window_ai_seq w' = Some this
  /\ lowLevel w' = true
  /\ pipeline w' = p
  /\ seqs w' !! this =
     Some {| _tokens := _tokens s; _promptSize := filledKVCacheLength p;
             _logits := Some nd; _options := _options s |}
  /\ arrays w' = arrays w
  /\ disposed w' = disposed w ++ match _logits s with Some old => [old] | None => [] end
  /\ (filledKVCacheLength p <> 0 ->
      fst (promptSize this w') = Ok (filledKVCacheLength p))
  /\ (forall other so appendTokens backtrack,
        other <> this -> seqs w !! other = Some so -> _promptSize so <> 0 ->
        advance other appendTokens backtrack w' = (Throw CannotAdvanceDifferent, w')).
Proof.
  intros Hs Hp Hf w'. subst w'. rewrite (advance_primes _ _ _ _ _ Hs Hp Hf).
  cbn [fst snd]. pose proof (primed_lookup this s nd p w Hs) as Hs1.
  split; [reflexivity|]. split; [reflexivity|]. split; [reflexivity|].
  split; [reflexivity|]. split; [exact Hs1|]. split; [reflexivity|].
  split; [apply disposed_dispose_opt|]. split.
  - intros Hk. rewrite (promptSize_eq _ _ _ Hs1 Hk). reflexivity.
  - intros other so ts b Ho Hso Hpo. eapply advance_displaced; [|exact Hpo|].
    + cbn [primed seqs]. rewrite list_lookup_insert_ne by congruence. exact Hso.
    + cbn [primed _window_ai_seq]. congruence.
Qed.

(** X5.  The prompt size 0 is the mark of an unprimed sequence: when the
    pipeline reports a filled length of 0 after the prefill, [promptSize]
    still throws, and the next [advance([])] runs the prefill again, on the
    pipeline the first one left, and disposes of the logits of the first. *)
Theorem zero_prompt_length_primes_again this s nd p nd2 p2 (w : World) :
  seqs w !! this = Some s -> _promptSize s = 0 ->
  prefill (_options s) (pipeline w) = (Some (Some nd), p) ->
  filledKVCacheLength p = 0 ->
  prefill (_options s) p = (Some (Some nd2), p2) ->
  let w1 := snd (advance this [] 0 w) in
  let w2 := snd (advance this [] 0 w1) in
  fst (advance this [] 0 w) = Ok ()
  /\ fst (promptSize this w1) = Throw PromptSizeNotInitialized
  /\ fst (advance this [] 0 w1) = Ok ()
  /\ pipeline w2 = p2
  /\ disposed w2 = disposed w1 ++ [nd]
  /\ fst (logits this w2) =
     match toArray nd2 with Float32Array r => Ok r | OtherArray => Throw NotAFloat32Array end.
Proof.
  intros Hs Hp Hf Hz Hf2 w1 w2. subst w2 w1.
  rewrite (advance_primes _ _ _ _ _ Hs Hp Hf). cbn [fst snd].
  pose proof (primed_lookup this s nd p w Hs) as Hs1.
  set (s1 := {| _tokens := _tokens s; _promptSize := filledKVCacheLength p;
                _logits := Some nd; _options := _options s |}) in *.
  assert (Hp1 : _promptSize s1 = 0) by exact Hz.
  assert (Hf1 : prefill (_options s1) (pipeline (primed this s nd p w)) = (Some (Some nd2), p2))
    by exact Hf2.
  rewrite (advance_primes _ _ _ _ _ Hs1 Hp1 Hf1). cbn [fst snd].
  pose proof (primed_lookup this s1 nd2 p2 _ Hs1) as Hs2.
  split; [reflexivity|]. split.
  { unfold promptSize. rewrite (bind_Ok _ _ _ _ _ (getSeq_Some _ _ _ Hs1)).
    rewrite Hp1. reflexivity. }
  split; [reflexivity|]. split; [reflexivity|]. split; [reflexivity|].
  rewrite (logits_Some _ _ nd2 _ Hs2 eq_refl). reflexivity.
Qed.

(** *** When the engine fails *)

Lemma advance_prefill_fails this s r p (w : World) :
  seqs w !! this = Some s -> _promptSize s = 0 ->
  prefill (_options s) (pipeline w) = (r, p) -> r = None \/ r = Some None ->
  advance_prefill this s w =
  (Throw (match r with None => EngineRejected | Some _ => CantGetLogits end),
   with_pipeline p
     (with_lowLevel true
        (with_seqs (fun l => <[this := set_promptSize (-1) s]> l)
           (with_window_ai_seq (Some this) w)))).
Proof.
  intros Hs Hp Hf Hr. unfold advance_prefill. rewrite Hp. cbn [Z.eqb].
  unfold updSeq, await. unmonad. unfold getSeq. cbn. rewrite Hs. cbn. rewrite Hf.
  destruct Hr as [->| ->]; reflexivity.
Qed.

(** X6.  When the prefill of the first [advance] rejects or returns no
    logits, [advance] throws and leaves the sequence with prompt size -1,
    holding the claim, with [lowLevel] set: [promptSize] then returns -1
    without throwing, [tokensLeft] is one more than the context window
    allows, and no later [advance] runs a prefill: [advance([])] returns
    without effect and [advance(ts)] only appends and runs the forward
    pass. *)
Theorem failed_prefill_leaves_sequence_half_primed this s r p v (w : World) :
  seqs w !! this = Some s -> _promptSize s = 0 -> arrays w !! _tokens s = Some v ->
  prefill (_options s) (pipeline w) = (r, p) -> r = None \/ r = Some None ->
  forall appendTokens backtrack,
  let w1 := snd (advance this appendTokens backtrack w) in
  fst (advance this appendTokens backtrack w) =
    Throw (match r with None => EngineRejected | Some _ => CantGetLogits end)
  /\ seqs w1 !! this = Some (set_promptSize (-1) s)
  /\ _window_ai_seq w1 = Some this
  /\ lowLevel w1 = true
  /\ pipeline w1 = p
  /\ arrays w1 = arrays w
  /\ disposed w1 = disposed w
  /\ promptSize this w1 = (Ok (-1), w1)
  /\ fst (tokensLeft this w1) = Ok (context_window_size + 1 - Z.of_nat (length v))
  /\ advance this [] 0 w1 = (Ok (), w1)
  /\ (forall ts nd p', ts <> [] -> forwardTokens ts p = (Some nd, p') ->
        advance this ts 0 w1 =
        (Ok (), appended this (set_promptSize (-1) s) v ts nd p' w1)).
Proof.
  intros Hs Hp Hv Hf Hr appendTokens backtrack w1. subst w1.
  assert (E : advance this appendTokens backtrack w =
              (Throw (match r with None => EngineRejected | Some _ => CantGetLogits end),
               with_pipeline p
                 (with_lowLevel true
                    (with_seqs (fun l => <[this := set_promptSize (-1) s]> l)
                       (with_window_ai_seq (Some this) w))))).
  { unfold advance. rewrite (bind_Ok _ _ _ _ _ (getSeq_Some _ _ _ Hs)).
    apply bind_Throw. apply advance_prefill_fails; assumption. }
  rewrite E. cbn [fst snd]. set (w1 := with_pipeline p _).
  assert (Hs1 : seqs w1 !! this = Some (set_promptSize (-1) s)).
  { subst w1. cbn. apply list_lookup_insert_eq. eapply lookup_lt_Some. exact Hs. }
  assert (Hv1 : arrays w1 !! _tokens (set_promptSize (-1) s) = Some v) by exact Hv.
  assert (Hp1 : _promptSize (set_promptSize (-1) s) <> 0) by (cbn; lia).
  assert (Hc1 : _window_ai_seq w1 = Some this) by reflexivity.
  split; [reflexivity|]. split; [exact Hs1|]. split; [exact Hc1|].
  split; [reflexivity|]. split; [reflexivity|]. split; [reflexivity|].
  split; [reflexivity|].
  split; [apply (promptSize_eq _ _ _ Hs1 Hp1)|].
  split.
  { rewrite (tokensLeft_eq _ _ _ _ Hs1 Hv1). cbn [fst set_promptSize _promptSize].
    f_equal; lia. }
  split; [eapply advance_noop; eassumption|].
  intros ts nd p' Hne Hfw.
  eapply advance_append_active; try eassumption. lia.
Qed.

Lemma advance_append_rejected_world this s v appendTokens p (w : World) :
  appendTokens <> [] ->
  seqs w !! this = Some s -> arrays w !! _tokens s = Some v ->
  forwardTokens appendTokens (pipeline w) = (None, p) ->
  advance_append this s appendTokens w =
  (Throw EngineRejected,
   with_pipeline p
     (dispose_opt (_logits s)
        (with_arrays (fun l => <[_tokens s := v ++ appendTokens]> l) w))).
Proof.
  intros Hne Hs Hv Hf. unfold advance_append.
  destruct appendTokens as [|t ts]; [contradiction|]. cbn [length Nat.ltb Nat.leb].
  set (w1 := with_arrays (fun l => <[_tokens s := v ++ t :: ts]> l) w).
  rewrite (bind_Ok _ _ _ _ _ (updArray_Some _ _ _ _ Hv)). fold w1.
  assert (Hs1 : seqs w1 !! this = Some s) by exact Hs.
  rewrite (bind_Ok _ _ _ _ _ (disposeLogits_Some _ _ _ Hs1)).
  apply bind_Throw. unfold await.
  assert (Hpl : pipeline (dispose_opt (_logits s) w1) = pipeline w)
    by (destruct (_logits s); reflexivity).
  rewrite Hpl, Hf. reflexivity.
Qed.

(** X7.  When the forward pass of [advance(ts)] rejects, on an active
    sequence that holds the claim and has logits: [advance] throws, yet the
    tokens are in the history already and [_logits] still refers to the
    buffer that was disposed of just before the forward pass, so [logits()]
    reads a disposed buffer and a later [destroy()] disposes of it a second
    time. *)
Theorem rejected_forward_keeps_disposed_logits this s old v p appendTokens (w : World) :
  seqs w !! this = Some s -> _promptSize s <> 0 -> _window_ai_seq w = Some this ->
  arrays w !! _tokens s = Some v -> _logits s = Some old -> appendTokens <> [] ->
  forwardTokens appendTokens (pipeline w) = (None, p) ->
  let w1 := snd (advance this appendTokens 0 w) in
  fst (advance this appendTokens 0 w) = Throw EngineRejected
  /\ fst (read_tokens this w1) = Ok (v ++ appendTokens)
  /\ seqs w1 = seqs w
  /\ disposed w1 = disposed w ++ [old]
  /\ old ∈ disposed w1
  /\ fst (logits this w1) =
     match toArray old with Float32Array r => Ok r | OtherArray => Throw NotAFloat32Array end
  /\ disposed (snd (destroy this w1)) = disposed w ++ [old; old].
Proof.
  intros Hs Hp Hc Hv Hl Hne Hf w1. subst w1.
  assert (E : advance this appendTokens 0 w =
              (Throw EngineRejected,
               with_pipeline p
                 (dispose_opt (_logits s)
                    (with_arrays (fun l => <[_tokens s := v ++ appendTokens]> l) w)))).
  { unfold advance. rewrite (bind_Ok _ _ _ _ _ (getSeq_Some _ _ _ Hs)).
    rewrite (bind_Ok _ _ _ _ _ (advance_prefill_active _ _ _ Hp Hc)).
    rewrite (bind_Ok _ _ _ _ _ (advance_backtrack_none _ _ _ (Z.le_refl 0))).
    apply advance_append_rejected_world; assumption. }
  rewrite E. cbn [fst snd]. rewrite Hl. cbn [dispose_opt].
  set (w1 := with_pipeline p _).
  assert (Hs1 : seqs w1 !! this = Some s) by exact Hs.
  assert (Hv1 : arrays w1 !! _tokens s = Some (v ++ appendTokens)).
  { subst w1. cbn. apply list_lookup_insert_eq. eapply lookup_lt_Some. exact Hv. }
  assert (Hd1 : disposed w1 = disposed w ++ [old]) by reflexivity.
  split; [reflexivity|].
  split; [rewrite (read_tokens_eq _ _ _ _ Hs1 Hv1); reflexivity|].
  split; [reflexivity|]. split; [exact Hd1|].
  split; [rewrite Hd1; apply elem_of_app; right; left|].
  split; [rewrite (logits_Some _ _ old _ Hs1 Hl); reflexivity|].
  rewrite (destroy_eq _ _ _ Hs1). cbn [snd destroyed disposed].
  rewrite disposed_dispose_opt, Hl, Hd1, <- app_assoc. reflexivity.
Qed.

(** *** Who writes the history of a sequence *)

Lemma exec_keeps_history i s v c (w : World) :
  wf w -> seqs w !! i = Some s -> arrays w !! _tokens s = Some v ->
  is_advance_of i c = false ->
  seqs (exec c w) !! i = Some (after_call i c s)
  /\ arrays (exec c w) !! _tokens s = Some v.
Proof.
  intros W Hs Hv Hc.
  assert (Hbenign : forall w', benign w w' ->
            seqs w' !! i = Some s /\ arrays w' !! _tokens s = Some v).
  { intros w' (Es & _ & l & El). rewrite Es, El. split; [exact Hs|].
    apply lookup_app_l_Some. exact Hv. }
  destruct c as [opts|this|this|this|this ap bk|this|this tmp sm|this m|this m|this|this|a u];
    cbn [exec after_call].
  - rewrite createSequence_eq. cbn [snd created seqs arrays].
    split; apply lookup_app_l_Some; assumption.
  - apply Hbenign, (benign_promptSize this w).
  - apply Hbenign, (benign_tokensLeft this w).
  - apply Hbenign, (benign_tokens this w).
  - cbn [is_advance_of] in Hc. apply Nat.eqb_neq in Hc.
    destruct (seqs w !! this) as [st|] eqn:Hst.
    + pose proof (frame_advance this (_tokens st) ap bk w st Hst eq_refl)
        as (_ & _ & O & _ & R & _).
      rewrite O by congruence. split; [exact Hs|]. rewrite R; [exact Hv|].
      intros E. destruct W as [_ W2]. apply Hc. symmetry. exact (W2 _ _ _ _ Hs Hst E).
    + rewrite advance_dangling by exact Hst. split; assumption.
  - apply Hbenign, (benign_clone this w).
  - apply Hbenign, (benign_sample this tmp sm w).
  - apply Hbenign, (benign_logProbs this m w).
  - apply Hbenign, (benign_surprise this m w).
  - apply Hbenign, (benign_logits this w).
  - pose proof (frame_destroy this (S (_tokens s)) w) as (_ & _ & O & _ & R & _).
    rewrite R by lia. split; [|exact Hv].
    destruct (decide (this = i)) as [->|Hne].
    + rewrite (destroy_eq _ _ _ Hs). cbn [snd destroyed seqs].
      apply list_lookup_insert_eq. eapply lookup_lt_Some. exact Hs.
    + rewrite O by congruence. exact Hs.
  - destruct (is_private w a) eqn:Hpriv; [split; assumption|].
    cbn [with_arrays seqs arrays]. split; [exact Hs|].
    rewrite list_lookup_insert_ne; [exact Hv|].
    intros ->. rewrite (is_private_lookup w i s Hs) in Hpriv. discriminate.
Qed.

Lemma execs_keeps_history i s v cs (w : World) :
  wf w -> seqs w !! i = Some s -> arrays w !! _tokens s = Some v ->
  Forall (fun c => is_advance_of i c = false) cs ->
  seqs (execs cs w) !! i = Some (after_calls i cs s)
  /\ arrays (execs cs w) !! _tokens s = Some v.
Proof.
  unfold execs, after_calls. intros W Hs Hv Hcs. revert s w W Hs Hv.
  induction Hcs as [|c cs Hc Hcs IH]; intros s w W Hs Hv; [split; assumption|].
  cbn [fold_left].
  destruct (exec_keeps_history i s v c w W Hs Hv Hc) as [Hs1 Hv1].
  destruct (after_call_fields i c s) as (ET & _).
  rewrite <- ET in Hv1 |- *.
  apply IH; [apply wf_exec; exact W|exact Hs1|exact Hv1].
Qed.

(** X8.  The history of a sequence is written by its own [advance] only:
    over any calls that are not an [advance] of this sequence (methods of
    other sequences, [advance] of others included, its own other methods,
    writes of a caller to arrays it holds) the [tokens] and [tokensLeft] of
    the sequence stay what they were, whether or not it is primed or holds
    the claim. *)
Theorem history_changes_only_by_own_advance i s v (cs : list (Call F)) (w : World) :
  wf w -> seqs w !! i = Some s -> arrays w !! _tokens s = Some v ->
  Forall (fun c => is_advance_of i c = false) cs ->
  fst (read_tokens i (execs cs w)) = Ok v
  /\ fst (tokensLeft i (execs cs w)) =
     Ok (context_window_size - _promptSize s - Z.of_nat (length v)).
Proof.
  intros W Hs Hv Hcs.
  destruct (execs_keeps_history i s v cs w W Hs Hv Hcs) as [Hs1 Hv1].
  destruct (after_calls_fields i cs s) as (ET & EP & _).
  rewrite <- ET in Hv1.
  rewrite (read_tokens_eq _ _ _ _ Hs1 Hv1), (tokensLeft_eq _ _ _ _ Hs1 Hv1), EP.
  split; reflexivity.
Qed.

(** *** Methods that observe *)

Lemma await_fields {A} (call : Pipeline -> option A * Pipeline) (w : World) :
  seqs (snd (await call w)) = seqs w
  /\ _window_ai_seq (snd (await call w)) = _window_ai_seq w
  /\ lowLevel (snd (await call w)) = lowLevel w
  /\ disposed (snd (await call w)) = disposed w
  /\ arrays (snd (await call w)) = arrays w.
Proof. unfold await. destruct (call (pipeline w)) as [[a|] p]; repeat split. Qed.

Lemma sample_fields this tmp sm (w : World) :
  seqs (snd (sample this tmp sm w)) = seqs w
  /\ _window_ai_seq (snd (sample this tmp sm w)) = _window_ai_seq w
  /\ lowLevel (snd (sample this tmp sm w)) = lowLevel w
  /\ disposed (snd (sample this tmp sm w)) = disposed w
  /\ arrays (snd (sample this tmp sm w)) = arrays w.
Proof.
  unfold sample. unmonad. unfold getSeq.
  destruct (seqs w !! this) as [s|]; [|repeat split].
  destruct (_logits s); [apply await_fields|repeat split].
Qed.

Lemma tokens_fields this (w : World) :
  seqs (snd (tokens this w)) = seqs w
  /\ _window_ai_seq (snd (tokens this w)) = _window_ai_seq w
  /\ lowLevel (snd (tokens this w)) = lowLevel w
  /\ disposed (snd (tokens this w)) = disposed w
  /\ pipeline (snd (tokens this w)) = pipeline w
  /\ exists l, arrays (snd (tokens this w)) = arrays w ++ l.
Proof.
  unfold tokens. unmonad. unfold getSeq, getArray, newArray.
  destruct (seqs w !! this) as [s|]; cbn.
  - destruct (arrays w !! _tokens s) as [v|]; cbn; repeat split;
      eexists; try reflexivity; symmetry; apply app_nil_r.
  - repeat split. exists []. symmetry. apply app_nil_r.
Qed.

Lemma logProbs_pure this m (w : World) : snd (logProbs_method this m w) = w.
Proof.
  unfold logProbs_method. unmonad. pose proof (logits_pure this w) as E.
  destruct (logits this w) as [[l|e] w']; cbn in E |- *; exact E.
Qed.

Lemma surprise_pure this m (w : World) : snd (surprise_method this m w) = w.
Proof.
  unfold surprise_method. unmonad. pose proof (logits_pure this w) as E.
  destruct (logits this w) as [[l|e] w']; cbn in E |- *; exact E.
Qed.

(** X9.  The accessors, [clone], [sample], [logProbs], [surprise] and
    [logits] change no sequence, not the claim, not [lowLevel], and dispose
    of nothing; no array that exists is touched.  Only reading [tokens]
    allocates (the copy), only [sample] runs the pipeline, and all the
    others leave the world exactly as it was: in particular [sample] does
    not append the token it returns, and [logProbs] leaves the logits of
    the sequence as they are. *)
Theorem observers_change_nothing (c : Call F) (w : World) :
  is_observer c = true ->
  seqs (exec c w) = seqs w
  /\ _window_ai_seq (exec c w) = _window_ai_seq w
  /\ lowLevel (exec c w) = lowLevel w
  /\ disposed (exec c w) = disposed w
  /\ (exists l, arrays (exec c w) = arrays w ++ l)
  /\ ((forall this, c <> GetTokens this) -> arrays (exec c w) = arrays w)
  /\ ((forall this tmp sm, c <> Sample this tmp sm) -> pipeline (exec c w) = pipeline w)
  /\ ((forall this, c <> GetTokens this) -> (forall this tmp sm, c <> Sample this tmp sm) ->
      exec c w = w).
Proof.
  intros Hc.
  assert (Hsame : forall w', w' = w ->
            seqs w' = seqs w /\ _window_ai_seq w' = _window_ai_seq w
            /\ lowLevel w' = lowLevel w /\ disposed w' = disposed w
            /\ (exists l, arrays w' = arrays w ++ l)
            /\ ((forall this, c <> GetTokens this) -> arrays w' = arrays w)
            /\ ((forall this tmp sm, c <> Sample this tmp sm) -> pipeline w' = pipeline w)
            /\ ((forall this, c <> GetTokens this) ->
                (forall this tmp sm, c <> Sample this tmp sm) -> w' = w)).
  { intros w' ->. repeat split; auto. exists []. symmetry. apply app_nil_r. }
  destruct c as [opts|this|this|this|this ap bk|this|this tmp sm|this m|this m|this|this|a u];
    cbn [is_observer] in Hc; try discriminate Hc; cbn [exec].
  - apply Hsame, promptSize_pure.
  - apply Hsame, tokensLeft_pure.
  - destruct (tokens_fields this w) as (E1 & E2 & E3 & E4 & E5 & E6).
    repeat split; auto.
    + intros Hn. destruct (Hn this eq_refl).
    + intros Hn. destruct (Hn this eq_refl).
  - apply Hsame. reflexivity.
  - destruct (sample_fields this tmp sm w) as (E1 & E2 & E3 & E4 & E5).
    repeat split; auto.
    + exists []. rewrite E5. symmetry. apply app_nil_r.
    + intros Hn. destruct (Hn this tmp sm eq_refl).
    + intros _ Hn. destruct (Hn this tmp sm eq_refl).
  - apply Hsame, logProbs_pure.
  - apply Hsame, surprise_pure.
  - apply Hsame, logits_pure.
Qed.

(** *** A sequence that holds the claim, step by step *)

Local Abbreviation holds := (@holds NDArray Pipeline).

Lemma holds_sample sequence t ps v tmp sm (w : World) :
  holds sequence t ps v w -> holds sequence t ps v (snd (sample sequence tmp sm w)).
Proof.
  intros (s & Hs & Ht & Hp & Hc & Hv).
  destruct (sample_fields sequence tmp sm w) as (E1 & E2 & _ & _ & E5).
  exists s. rewrite E1, E2, E5. auto.
Qed.

Lemma holds_advance sequence t ps v appendTokens (w : World) :
  ps <> 0 -> holds sequence t ps v w ->
  holds sequence t ps (v ++ appendTokens) (snd (advance sequence appendTokens 0 w)).
Proof.
  intros Hps (s & Hs & <- & <- & Hc & Hv).
  destruct appendTokens as [|a l].
  { rewrite (advance_noop _ _ _ Hs Hps Hc), app_nil_r. exists s. auto. }
  assert (Hne : a :: l <> []) by discriminate.
  pose proof (lookup_lt_Some _ _ _ Hs) as Hlt.
  pose proof (lookup_lt_Some _ _ _ Hv) as Hlt'.
  destruct (forwardTokens (a :: l) (pipeline w)) as [[nd|] p] eqn:Hf.
  - rewrite (advance_append_active _ _ _ _ _ _ _ _ Hs Hps Hc Hv (Z.le_refl 0) Hne Hf).
    destruct (appended_lookup sequence s v (a :: l) nd p w Hs Hv) as [Hs1 Hv1].
    exists (set_logits (Some nd) s). cbn [snd]. auto.
  - unfold advance. rewrite (bind_Ok _ _ _ _ _ (getSeq_Some _ _ _ Hs)).
    rewrite (bind_Ok _ _ _ _ _ (advance_prefill_active _ _ _ Hps Hc)).
    rewrite (bind_Ok _ _ _ _ _ (advance_backtrack_none _ _ _ (Z.le_refl 0))).
    rewrite (advance_append_rejected_world _ _ _ _ _ _ Hne Hs Hv Hf). cbn [snd].
    exists s. destruct (_logits s); cbn; repeat split; auto;
      apply list_lookup_insert_eq; exact Hlt'.
Qed.

Lemma holds_destroy sequence t ps v (w : World) :
  holds sequence t ps v w ->
  fst (destroy sequence w) = Ok ()
  /\ _window_ai_seq (snd (destroy sequence w)) = None
  /\ fst (logits sequence (snd (destroy sequence w))) = Throw NoLogits
  /\ fst (read_tokens sequence (snd (destroy sequence w))) = Ok v
  /\ (ps <> 0 -> fst (promptSize sequence (snd (destroy sequence w))) = Ok ps).
Proof.
  intros (s & Hs & <- & <- & Hc & Hv). rewrite (destroy_eq _ _ _ Hs). cbn [fst snd].
  assert (Hs1 : seqs (destroyed sequence s w) !! sequence = Some (set_logits None s)).
  { cbn [destroyed seqs]. apply list_lookup_insert_eq. eapply lookup_lt_Some. exact Hs. }
  assert (Hv1 : arrays (destroyed sequence s w) !! _tokens (set_logits None s) = Some v)
    by exact Hv.
  split; [reflexivity|]. split.
  { cbn [destroyed _window_ai_seq].
    destruct (decide (_window_ai_seq w = Some sequence)); [reflexivity|contradiction]. }
  split; [rewrite (logits_None _ _ _ Hs1 eq_refl); reflexivity|].
  split; [rewrite (read_tokens_eq _ _ _ _ Hs1 Hv1); reflexivity|].
  intros Hps. rewrite (promptSize_eq _ _ _ Hs1 Hps). reflexivity.
Qed.

Lemma holds_read sequence t ps v (w : World) :
  holds sequence t ps v w ->
  fst (read_tokens sequence w) = Ok v
  /\ _window_ai_seq w = Some sequence
  /\ (ps <> 0 -> fst (promptSize sequence w) = Ok ps).
Proof.
  intros (s & Hs & <- & <- & Hc & Hv).
  rewrite (read_tokens_eq _ _ _ _ Hs Hv). split; [reflexivity|]. split; [exact Hc|].
  intros Hps. rewrite (promptSize_eq _ _ _ Hs Hps). reflexivity.
Qed.

End SessionProperties.

(** ** The session claims on the small engine *)

Section Demo.

#[local] Existing Instance demo_engine.

Local Abbreviation Seq := (MlcAiSequence (list Z)).

(** One sequence, primed, then advanced by the tokens 1 and 2. *)
Lemma advance_empty_is_noop_witness :
  let w1 := demo_run [CreateSequence []; Advance 0 [] 0; Advance 0 [1; 2] 0] in
  advance 0 [] 0 w1 = (Ok (), w1)
  /\ fst (read_tokens 0 (snd (advance 0 [] 0 w1))) = Ok [1; 2].
Proof.
  intros w1.
  pose (w := demo_run [CreateSequence []; Advance 0 [] 0]).
  pose (s := {| _tokens := 0; _promptSize := 3; _logits := Some [0; 0; 0; 0; 0];
                _options := [] |} : Seq).
  assert (Hs : seqs w !! 0%nat = Some s) by (vm_compute; reflexivity).
  assert (Hp : _promptSize s <> 0) by discriminate.
  assert (Hc : _window_ai_seq w = Some 0%nat) by (vm_compute; reflexivity).
  assert (Hv : arrays w !! _tokens s = Some []) by (vm_compute; reflexivity).
  assert (E : advance 0 [1; 2] 0 w = (Ok (), w1)) by (vm_compute; reflexivity).
  destruct (advance_empty_is_noop 0 s [] 1 2 w w1 Hs Hp Hc Hv E) as (_ & H1 & H2 & _).
  split; [exact H1|exact H2].
Defined.



(** Where [advance] does throw the backtracking error, the history has
    already been cut: after [advance([1, 2])], [advance([], 1)] throws and
    [tokens] is [1]. *)
Lemma advance_backtrack_truncates :
  let w := demo_run [CreateSequence []; Advance 0 [1; 2] 0] in
  fst (read_tokens 0 w) = Ok [1; 2]
  /\ fst (advance 0 [] 1 w) = Throw BacktrackingNotImplemented
  /\ fst (read_tokens 0 (snd (advance 0 [] 1 w))) = Ok [1].
Proof. vm_compute. repeat split. Qed.

(** Two sequences prime one after the other; then the first one's tokens
    are read, the second advances and samples. *)
Lemma displaced_session_witness :
  let w2 := demo_run [CreateSequence []; CreateSequence [];
                      Advance 0 [] 0; Advance 1 [] 0] in
  let w3 := execs [GetTokens 0; Advance 1 [7] 0; Sample 1 None None] w2 in
  advance 0 [1] 0 w3 = (Throw CannotAdvanceDifferent, w3)
  /\ fst (advance 1 [1] 0 w2) = Ok ()
  /\ fst (read_tokens 0 w3) = Ok [].
Proof.
  intros w2 w3.
  pose (w0 := demo_run [CreateSequence []; CreateSequence []]).
  pose (w1 := demo_run [CreateSequence []; CreateSequence []; Advance 0 [] 0]).
  pose (sA := {| _tokens := 0; _promptSize := 0; _logits := None; _options := [] |} : Seq).
  pose (sB := {| _tokens := 1; _promptSize := 0; _logits := None; _options := [] |} : Seq).
  assert (W0 : wf w0) by (apply wf_execs, wf_init).
  assert (HAB : 0%nat <> 1%nat) by discriminate.
  assert (HsA : seqs w0 !! 0%nat = Some sA) by (vm_compute; reflexivity).
  assert (EA : advance 0 [] 0 w0 = (Ok (), w1)) by (vm_compute; reflexivity).
  assert (HnzA : forall s : Seq, seqs w1 !! 0%nat = Some s -> _promptSize s <> 0).
  { intros s E. vm_compute in E. injection E as <-. discriminate. }
  assert (HsB : seqs w1 !! 1%nat = Some sB) by (vm_compute; reflexivity).
  assert (EB : advance 1 [] 0 w1 = (Ok (), w2)) by (vm_compute; reflexivity).
  assert (HnzB : forall s : Seq, seqs w2 !! 1%nat = Some s -> _promptSize s <> 0).
  { intros s E. vm_compute in E. injection E as <-. discriminate. }
  destruct (displaced_session 0 1 sA sB [] []
              [GetTokens 0; Advance 1 [7] 0; Sample 1 None None] w0 w1 w2
              W0 HAB HsA eq_refl EA HnzA HsB eq_refl EB HnzB) as (H1 & H2 & H3).
  split; [exact (H1 [1] 0)|]. split.
  - apply (H2 [1] [1; 0; 0; 0; 0; 0] 4); [discriminate|vm_compute; reflexivity].
  - destruct H3 as (_ & Ht & _).
    + intros Hin. repeat (apply elem_of_cons in Hin as [Hin|Hin]; [discriminate|]).
      apply elem_of_nil in Hin. exact Hin.
    + fold w3 in Ht. rewrite Ht. vm_compute. reflexivity.
Defined.

(** C3 on the small engine: [createSequence], then [logits()]. *)
Example logits_of_fresh_sequence_demo :
  fst (logits 0 (demo_run [CreateSequence []])) = Throw NoLogits
  /\ pipeline (snd (logits 0 (demo_run [CreateSequence []]))) = 0.
Proof. vm_compute. split; reflexivity. Qed.

(** A sequence with the history [1, 2] is destroyed; an [advance] and a
    read of [tokens] follow. *)
Lemma destroyed_sequence_operations_witness :
  let w1 := demo_run [CreateSequence []; Advance 0 [1; 2] 0; Destroy 0;
                      Advance 0 [3] 0; GetTokens 0] in
  advance 0 [4] 0 w1 = (Throw CannotAdvanceDifferent, w1)
  /\ logits 0 w1 = (Throw NoLogits, w1)
  /\ fst (read_tokens 0 w1) = Ok [1; 2]
  /\ promptSize 0 w1 = (Ok 3, w1).
Proof.
  intros w1.
  pose (w := demo_run [CreateSequence []; Advance 0 [1; 2] 0]).
  pose (s := {| _tokens := 0; _promptSize := 3; _logits := Some [1; 2; 0; 0; 0; 0; 0];
                _options := [] |} : Seq).
  assert (W : wf w) by (apply wf_execs, wf_init).
  assert (Hs : seqs w !! 0%nat = Some s) by (vm_compute; reflexivity).
  assert (Hv : arrays w !! _tokens s = Some [1; 2]) by (vm_compute; reflexivity).
  assert (Hp : _promptSize s <> 0) by discriminate.
  destruct (destroyed_sequence_operations 0 s [1; 2] [Advance 0 [3] 0; GetTokens 0] w
              W Hs Hv Hp) as (H1 & H2 & _ & H4 & H5 & _).
  split; [exact (H1 [4] 0)|]. split; [exact H2|]. split; [exact H4|exact H5].
Defined.

(** C5 as stated fails: after [destroy()] the [tokens] and [tokensLeft]
    properties still return, and a sequence destroyed before its first
    [advance] can still be advanced. *)
Lemma destroyed_sequence_counterexample :
  let w := demo_run [CreateSequence []; Advance 0 [1; 2] 0; Destroy 0] in
  let w' := demo_run [CreateSequence []; Destroy 0] in
  fst (read_tokens 0 w) = Ok [1; 2]
  /\ fst (tokensLeft 0 w) = Ok 2043
  /\ fst (advance 0 [1] 0 w') = Ok ()
  /\ fst (logits 0 (snd (advance 0 [1] 0 w'))) = Ok [Fin 1; Fin 0; Fin 0; Fin 0; Fin 0; Fin 0].
Proof. vm_compute. repeat split. Qed.

(** A primed sequence that holds logits and the claim is destroyed twice;
    a new sequence then primes. *)
Lemma destroy_idempotent_witness :
  let w := demo_run [CreateSequence []; Advance 0 [] 0] in
  let w1 := snd (destroy 0 w) in
  fst (destroy 0 w) = Ok ()
  /\ destroy 0 w1 = (Ok (), w1)
  /\ disposed w1 = [[0; 0; 0; 0; 0]]
  /\ _window_ai_seq w1 = None
  /\ fst (advance 1 [] 0 (created [] w1)) = Ok ().
Proof.
  intros w w1.
  pose (s := {| _tokens := 0; _promptSize := 3; _logits := Some [0; 0; 0; 0; 0];
                _options := [] |} : Seq).
  assert (Hs : seqs w !! 0%nat = Some s) by (vm_compute; reflexivity).
  destruct (destroy_idempotent 0 s w Hs) as (H1 & H2 & _ & H4 & H5 & _ & H7).
  split; [exact H1|]. split; [exact H2|]. split; [exact H4|].
  split; [apply H5; vm_compute; reflexivity|].
  destruct (H7 [] [] 0) as (_ & _ & _ & H8).
  apply (H8 [0; 0; 0; 0; 0] 3). vm_compute. reflexivity.
Defined.

(** The history [1, 2] is read and the array that came back is overwritten. *)
Lemma tokens_is_a_copy_witness :
  let w := demo_run [CreateSequence []; Advance 0 [1; 2] 0] in
  let w2 := exec (WriteArray 1 [9; 9; 9]) (snd (tokens 0 w)) in
  tokens 0 w = (Ok 1%nat, with_arrays (fun l => l ++ [[1; 2]]) w)
  /\ arrays w2 !! 1%nat = Some [9; 9; 9]
  /\ fst (read_tokens 0 w2) = Ok [1; 2].
Proof.
  intros w w2.
  pose (s := {| _tokens := 0; _promptSize := 3; _logits := Some [1; 2; 0; 0; 0; 0; 0];
                _options := [] |} : Seq).
  assert (W : wf w) by (apply wf_execs, wf_init).
  assert (Hs : seqs w !! 0%nat = Some s) by (vm_compute; reflexivity).
  assert (Hv : arrays w !! _tokens s = Some [1; 2]) by (vm_compute; reflexivity).
  destruct (tokens_is_a_copy 0 s [1; 2] w W Hs Hv) as (H1 & _ & _ & _ & _ & H6 & _).
  split; [exact H1|]. split; [vm_compute; reflexivity|].
  destruct (H6 [9; 9; 9]) as (_ & _ & _ & _ & _ & H7).
  subst w2. rewrite H1. exact H7.
Defined.

End Demo.

(** ** Bulk token metadata *)











Section TokenInfoProperties.

Variable tok : Tokenizer.





(** The loop stops at the first id that is not written tok well. *)
Lemma tokenInfo_loop_Throw done entries i rest acc :
  Forall2 (written tok) done entries ->
  (forall e, ~ written tok i e) ->
  tokenInfo_loop tok (done ++ i :: rest) acc =
  match token_entry tok i with
  | Ok _ => Throw (TokenTooLong i)
  | Throw e => Throw e
  end.
Proof.
  intros HF Hi. revert acc. induction HF as [|j [sp bytes] ids entries [Ej Hl] HF IH]; intros acc.
  - cbn [app tokenInfo_loop]. destruct (token_entry tok i) as [[sp bytes]|e] eqn:Ei; [|reflexivity].
    destruct (0xff <? length bytes)%nat eqn:Hl; [reflexivity|].
    exfalso. apply (Hi (sp, bytes)). split; [exact Ei|apply Nat.ltb_ge; exact Hl].
  - cbn [app tokenInfo_loop]. rewrite Ej. cbn [snd] in Hl.
    apply Nat.ltb_ge in Hl. rewrite Hl. apply IH.
Qed.





Lemma vocab_ids_length : length (vocab_ids tok) = Z.to_nat (getVocabSize tok).
Proof. unfold vocab_ids. rewrite length_map, length_seq. reflexivity. Qed.

Lemma vocab_ids_lookup (k : nat) :
  (k < Z.to_nat (getVocabSize tok))%nat -> vocab_ids tok !! k = Some (Z.of_nat k).
Proof.
  intros Hk. unfold vocab_ids. rewrite list_lookup_fmap.
  rewrite lookup_seq_lt by exact Hk. reflexivity.
Qed.




Lemma written_dec i : (exists e, written tok i e) \/ (forall e, ~ written tok i e).
Proof.
  unfold written. destruct (token_entry tok i) as [[sp bytes]|e].
  - destruct (le_lt_dec (length bytes) 255) as [Hl|Hl].
    + left. exists (sp, bytes). auto.
    + right. intros e [Ee Hle]. injection Ee as <-. cbn [snd] in Hle. lia.
  - right. intros e' [Ee _]. discriminate.
Qed.



End TokenInfoProperties.


(** *** The small tokenizers *)






(** ** More on masks and the probability utilities *)

Section MoreMasks.

(** X10.  For an index below 2^32, [isAllowed] is bit [i mod 32] of the word
    [i / 32] of the mask, bit 31 included (where [1 << 31] is negative), and
    a word past the end of the mask reads as 0. *)
Theorem isAllowed_reads_bit (mask : Uint32Array) (i : Z) :
  0 <= i < 2 ^ 32 ->
  isAllowed mask i = Z.testbit (nth (Z.to_nat (i / 32)) mask 0) (i mod 32).
Proof. apply isAllowed_testbit. Qed.

Lemma isAllowed_reads_bit_witness :
  isAllowed [0; 2147483648] 63 = Z.testbit (nth (Z.to_nat (63 / 32)) [0; 2147483648] 0) (63 mod 32).
Proof. apply isAllowed_reads_bit. change (2 ^ 32) with 4294967296. lia. Defined.

(** X11.  A mask that is shorter than the vocabulary excludes every token
    past its last word: with a mask given, an index at or beyond 32 times
    its length is masked out. *)
Theorem masked_out_past_end (mask : Uint32Array) (i : nat) :
  (32 * length mask <= i)%nat -> Z.of_nat i < 2 ^ 32 ->
  masked_out (Some mask) i = true.
Proof.
  intros Hlen Hi. cbn [masked_out]. rewrite isAllowed_testbit by lia.
  rewrite nth_overflow; [rewrite Z.bits_0; reflexivity|].
  assert (Z.of_nat (32 * length mask) <= Z.of_nat i) by lia.
  assert (Z.of_nat (length mask) <= Z.of_nat i / 32).
  { apply Z.div_le_lower_bound; lia. }
  lia.
Qed.

Lemma masked_out_past_end_witness : masked_out (Some [4294967295]) 32 = true.
Proof. apply masked_out_past_end; [cbn; lia|change (2 ^ 32) with 4294967296; lia]. Defined.

End MoreMasks.

Section MoreRealProbability.

Local Open Scope R_scope.










End MoreRealProbability.

(** ** The tokenizer methods of [MlcAIModel] *)

Section ModelTokenizerProperties.

Variable tok : Tokenizer.

Lemma differ_false x y : differ x (Some y) = false <-> x = Some y.
Proof.
  destruct x as [a|]; cbn; [|split; discriminate].
  rewrite negb_false_iff, Z.eqb_eq. split; congruence.
Qed.

Lemma prefix_loop_true r p i n :
  prefix_loop r p i n = true <->
  forall k, (i <= k < i + n)%nat -> differ (r !! k) (p !! k) = false.
Proof.
  revert i. induction n as [|n IH]; intros i; cbn [prefix_loop].
  - split; [intros _ k Hk; lia|reflexivity].
  - destruct (differ (r !! i) (p !! i)) eqn:E.
    + split; [discriminate|]. intros Hk. specialize (Hk i ltac:(lia)). congruence.
    + rewrite IH. split; intros Hk k Hr.
      * destruct (decide (k = i)) as [->|Hne]; [exact E|apply Hk; lia].
      * apply Hk. lia.
Qed.

(** The loop runs through exactly when [p] is a prefix of [r]. *)
Lemma prefix_loop_prefix r p :
  prefix_loop r p 0 (length p) = true <-> r = p ++ drop (length p) r.
Proof.
  rewrite prefix_loop_true. split.
  - intros Hk. rewrite <- (take_drop (length p) r) at 1. f_equal.
    apply list_eq. intros k. destruct (decide (k < length p)%nat) as [Hlt|Hge].
    + rewrite lookup_take_lt by exact Hlt.
      destruct (lookup_lt_is_Some_2 p k Hlt) as [b Hb].
      specialize (Hk k ltac:(lia)). rewrite Hb in Hk |- *.
      apply differ_false. exact Hk.
    + rewrite lookup_take_ge by lia. symmetry. apply lookup_ge_None. lia.
  - intros E k Hk. destruct (lookup_lt_is_Some_2 p k ltac:(lia)) as [b Hb].
    rewrite Hb. apply differ_false. rewrite E. rewrite lookup_app_l by lia. exact Hb.
Qed.

Lemma tokenizeExact_eq this text options :
  tokenizeExact tok this text options =
  (let p := fst (getTokPrefix tok this) in
   let r := tok_encode tok (TOKENIZER_PREFIX ++ text) in
   if prefix_loop r p 0 (length p) then Some (drop (length p) r) else None,
   match tokPrefix this with
   | None => {| tokPrefix := Some (tok_encode tok TOKENIZER_PREFIX);
                tokPrefix0 := tokPrefix0 this |}
   | Some _ => this
   end).
Proof.
  unfold tokenizeExact, getTokPrefix. destruct (tokPrefix this) as [p|] eqn:E.
  - rewrite E. reflexivity.
  - reflexivity.
Qed.

Lemma tokenizeExact_Some this text options res :
  fst (tokenizeExact tok this text options) = Some res <->
  tok_encode tok (TOKENIZER_PREFIX ++ text) = fst (getTokPrefix tok this) ++ res.
Proof.
  rewrite tokenizeExact_eq. cbn [fst].
  set (p := fst (getTokPrefix tok this)).
  set (r := tok_encode tok (TOKENIZER_PREFIX ++ text)).
  destruct (prefix_loop r p 0 (length p)) eqn:E.
  - apply prefix_loop_prefix in E. split.
    + intros [= <-]. exact E.
    + intros E'. f_equal. rewrite E'. rewrite drop_app_length. reflexivity.
  - split; [discriminate|]. intros E'. exfalso.
    assert (E2 : prefix_loop r p 0 (length p) = true).
    { apply prefix_loop_prefix. rewrite E' at 1. rewrite E'.
      rewrite drop_app_length. reflexivity. }
    congruence.
Qed.

Lemma last_default (l : list Z) : default 0 (last l) = List.last l 0.
Proof.
  induction l as [|a [|b l] IH]; [reflexivity|reflexivity|].
  exact IH.
Qed.

Lemma decoded_with_new i :
  decoded_with tok (tokPrefix0 (snd (getTokPrefix tok createAIModel))) i = decoded tok i.
Proof.
  unfold decoded_with, decoded, tokPref, getTokPrefix. cbn [createAIModel tokPrefix snd tokPrefix0].
  rewrite last_default. reflexivity.
Qed.

Lemma bytes_of_text_entry i :
  bytes_of_text tok (decoded tok i) i =
  if isSpecialToken (decoded tok i) then Ok []
  else match token_entry tok i with
       | Ok (_, bytes) => Ok bytes
       | Throw e => Throw e
       end.
Proof.
  unfold bytes_of_text, token_entry.
  destruct (isSpecialToken (decoded tok i)); [reflexivity|].
  destruct (JsString.includes (decoded tok i) REPLACEMENT_CHARACTER); [|reflexivity].
  destruct (JsString.startsWith (idToToken tok i) (lit "<0x")); [reflexivity|].
  destruct (JsString.eqb (idToToken tok i) (decoded tok i)); reflexivity.
Qed.


Lemma tokenBytes_settled this p i :
  tokPrefix this = Some p -> snd (tokenBytes tok this i) = this.
Proof. intros E. unfold tokenBytes, getTokPrefix. rewrite E. reflexivity. Qed.

Lemma tokenizeExact_settled this p text options :
  tokPrefix this = Some p -> snd (tokenizeExact tok this text options) = this.
Proof. intros E. rewrite tokenizeExact_eq. cbn [snd]. rewrite E. reflexivity. Qed.

End ModelTokenizerProperties.

(** X14.  [tokenizeExact(text)] returns [res] exactly when the encoding of
    [TOKENIZER_PREFIX + text] is the encoding of the prefix (the cached one
    if there is one) followed by [res], and throws exactly when it does not
    start with that prefix, also when it is shorter than the prefix; the
    options are not looked at.  Afterwards the prefix is cached. *)
Theorem tokenizeExact_round_trip (tok : Tokenizer) this text options :
  let p := fst (getTokPrefix tok this) in
  let r := tok_encode tok (TOKENIZER_PREFIX ++ text) in
  (forall res, fst (tokenizeExact tok this text options) = Some res <-> r = p ++ res)
  /\ (fst (tokenizeExact tok this text options) = None <-> forall res, r <> p ++ res)
  /\ fst (tokenizeExact tok this text options) = fst (tokenizeExact tok this text None)
  /\ tokPrefix (snd (tokenizeExact tok this text options)) = Some p.
Proof.
  intros p r. split; [|split; [|split]].
  - intros res. apply tokenizeExact_Some.
  - split.
    + intros E res Hr. apply (tokenizeExact_Some tok this text options) in Hr. congruence.
    + intros Hn. destruct (fst (tokenizeExact tok this text options)) as [res|] eqn:E;
        [|reflexivity].
      apply tokenizeExact_Some in E. destruct (Hn res E).
  - reflexivity.
  - rewrite tokenizeExact_eq. cbn [snd]. subst p. unfold getTokPrefix.
    destruct (tokPrefix this) as [q|] eqn:E; [exact E|reflexivity].
Qed.

(** X15.  The token that [tokenBytes] puts in front of the id depends on
    which method ran first.  On a new model [tokenBytes] decodes behind the
    last token of the encoded prefix; when [tokenizeExact] ran first, the
    prefix is cached but [tokPrefix0] was never assigned, so [tokenBytes]
    decodes behind token 0; and once the prefix is cached no method changes
    the model again. *)
Theorem tokenBytes_prefix_token_depends_on_order (tok : Tokenizer) text options i :
  fst (tokenBytes tok createAIModel i) = bytes_of_text tok (decoded tok i) i
  /\ fst (tokenBytes tok (snd (tokenizeExact tok createAIModel text options)) i) =
     bytes_of_text tok (JsString.slice 1 (tok_decode tok [0; Int32.toInt32 i])) i
  /\ (forall this p j text' options',
        tokPrefix this = Some p ->
        snd (tokenBytes tok this j) = this
        /\ snd (tokenizeExact tok this text' options') = this).
Proof.
  split; [|split].
  - unfold tokenBytes. cbn [fst]. rewrite decoded_with_new. reflexivity.
  - reflexivity.
  - intros this p j text' options' E.
    split; [eapply tokenBytes_settled|eapply tokenizeExact_settled]; exact E.
Qed.

(** With [prefix_tokenizer] the two orders give different bytes for the
    letter token. *)
Example tokenBytes_order_demo :
  fst (tokenBytes prefix_tokenizer createAIModel 0) = Ok [97]
  /\ fst (tokenBytes prefix_tokenizer
            (snd (tokenizeExact prefix_tokenizer createAIModel (lit "a") None)) 0)
     = Ok [117; 110; 107; 62; 97].
Proof. vm_compute. split; reflexivity. Qed.

(** X16.  On a new model [tokenBytes(i)] is the empty array when the
    decoded text of [i] is a special string, and otherwise what the token
    metadata of [tokenInfo] holds for [i]: the same bytes, and "Invalid
    token" where [tokenInfo] throws it.  So when [tokenInfo] returned, the
    bytes of every id of the vocabulary can be read off its entries. *)
Theorem tokenBytes_agrees_with_tokenInfo (tok : Tokenizer) :
  (forall i,
     fst (tokenBytes tok createAIModel i) =
     if isSpecialToken (decoded tok i) then Ok []
     else match token_entry tok i with
          | Ok (_, bytes) => Ok bytes
          | Throw e => Throw e
          end)
  /\ (forall entries (k : nat) isSpecial bytes,
        Forall2 (written tok) (vocab_ids tok) entries ->
        entries !! k = Some (isSpecial, bytes) ->
        fst (tokenBytes tok createAIModel (Z.of_nat k)) =
        Ok (if isSpecialToken (decoded tok (Z.of_nat k)) then [] else bytes)).
Proof.
  assert (H1 : forall i,
     fst (tokenBytes tok createAIModel i) =
     if isSpecialToken (decoded tok i) then Ok []
     else match token_entry tok i with
          | Ok (_, bytes) => Ok bytes
          | Throw e => Throw e
          end).
  { intros i. unfold tokenBytes. cbn [fst]. rewrite decoded_with_new.
    apply bytes_of_text_entry. }
  split; [exact H1|].
  intros entries k isSpecial bytes HF Hk. rewrite H1.
  destruct (isSpecialToken (decoded tok (Z.of_nat k))); [reflexivity|].
  destruct (Forall2_lookup_r _ _ _ _ _ HF Hk) as (i & Hi & [Hw _]).
  assert (Hlt : (k < Z.to_nat (getVocabSize tok))%nat).
  { rewrite <- vocab_ids_length. eapply lookup_lt_Some. exact Hi. }
  rewrite vocab_ids_lookup in Hi by exact Hlt. injection Hi as <-.
  rewrite Hw. reflexivity.
Qed.



(** Two texts with the small tokenizer, which puts token 7 in front of the
    code units: the encoding of [\x02 a] starts with the encoded prefix
    [7, 2]; with the cached prefix [9] it does not. *)
Lemma tokenizeExact_round_trip_witness :
  fst (tokenizeExact (demo_tokenizer 4) createAIModel (lit "a") None) = Some [97]
  /\ fst (tokenizeExact (demo_tokenizer 4)
            {| tokPrefix := Some [9]; tokPrefix0 := Some 0 |} (lit "a") None) = None.
Proof.
  destruct (tokenizeExact_round_trip (demo_tokenizer 4) createAIModel (lit "a") None)
    as (H1 & _).
  destruct (tokenizeExact_round_trip (demo_tokenizer 4)
              {| tokPrefix := Some [9]; tokPrefix0 := Some 0 |} (lit "a") None)
    as (_ & H2 & _).
  split.
  - apply H1. vm_compute. reflexivity.
  - apply H2. intros res E. vm_compute in E. discriminate E.
Defined.

(** The model after [tokenizeExact] on a new one is left alone by both
    methods. *)
Lemma tokenBytes_prefix_token_depends_on_order_witness :
  let this := snd (tokenizeExact prefix_tokenizer createAIModel (lit "a") None) in
  fst (tokenBytes prefix_tokenizer this 0) = Ok [117; 110; 107; 62; 97]
  /\ snd (tokenBytes prefix_tokenizer this 0) = this.
Proof.
  intros this.
  destruct (tokenBytes_prefix_token_depends_on_order prefix_tokenizer (lit "a") None 0)
    as (_ & H2 & H3).
  split.
  - fold this in H2. rewrite H2. vm_compute. reflexivity.
  - apply (H3 this [7; 2] 0 [] None). vm_compute. reflexivity.
Defined.

(** The three tokens of the small tokenizer: the letter, the special token
    (no bytes from [tokenBytes], seven in the metadata) and the raw byte. *)
Lemma tokenBytes_agrees_with_tokenInfo_witness :
  fst (tokenBytes (demo_tokenizer 3) createAIModel 0) = Ok [97]
  /\ fst (tokenBytes (demo_tokenizer 3) createAIModel 1) = Ok []
  /\ fst (tokenBytes (demo_tokenizer 3) createAIModel 2) = Ok [128].
Proof.
  destruct (tokenBytes_agrees_with_tokenInfo (demo_tokenizer 3)) as [_ H].
  assert (HF : Forall2 (written (demo_tokenizer 3)) (vocab_ids (demo_tokenizer 3))
                 [(false, [97]); (true, [60; 124; 101; 111; 116; 124; 62]); (false, [128])]).
  { repeat constructor; cbn; lia. }
  split; [|split].
  - apply (H _ 0%nat _ _ HF eq_refl).
  - apply (H _ 1%nat _ _ HF eq_refl).
  - apply (H _ 2%nat _ _ HF eq_refl).
Defined.

(** ** Where [tokenInfo] fails *)

Section TokenInfoFailure.

Variable tok : Tokenizer.

Lemma token_entry_Throw i e : token_entry tok i = Throw e -> e = InvalidToken i.
Proof.
  unfold token_entry.
  destruct (JsString.includes (decoded tok i) REPLACEMENT_CHARACTER); [|discriminate].
  destruct (JsString.startsWith (idToToken tok i) (lit "<0x")); [discriminate|].
  destruct (JsString.eqb (idToToken tok i) (decoded tok i)); [discriminate|].
  intros [= <-]. reflexivity.
Qed.

Lemma tokenInfo_loop_fails ids acc e :
  tokenInfo_loop tok ids acc = Throw e -> exists i, fails_at tok ids i e.
Proof.
  revert acc. induction ids as [|i ids IH]; intros acc; cbn [tokenInfo_loop]; [discriminate|].
  destruct (token_entry tok i) as [[isSpecial bytes]|e'] eqn:E.
  - destruct (0xff <? length bytes)%nat eqn:L.
    + intros [= <-]. exists i, [], ids, []. split; [reflexivity|]. split; [constructor|].
      right. split; [reflexivity|]. exists isSpecial, bytes. split; [exact E|].
      apply Nat.ltb_lt in L. exact L.
    + intros H. destruct (IH _ H) as (j & done & rest & entries & -> & HF & Hj).
      exists j, (i :: done), rest, ((isSpecial, bytes) :: entries).
      split; [reflexivity|]. split; [|exact Hj].
      constructor; [|exact HF]. split; [exact E|].
      apply Nat.ltb_ge in L. cbn [snd]. exact L.
  - intros [= <-]. exists i, [], ids, []. split; [reflexivity|]. split; [constructor|].
    left. pose proof (token_entry_Throw i e' E) as ->. split; [reflexivity|exact E].
Qed.

Lemma fails_at_not_written ids i e :
  fails_at tok ids i e -> forall x, ~ written tok i x.
Proof.
  intros (_ & _ & _ & _ & _ & [[_ E]|(_ & sp & bytes & E & L)]) x [Hx Hl].
  - congruence.
  - rewrite E in Hx. injection Hx as <-. cbn [snd] in Hl. lia.
Qed.

Lemma fails_at_tokenInfo_loop ids acc i e :
  fails_at tok ids i e -> tokenInfo_loop tok ids acc = Throw e.
Proof.
  intros Hf. pose proof (fails_at_not_written ids i e Hf) as Hn.
  destruct Hf as (done & rest & entries & -> & HF & Hi).
  rewrite (tokenInfo_loop_Throw tok done entries i rest acc HF Hn).
  destruct Hi as [[-> E]|(-> & sp & bytes & E & L)]; rewrite E; reflexivity.
Qed.

Lemma fails_at_vocab i e :
  fails_at tok (vocab_ids tok) i e -> 0 <= i < getVocabSize tok.
Proof.
  intros (done & rest & entries & E & _).
  assert (Hlt : (length done < Z.to_nat (getVocabSize tok))%nat).
  { rewrite <- (vocab_ids_length tok), E, length_app. cbn [length]. lia. }
  pose proof (vocab_ids_lookup tok (length done) Hlt) as Hk.
  rewrite E in Hk. rewrite list_lookup_middle in Hk by reflexivity.
  injection Hk as ->. lia.
Qed.

End TokenInfoFailure.

(** X18.  [tokenInfo] throws [e] exactly when some id [i] of the
    vocabulary, all ids before it written, has a text with U+FFFD whose
    name neither starts with [<0x] nor equals the text ([e] is "Invalid
    token" at [i]) or has more than 255 bytes ([e] is "Token too long" at
    [i]); it throws nothing else, and nothing once every id is written. *)
Theorem tokenInfo_fails_at_first_bad_id (tok : Tokenizer) e :
  (tokenInfo tok = Throw e <-> exists i, fails_at tok (vocab_ids tok) i e)
  /\ (forall i, fails_at tok (vocab_ids tok) i e ->
        0 <= i < getVocabSize tok /\ (e = InvalidToken i \/ e = TokenTooLong i)).
Proof.
  split.
  - unfold tokenInfo. split.
    + destruct (tokenInfo_loop tok (vocab_ids tok) []) as [out|e'] eqn:E; [discriminate|].
      intros [= <-]. eapply tokenInfo_loop_fails. exact E.
    + intros [i Hf]. rewrite (fails_at_tokenInfo_loop tok _ [] i e Hf). reflexivity.
  - intros i Hf. split; [eapply fails_at_vocab; exact Hf|].
    destruct Hf as (_ & _ & _ & _ & _ & [[-> _]|[-> _]]); [left|right]; reflexivity.
Qed.

(** The fourth token of a variant of the small tokenizer is named
    differently from its text, which holds U+FFFD. *)
Lemma tokenInfo_fails_at_first_bad_id_witness :
  tokenInfo misnamed_tokenizer = Throw (InvalidToken 3)
  /\ tokenInfo long_tokenizer = Throw (TokenTooLong 0).
Proof.
  split.
  - apply (tokenInfo_fails_at_first_bad_id misnamed_tokenizer (InvalidToken 3)).
    exists 3, [0; 1; 2], [],
      [(false, [97]); (true, [60; 124; 101; 111; 116; 124; 62]); (false, [128])].
    split; [reflexivity|]. split; [repeat constructor; cbn; lia|].
    left. split; reflexivity.
  - apply (tokenInfo_fails_at_first_bad_id long_tokenizer (TokenTooLong 0)).
    exists 0, [], [], []. split; [reflexivity|]. split; [constructor|].
    right. split; [reflexivity|]. exists false, (repeat 97 256).
    split; [vm_compute; reflexivity|]. rewrite repeat_length. lia.
Defined.

(** ** The example [genText] *)

Section GenTextProperties.

Context {F NDArray Pipeline : Type} `{JsNum F} `{Engine F NDArray Pipeline}.

Variable tok : Tokenizer.
Variable stopTokens : Pipeline -> list Z.
Context {TextDecoder : Type}.
Variable new_TextDecoder : TextDecoder.
Variable decode_stream : list Z -> TextDecoder -> jsstring * TextDecoder.
Variable decode_end : TextDecoder -> jsstring * TextDecoder.

Local Abbreviation World := (World NDArray Pipeline).
Local Abbreviation gen_loop := (genText_loop tok stopTokens decode_stream).
Local Abbreviation chunks_text := (decode_chunks decode_stream).

Lemma tokenBytes_after_getTokPrefix this j :
  fst (tokenBytes tok (snd (getTokPrefix tok this)) j) = fst (tokenBytes tok this j).
Proof.
  unfold tokenBytes, getTokPrefix. destruct (tokPrefix this) as [p|] eqn:E; cbn [fst snd].
  - rewrite E. reflexivity.
  - reflexivity.
Qed.

(** The loop appends at most [n] tokens and keeps the claim; when it comes
    to its end, [output] has grown by the streamed text of their bytes. *)
Lemma genText_loop_holds n sequence t ps v decoder output tokenizer (w : World) :
  ps <> 0 -> holds sequence t ps v w ->
  exists ts,
    (length ts <= n)%nat
    /\ holds sequence t ps (v ++ ts)
         (snd (gen_loop n sequence decoder output tokenizer w))
    /\ forall out d,
         fst (fst (gen_loop n sequence decoder output tokenizer w)) = Ok (out, d) ->
         exists chunks,
           Forall2 (fun token bytes => fst (tokenBytes tok tokenizer token) = Ok bytes)
             ts chunks
           /\ out = output ++ fst (chunks_text chunks decoder)
           /\ d = snd (chunks_text chunks decoder).
Proof.
  intros Hps. revert v decoder output tokenizer w.
  induction n as [|n IH]; intros v decoder output tokenizer w Hh.
  - exists []. cbn. rewrite app_nil_r. split; [lia|]. split; [exact Hh|].
    intros out d [= <- <-]. exists []. split; [constructor|].
    cbn. rewrite app_nil_r. split; reflexivity.
  - cbn [genText_loop].
    pose proof (holds_sample sequence t ps v None None w Hh) as Hh1.
    destruct (sample sequence None None w) as [[token|e] w1]; cbn [snd] in Hh1.
    2:{ exists []. rewrite app_nil_r. cbn. split; [lia|]. split; [exact Hh1|].
        intros out d E. discriminate E. }
    destruct (is_eos stopTokens token w1).
    { exists []. rewrite app_nil_r. cbn. split; [lia|]. split; [exact Hh1|].
      intros out d [= <- <-]. exists []. split; [constructor|].
      cbn. rewrite app_nil_r. split; reflexivity. }
    pose proof (holds_advance sequence t ps v [token] w1 Hps Hh1) as Hh2.
    destruct (advance sequence [token] 0 w1) as [[[]|e] w2]; cbn [snd] in Hh2.
    2:{ exists [token]. cbn. split; [lia|]. split; [exact Hh2|].
        intros out d E. discriminate E. }
    pose proof (tokenBytes_after_getTokPrefix tokenizer) as Hafter.
    destruct (tokenBytes tok tokenizer token) as [[bytes|e] tokenizer'] eqn:Eb.
    2:{ exists [token]. cbn. split; [lia|]. split; [exact Hh2|].
        intros out d E. discriminate E. }
    assert (Et : tokenizer' = snd (getTokPrefix tok tokenizer)).
    { unfold tokenBytes in Eb. injection Eb as _ <-. reflexivity. }
    destruct (decode_stream bytes decoder) as [s0 decoder'] eqn:Ed.
    destruct (IH (v ++ [token]) decoder' (output ++ s0) tokenizer' w2 Hh2)
      as (ts & Hlen & Hh3 & Hout).
    exists (token :: ts). split; [cbn [length]; lia|]. split.
    { rewrite <- app_assoc in Hh3. exact Hh3. }
    intros out d E. destruct (Hout out d E) as (chunks & HF & -> & ->).
    exists (bytes :: chunks). split.
    { constructor; [rewrite Eb; reflexivity|].
      eapply Forall2_impl; [exact HF|]. intros tk bs Hb. cbn beta in Hb |- *.
      rewrite Et, Hafter in Hb. exact Hb. }
    cbn [decode_chunks]. rewrite Ed.
    destruct (chunks_text chunks decoder') as [s1 d1]. cbn [fst snd].
    rewrite app_assoc. split; reflexivity.
Qed.

(** X19.  [genText] on a sequence that holds the claim: it appends at most
    [maxTokens] tokens to the history and leaves the prompt size alone.
    When it returns, the sequence has been destroyed (the claim is
    released, [logits()] finds nothing) and the text is what the decoder
    makes of the bytes of the appended tokens, streamed in order, and of
    the final flush.  When it throws, whatever the reason, the sequence has
    not been destroyed: it still holds the claim. *)
Theorem genText_appends_then_destroys tokenizer sequence maxTokens s v (w : World) :
  seqs w !! sequence = Some s -> _promptSize s <> 0 ->
  _window_ai_seq w = Some sequence -> arrays w !! _tokens s = Some v ->
  let r := genText tok stopTokens new_TextDecoder decode_stream decode_end
             tokenizer sequence maxTokens w in
  exists ts,
    (length ts <= maxTokens)%nat
    /\ fst (read_tokens sequence (snd r)) = Ok (v ++ ts)
    /\ fst (promptSize sequence (snd r)) = Ok (_promptSize s)
    /\ match fst (fst r) with
       | Ok out =>
           _window_ai_seq (snd r) = None
           /\ fst (logits sequence (snd r)) = Throw NoLogits
           /\ exists chunks,
                Forall2 (fun token bytes => fst (tokenBytes tok tokenizer token) = Ok bytes)
                  ts chunks
                /\ out = fst (decode_chunks decode_stream chunks new_TextDecoder)
                         ++ fst (decode_end
                                   (snd (decode_chunks decode_stream chunks new_TextDecoder)))
       | Throw _ => _window_ai_seq (snd r) = Some sequence
       end.
Proof.
  intros Hs Hps Hc Hv r. subst r.
  assert (Hh : holds sequence (_tokens s) (_promptSize s) v w) by (exists s; auto).
  destruct (genText_loop_holds maxTokens sequence _ _ v new_TextDecoder [] tokenizer w
              Hps Hh) as (ts & Hlen & Hh1 & Hout).
  exists ts. split; [exact Hlen|]. unfold genText.
  destruct (gen_loop maxTokens sequence new_TextDecoder [] tokenizer w)
    as [[[[output decoder]|e] tokenizer'] w1]; cbn [fst snd] in Hh1, Hout.
  - destruct (decode_end decoder) as [s0 d0] eqn:Ee.
    destruct (holds_destroy sequence _ _ _ w1 Hh1) as (D1 & D2 & D3 & D4 & D5).
    destruct (destroy sequence w1) as [[[]|e] w2]; cbn [fst snd] in *; [|discriminate D1].
    split; [exact D4|]. split; [exact (D5 Hps)|]. split; [exact D2|]. split; [exact D3|].
    destruct (Hout output decoder eq_refl) as (chunks & HF & -> & ->).
    exists chunks. split; [exact HF|]. rewrite Ee. reflexivity.
  - destruct (holds_read sequence _ _ _ w1 Hh1) as (R1 & R2 & R3).
    cbn [fst snd]. split; [exact R1|]. split; [exact (R3 Hps)|exact R2].
Qed.

(** X20.  [genText] does not prime: on a sequence without logits, one
    fresh from [createSequence] for instance, it throws "No logits" at the
    first [sample()] when [maxTokens] is positive, and nothing has changed:
    no prefill has run and the sequence is not destroyed. *)
Theorem genText_needs_logits tokenizer sequence maxTokens s (w : World) :
  seqs w !! sequence = Some s -> _logits s = None -> (0 < maxTokens)%nat ->
  genText tok stopTokens new_TextDecoder decode_stream decode_end
    tokenizer sequence maxTokens w
  = (Throw NoLogits, tokenizer, w).
Proof.
  intros Hs Hl Hm. destruct maxTokens as [|n]; [lia|].
  unfold genText. cbn [genText_loop].
  rewrite (sample_None _ _ None None _ Hs Hl). reflexivity.
Qed.

End GenTextProperties.

(** ** The added properties on the small engines *)

Section DemoSessions.

#[local] Existing Instance demo_engine.

Local Abbreviation Seq := (MlcAiSequence (list Z)).

(** A primed sequence is advanced by the tokens 1 and 2. *)
Lemma advance_appends_witness :
  let w := demo_run [CreateSequence []; Advance 0 [] 0] in
  let w' := snd (advance 0 [1; 2] 0 w) in
  fst (advance 0 [1; 2] 0 w) = Ok ()
  /\ fst (read_tokens 0 w') = Ok [1; 2]
  /\ fst (tokensLeft 0 w') = Ok 2043
  /\ disposed w' = [[0; 0; 0; 0; 0]].
Proof.
  intros w w'.
  pose (s := {| _tokens := 0; _promptSize := 3; _logits := Some [0; 0; 0; 0; 0];
                _options := [] |} : Seq).
  assert (Hs : seqs w !! 0%nat = Some s) by (vm_compute; reflexivity).
  assert (Hp : _promptSize s <> 0) by discriminate.
  assert (Hc : _window_ai_seq w = Some 0%nat) by (vm_compute; reflexivity).
  assert (Hv : arrays w !! _tokens s = Some []) by (vm_compute; reflexivity).
  assert (Hne : [1; 2] <> []) by discriminate.
  assert (Hf : forwardTokens [1; 2] (pipeline w) = (Some [1; 2; 0; 0; 0; 0; 0], 5))
    by (vm_compute; reflexivity).
  destruct (advance_appends 0 s [] _ _ [1; 2] w Hs Hp Hc Hv Hne Hf)
    as (H1 & H2 & H3 & _ & _ & H6 & _).
  split; [exact H1|]. split; [exact H2|]. split; [exact H3|exact H6].
Defined.

(** A new sequence primes while another one holds the claim. *)
Lemma first_advance_primes_witness :
  let w := demo_run [CreateSequence []; Advance 0 [] 0; CreateSequence []] in
  let w' := snd (advance 1 [] 0 w) in
  fst (advance 1 [] 0 w) = Ok ()
  /\ _window_ai_seq w' = Some 1%nat
  /\ fst (promptSize 1 w') = Ok 3
  /\ advance 0 [7] 0 w' = (Throw CannotAdvanceDifferent, w').
Proof.
  intros w w'.
  pose (s := {| _tokens := 1; _promptSize := 0; _logits := None; _options := [] |} : Seq).
  pose (s0 := {| _tokens := 0; _promptSize := 3; _logits := Some [0; 0; 0; 0; 0];
                 _options := [] |} : Seq).
  assert (Hs : seqs w !! 1%nat = Some s) by (vm_compute; reflexivity).
  assert (Hf : prefill (_options s) (pipeline w) = (Some (Some [0; 0; 0; 0; 0]), 3))
    by (vm_compute; reflexivity).
  destruct (first_advance_primes 1 s _ _ w Hs eq_refl Hf)
    as (H1 & H2 & _ & _ & _ & _ & _ & H8 & H9).
  split; [exact H1|]. split; [exact H2|]. split.
  - apply H8. vm_compute. discriminate.
  - apply (H9 0%nat s0); [discriminate|vm_compute; reflexivity|discriminate].
Defined.

(** Sequence 0 is primed; then other things happen, its own [advance]
    included. *)
Lemma promptSize_is_set_once_witness :
  let w := demo_run [CreateSequence []; Advance 0 [] 0] in
  let cs := [CreateSequence []; Advance 1 [] 0; Advance 0 [1] 0; Destroy 0;
             Advance 1 [2] 0] in
  exists s', seqs (execs cs w) !! 0%nat = Some s' /\ _promptSize s' = 3.
Proof.
  intros w cs.
  pose (s := {| _tokens := 0; _promptSize := 3; _logits := Some [0; 0; 0; 0; 0];
                _options := [] |} : Seq).
  assert (Hs : seqs w !! 0%nat = Some s) by (vm_compute; reflexivity).
  assert (Hp : _promptSize s <> 0) by discriminate.
  destruct (promptSize_is_set_once 0 s cs w Hs Hp) as (s' & Hs' & Hp' & _).
  exists s'. split; [exact Hs'|exact Hp'].
Defined.

(** Sequence 0 has the history [1, 2]; a second sequence primes and
    advances, sequence 0 is destroyed, a caller overwrites the copy it got. *)
Lemma history_changes_only_by_own_advance_witness :
  let w := demo_run [CreateSequence []; Advance 0 [1; 2] 0] in
  let cs := [CreateSequence []; Advance 1 [7] 0; GetTokens 0; WriteArray 2 [9];
             Destroy 0; Sample 1 None None] in
  fst (read_tokens 0 (execs cs w)) = Ok [1; 2]
  /\ fst (tokensLeft 0 (execs cs w)) = Ok 2043.
Proof.
  intros w cs.
  pose (s := {| _tokens := 0; _promptSize := 3; _logits := Some [1; 2; 0; 0; 0; 0; 0];
                _options := [] |} : Seq).
  assert (W : wf w) by (apply wf_execs, wf_init).
  assert (Hs : seqs w !! 0%nat = Some s) by (vm_compute; reflexivity).
  assert (Hv : arrays w !! _tokens s = Some [1; 2]) by (vm_compute; reflexivity).
  assert (Hcs : Forall (fun c => is_advance_of 0 c = false) cs)
    by (repeat constructor).
  exact (history_changes_only_by_own_advance 0 s [1; 2] cs w W Hs Hv Hcs).
Defined.

(** [sample()] on a primed sequence. *)
Lemma observers_change_nothing_witness :
  let w := demo_run [CreateSequence []; Advance 0 [1; 2] 0] in
  fst (sample 0 None None w) = Ok 4
  /\ seqs (exec (Sample 0 None None) w) = seqs w
  /\ arrays (exec (Sample 0 None None) w) = arrays w.
Proof.
  intros w.
  destruct (observers_change_nothing (Sample 0 None None) w eq_refl)
    as (H1 & _ & _ & _ & _ & H6 & _).
  split; [vm_compute; reflexivity|]. split; [exact H1|].
  apply H6. intros this. discriminate.
Defined.

End DemoSessions.

Section DemoZeroPrompt.

#[local] Existing Instance zero_prompt_engine.

Local Abbreviation Seq := (MlcAiSequence (list Z)).

(** The engine reports the prompt length 0: the second [advance([])]
    prefills again. *)
Lemma zero_prompt_length_primes_again_witness :
  let w := execs [CreateSequence []] (init_world 0) in
  let w1 := snd (advance 0 [] 0 w) in
  let w2 := snd (advance 0 [] 0 w1) in
  fst (promptSize 0 w1) = Throw PromptSizeNotInitialized
  /\ pipeline w2 = 2
  /\ disposed w2 = [[5]].
Proof.
  intros w w1 w2.
  pose (s := {| _tokens := 0; _promptSize := 0; _logits := None; _options := [] |} : Seq).
  assert (Hs : seqs w !! 0%nat = Some s) by (vm_compute; reflexivity).
  assert (Hf : prefill (_options s) (pipeline w) = (Some (Some [5]), 1))
    by (vm_compute; reflexivity).
  assert (Hz : filledKVCacheLength 1 = 0) by reflexivity.
  assert (Hf2 : prefill (_options s) 1 = (Some (Some [5]), 2)) by (vm_compute; reflexivity).
  destruct (zero_prompt_length_primes_again 0 s _ _ _ _ w Hs eq_refl Hf Hz Hf2)
    as (_ & H2 & _ & H4 & H5 & _).
  split; [exact H2|]. split; [exact H4|].
  unfold w2, w1. rewrite H5. vm_compute. reflexivity.
Defined.

End DemoZeroPrompt.

Section DemoNoLogits.

#[local] Existing Instance no_logits_engine.

Local Abbreviation Seq := (MlcAiSequence (list Z)).

(** The prefill resolves to [undefined]; afterwards the sequence is
    advanced by the token 1 without a prefill. *)
Lemma failed_prefill_leaves_sequence_half_primed_witness :
  let w := execs [CreateSequence []] (init_world 0) in
  let w1 := snd (advance 0 [] 0 w) in
  fst (advance 0 [] 0 w) = Throw CantGetLogits
  /\ promptSize 0 w1 = (Ok (-1), w1)
  /\ fst (tokensLeft 0 w1) = Ok 9
  /\ fst (advance 0 [1] 0 w1) = Ok ()
  /\ fst (promptSize 0 (snd (advance 0 [1] 0 w1))) = Ok (-1).
Proof.
  intros w w1.
  pose (s := {| _tokens := 0; _promptSize := 0; _logits := None; _options := [] |} : Seq).
  assert (Hs : seqs w !! 0%nat = Some s) by (vm_compute; reflexivity).
  assert (Hv : arrays w !! _tokens s = Some []) by (vm_compute; reflexivity).
  assert (Hf : prefill (_options s) (pipeline w) = (Some None, 1))
    by (vm_compute; reflexivity).
  destruct (failed_prefill_leaves_sequence_half_primed 0 s _ _ [] w Hs eq_refl Hv Hf
              (or_intror eq_refl) [] 0)
    as (H1 & _ & _ & _ & _ & _ & _ & H8 & H9 & _ & H11).
  split; [exact H1|]. split; [exact H8|]. split; [exact H9|].
  assert (Hne : [1] <> []) by discriminate.
  assert (Hfw : forwardTokens [1] 1 = (Some [1], 2)) by (vm_compute; reflexivity).
  fold w1 in H11. rewrite (H11 [1] [1] 2 Hne Hfw). split; [reflexivity|].
  vm_compute. reflexivity.
Defined.

End DemoNoLogits.

Section DemoRejected.

#[local] Existing Instance rejecting_engine.

Local Abbreviation Seq := (MlcAiSequence (list Z)).

(** A primed sequence whose forward pass rejects, and its [destroy()]. *)
Lemma rejected_forward_keeps_disposed_logits_witness :
  let w := execs [CreateSequence []; Advance 0 [] 0] (init_world 0) in
  let w1 := snd (advance 0 [1] 0 w) in
  fst (advance 0 [1] 0 w) = Throw EngineRejected
  /\ fst (read_tokens 0 w1) = Ok [1]
  /\ disposed w1 = [[5]]
  /\ fst (logits 0 w1) = Ok [Fin 5]
  /\ disposed (snd (destroy 0 w1)) = [[5]; [5]].
Proof.
  intros w w1.
  pose (s := {| _tokens := 0; _promptSize := 3; _logits := Some [5]; _options := [] |} : Seq).
  assert (Hs : seqs w !! 0%nat = Some s) by (vm_compute; reflexivity).
  assert (Hp : _promptSize s <> 0) by discriminate.
  assert (Hc : _window_ai_seq w = Some 0%nat) by (vm_compute; reflexivity).
  assert (Hv : arrays w !! _tokens s = Some []) by (vm_compute; reflexivity).
  assert (Hne : [1] <> []) by discriminate.
  assert (Hf : forwardTokens [1] (pipeline w) = (None, 2)) by (vm_compute; reflexivity).
  destruct (rejected_forward_keeps_disposed_logits 0 s [5] [] 2 [1] w
              Hs Hp Hc Hv eq_refl Hne Hf)
    as (H1 & H2 & _ & H4 & _ & H6 & H7).
  split; [exact H1|]. split; [exact H2|]. split; [exact H4|].
  split; [exact H6|exact H7].
Defined.

End DemoRejected.

Section DemoGenText.

#[local] Existing Instance steady_engine.

Local Abbreviation Seq := (MlcAiSequence (list Z)).

(** The sampler gives token 0, the letter [a], every time; it becomes the
    end token after two forward passes. *)
Lemma genText_appends_then_destroys_witness :
  let w := execs [CreateSequence []; Advance 0 [] 0] (init_world 0) in
  let r := genText (demo_tokenizer 4) late_stopTokens tt bytes_as_text no_flush
             createAIModel 0 5 w in
  fst (fst r) = Ok [97; 97]
  /\ fst (read_tokens 0 (snd r)) = Ok [0; 0]
  /\ _window_ai_seq (snd r) = None
  /\ fst (logits 0 (snd r)) = Throw NoLogits.
Proof.
  intros w r.
  pose (s := {| _tokens := 0; _promptSize := 3; _logits := Some [5]; _options := [] |} : Seq).
  assert (Hs : seqs w !! 0%nat = Some s) by (vm_compute; reflexivity).
  assert (Hp : _promptSize s <> 0) by discriminate.
  assert (Hc : _window_ai_seq w = Some 0%nat) by (vm_compute; reflexivity).
  assert (Hv : arrays w !! _tokens s = Some []) by (vm_compute; reflexivity).
  destruct (genText_appends_then_destroys (demo_tokenizer 4) late_stopTokens tt
              bytes_as_text no_flush createAIModel 0 5 s [] w Hs Hp Hc Hv)
    as (ts & _ & H2 & _ & H4).
  fold r in H2, H4.
  assert (E : fst (fst r) = Ok [97; 97]) by (vm_compute; reflexivity).
  rewrite E in H4. destruct H4 as (H5 & H6 & _).
  split; [exact E|]. split; [|split; [exact H5|exact H6]].
  vm_compute. reflexivity.
Defined.

(** [genText] on a sequence fresh from [createSequence]. *)
Lemma genText_needs_logits_witness :
  let w := execs [CreateSequence []] (init_world 0) in
  genText (demo_tokenizer 4) late_stopTokens tt bytes_as_text no_flush
    createAIModel 0 128 w
  = (Throw NoLogits, createAIModel, w).
Proof.
  intros w.
  pose (s := {| _tokens := 0; _promptSize := 0; _logits := None; _options := [] |} : Seq).
  assert (Hs : seqs w !! 0%nat = Some s) by (vm_compute; reflexivity).
  apply (genText_needs_logits (demo_tokenizer 4) late_stopTokens tt bytes_as_text no_flush
           createAIModel 0 128 s w Hs eq_refl).
  lia.
Defined.

End DemoGenText.
